(** * NexLang: lexer, dynamic values, scoped symbol table and block engine

    A shallow embedding of the C++ sources under [nexlang/]:
    - [runtime/value.h]       -> [Module Runtime]
    - [symbol/symbol_table.h] -> [Module Symbols]
    - [lexer/lexer.cpp]       -> [Module Lex]
    - [perser/ast.h], [engine/block_engine.h] -> [Module Engine]

    Conventions.
    - A C++ [double] is a primitive binary64 float ([PrimFloat.float]); all
      arithmetic and comparisons are the IEEE-754 ones.
    - A C++ [int] is a [Z]; no function below does arithmetic on one that
      could overflow except the lexer's line and column counters, which
      would need a source text of more than 2^31 characters.
    - A C++ call either returns or throws: [outcome A].
    - [std::cout] is the list of the lines written so far. *)

From Stdlib Require Import ZArith String Ascii Bool Lia.
From Stdlib Require Import Floats.PrimFloat Floats.FloatOps Floats.SpecFloat.
From Stdlib Require Import DecimalString.
From stdpp Require Import gmap strings list sorting.

#[local] Set Warnings "-inexact-float,-register-all".

(** ** Exceptions and call outcomes *)

Inductive exception : Type :=
| runtime_error (what : string)
| invalid_argument (what : string)
| out_of_range (what : string).

Inductive outcome (A : Type) : Type :=
| Returns (a : A)
| Throws (e : exception).
Arguments Returns {A} a.
Arguments Throws {A} e.

Definition outcome_bind {A B} (m : outcome A) (k : A → outcome B) : outcome B :=
  match m with
  | Returns a => k a
  | Throws e => Throws e
  end.

(** [try { m } catch (...) { h }] *)
Definition try_catch_all {A} (m : outcome A) (h : outcome A) : outcome A :=
  match m with
  | Returns a => Returns a
  | Throws _ => h
  end.

Definition throws {A} (m : outcome A) : Prop := ∃ e, m = Throws e.

(** The exception thrown by [Value::operator/]. *)
Definition DivisionByZero : exception := runtime_error "Division by zero".

(** ** Standard-library text conversions *)

Module StdLib.

(** [std::to_string(int)] *)
Definition to_string_int (i : Z) : string := NilZero.string_of_int (Z.to_int i).

Definition sign_prefix (s : bool) : string := if s then "-" else "".

(** [n] as exactly six decimal digits, [n < 10^6]. *)
Definition six_digits (n : Z) : string :=
  let d := NilZero.string_of_uint (N.to_uint (Z.to_N n)) in
  String.concat "" (repeat "0" (6 - String.length d))%nat +:+ d.

(** The integer nearest to [num / den], ties to the even one
    (the default rounding direction of [printf]). *)
Definition round_half_even (num den : Z) : Z :=
  let q := (num / den)%Z in
  let r := (num mod den)%Z in
  if (2 * r <? den)%Z then q
  else if (den <? 2 * r)%Z then (q + 1)%Z
  else if Z.even q then q else (q + 1)%Z.

(** [std::to_string(double)], which is [printf("%f")]: the exact value
    of the double rounded to six decimals. The sign bit of a NaN is not
    part of [PrimFloat.float]; a NaN renders as "nan". *)
Definition to_string_double (f : float) : string :=
  match Prim2SF f with
  | S754_zero s => sign_prefix s +:+ "0.000000"
  | S754_infinity s => sign_prefix s +:+ "inf"
  | S754_nan => "nan"
  | S754_finite s m e =>
      let n := match e with
               | Zneg p => round_half_even (Zpos m * 10 ^ 6) (2 ^ Zpos p)
               | _ => (Zpos m * 2 ^ e * 10 ^ 6)%Z
               end in
      sign_prefix s +:+ NilZero.string_of_uint (N.to_uint (Z.to_N (n / 10 ^ 6)))
        +:+ "." +:+ six_digits (n mod 10 ^ 6)
  end.

(** [static_cast<double>(int)]: the nearest double, which for a 32-bit
    [int] is the integer itself. *)
Definition double_of_int (i : Z) : float :=
  SF2Prim (binary_normalize prec emax i 0 false).

End StdLib.

(** ** [runtime/value.h] *)

Module Runtime.
Import StdLib.

Inductive ValueType : Type := STRING | FLOAT | BOOL | HANDLE.

(** [ptr] is the address held by the [void*]; [0] is [nullptr]. *)
Record Handle : Type := mkHandle { h_type : string; h_ptr : N; h_id : Z }.

(** [type_] and [data_] are set together by each constructor and never
    apart, so a value is one of four tagged payloads. *)
Inductive Value : Type :=
| VString (s : string)
| VFloat (f : float)
| VBool (b : bool)
| VHandle (h : Handle).

(** [Value()] *)
Definition Value_default : Value := VString "".

Definition getType (v : Value) : ValueType :=
  match v with
  | VString _ => STRING
  | VFloat _ => FLOAT
  | VBool _ => BOOL
  | VHandle _ => HANDLE
  end.

Definition is_string (v : Value) : bool :=
  match v with VString _ => true | _ => false end.

Definition toString (v : Value) : string :=
  match v with
  | VString s => s
  | VFloat f => to_string_double f
  | VBool b => if b then "true" else "false"
  | VHandle h => "<handle:" +:+ h_type h +:+ ":" +:+ to_string_int (h_id h) +:+ ">"
  end.

Definition toBool (v : Value) : bool :=
  match v with
  | VString s => negb (String.eqb s "")
  | VFloat f => PrimFloat.ltb 1e-10 (PrimFloat.abs f)
  | VBool b => b
  | VHandle h => negb (h_ptr h =? 0)%N
  end.

Section WithStod.
(** [std::stod]: the parsed double, or the exception it throws
    ([invalid_argument] when no conversion can be performed,
    [out_of_range] when the value does not fit). *)
Variable stod : string → outcome float.

Definition toFloat (v : Value) : outcome float :=
  match v with
  | VString s => try_catch_all (stod s) (Returns 0%float)
  | VFloat f => Returns f
  | VBool b => Returns (if b then 1%float else 0%float)
  | VHandle h => Returns (double_of_int (h_id h))
  end.

Definition operator_plus (a b : Value) : outcome Value :=
  if is_string a || is_string b
  then Returns (VString (toString a +:+ toString b))
  else outcome_bind (toFloat a) (λ x,
       outcome_bind (toFloat b) (λ y, Returns (VFloat (x + y)))).

Definition operator_minus (a b : Value) : outcome Value :=
  outcome_bind (toFloat a) (λ x,
  outcome_bind (toFloat b) (λ y, Returns (VFloat (x - y)))).

Definition operator_times (a b : Value) : outcome Value :=
  outcome_bind (toFloat a) (λ x,
  outcome_bind (toFloat b) (λ y, Returns (VFloat (x * y)))).

Definition operator_div (a b : Value) : outcome Value :=
  outcome_bind (toFloat b) (λ divisor,
    if PrimFloat.ltb (PrimFloat.abs divisor) 1e-10
    then Throws DivisionByZero
    else outcome_bind (toFloat a) (λ x, Returns (VFloat (x / divisor)))).

(** The [Divide] entry of [BuiltinsRegistry::initializeBuiltins]. *)
Definition builtin_Divide (args : list Value) : outcome Value :=
  match args with
  | a0 :: a1 :: _ => operator_div a0 a1
  | _ => Returns (VFloat 0)
  end.

(** The [Add] entry. *)
Definition builtin_Add (args : list Value) : outcome Value :=
  match args with
  | a0 :: a1 :: _ => operator_plus a0 a1
  | _ => Returns (VFloat 0)
  end.
(** [Value::convertTo] *)
Definition ValueType_eqb (a b : ValueType) : bool :=
  match a, b with
  | STRING, STRING | FLOAT, FLOAT | BOOL, BOOL | HANDLE, HANDLE => true
  | _, _ => false
  end.

Definition convertTo (v : Value) (targetType : ValueType) : outcome Value :=
  if ValueType_eqb (getType v) targetType then Returns v
  else match targetType with
       | STRING => Returns (VString (toString v))
       | FLOAT => outcome_bind (toFloat v) (λ f, Returns (VFloat f))
       | BOOL => Returns (VBool (toBool v))
       | HANDLE => Throws (runtime_error "Cannot convert to handle type")
       end.

(** The comparison operators. [std::string] compares by [unsigned char],
    which is [String.eqb] and [String.ltb]. *)
Definition operator_eq (a b : Value) : outcome bool :=
  if is_string a || is_string b
  then Returns (String.eqb (toString a) (toString b))
  else outcome_bind (toFloat a) (λ x,
       outcome_bind (toFloat b) (λ y,
         Returns (PrimFloat.ltb (PrimFloat.abs (x - y)) 1e-10))).

Definition operator_ne (a b : Value) : outcome bool :=
  outcome_bind (operator_eq a b) (λ r, Returns (negb r)).

Definition operator_lt (a b : Value) : outcome bool :=
  if is_string a || is_string b
  then Returns (String.ltb (toString a) (toString b))
  else outcome_bind (toFloat a) (λ x,
       outcome_bind (toFloat b) (λ y, Returns (PrimFloat.ltb x y))).

(** [*this < other || *this == other]: the equality is evaluated only
    when the first test is false. *)
Definition operator_le (a b : Value) : outcome bool :=
  outcome_bind (operator_lt a b) (λ r,
    if r then Returns true else operator_eq a b).

Definition operator_gt (a b : Value) : outcome bool :=
  outcome_bind (operator_le a b) (λ r, Returns (negb r)).

Definition operator_ge (a b : Value) : outcome bool :=
  outcome_bind (operator_lt a b) (λ r, Returns (negb r)).

End WithStod.

End Runtime.

Import Runtime.

(** ** [symbol/symbol_table.h] *)

Module Symbols.

Inductive SymbolType : Type := VARIABLE | FUNCTION | OPERATION | BLOCK | BUILTIN.

(** The dynamic class of a symbol object with the members that class
    adds to [Symbol]; [dynamic_pointer_cast] inspects it. *)
Inductive SymbolClass : Type :=
| SymbolBase
| VariableSymbol (isMutable : bool)
| FunctionSymbol (paramNames : list string)
| OperationSymbol (paramNames : list string)
| BlockSymbol (blockId : Z)
| BuiltInSymbol (implementation : string).

Record Symbol : Type := mkSymbol
  { name : string; type : SymbolType; value : Value; derived : SymbolClass }.

Definition new_VariableSymbol (n : string) (v : Value) (mut : bool) : Symbol :=
  mkSymbol n VARIABLE v (VariableSymbol mut).
Definition new_FunctionSymbol (n : string) (params : list string) : Symbol :=
  mkSymbol n FUNCTION Value_default (FunctionSymbol params).
Definition new_OperationSymbol (n : string) (params : list string) : Symbol :=
  mkSymbol n OPERATION Value_default (OperationSymbol params).
Definition new_BlockSymbol (n : string) (id : Z) : Symbol :=
  mkSymbol n BLOCK Value_default (BlockSymbol id).
Definition new_BuiltInSymbol (n impl : string) : Symbol :=
  mkSymbol n BUILTIN Value_default (BuiltInSymbol impl).

(** A scope owns its symbols: every [define] of the sources installs an
    object fresh from [make_shared], so no symbol is reachable from two
    entries and the pointer in the map is rendered as the object. *)
Inductive Scope : Type :=
| mkScope (symbols : gmap string Symbol) (parent : option Scope).

Definition symbols (sc : Scope) : gmap string Symbol :=
  match sc with mkScope syms _ => syms end.
Definition parent (sc : Scope) : option Scope :=
  match sc with mkScope _ p => p end.

Definition Scope_define (n : string) (sym : Symbol) (sc : Scope) : Scope :=
  mkScope (<[n := sym]> (symbols sc)) (parent sc).

Fixpoint Scope_lookup (n : string) (sc : Scope) : option Symbol :=
  match sc with
  | mkScope syms par =>
      match syms !! n with
      | Some sym => Some sym
      | None => match par with
                | Some p => Scope_lookup n p
                | None => None
                end
      end
  end.

Definition Scope_hasLocal (n : string) (sc : Scope) : bool :=
  bool_decide (is_Some (symbols sc !! n)).

(** The write [varSym->value = newValue] through the pointer that
    [Scope::lookup] returned: the first binding of [n] on the way outward
    gets the new value. *)
Fixpoint Scope_assign (n : string) (v : Value) (sc : Scope) : Scope :=
  match sc with
  | mkScope syms par =>
      match syms !! n with
      | Some sym =>
          mkScope (<[n := mkSymbol (name sym) (type sym) v (derived sym)]> syms) par
      | None =>
          mkScope syms match par with
                       | Some p => Some (Scope_assign n v p)
                       | None => None
                       end
      end
  end.

(** The maps of a scope chain, innermost first. *)
Fixpoint Scope_chain (sc : Scope) : list (gmap string Symbol) :=
  match sc with
  | mkScope syms par =>
      syms :: match par with
              | Some p => Scope_chain p
              | None => []
              end
  end.

Record SymbolTable : Type := mkSymbolTable { currentScope : Scope }.

Definition define (sym : Symbol) (st : SymbolTable) : SymbolTable :=
  mkSymbolTable (Scope_define (name sym) sym (currentScope st)).

Definition initializeBuiltIns (st : SymbolTable) : SymbolTable :=
  define (new_BuiltInSymbol "DO" "execute")
    (define (new_BuiltInSymbol "Write" "file_write")
      (define (new_BuiltInSymbol "Read" "file_read")
        (define (new_BuiltInSymbol "open" "file_open")
          (define (new_BuiltInSymbol "Say" "print") st)))).

(** [SymbolTable()] *)
Definition SymbolTable_new : SymbolTable :=
  initializeBuiltIns (mkSymbolTable (mkScope ∅ None)).

Definition enterScope (st : SymbolTable) : SymbolTable :=
  mkSymbolTable (mkScope ∅ (Some (currentScope st))).

Definition exitScope (st : SymbolTable) : SymbolTable :=
  match parent (currentScope st) with
  | Some p => mkSymbolTable p
  | None => st
  end.

Definition lookup (n : string) (st : SymbolTable) : option Symbol :=
  Scope_lookup n (currentScope st).

Definition defineVariable (n : string) (v : Value) (isMutable : bool)
    (st : SymbolTable) : SymbolTable :=
  define (new_VariableSymbol n v isMutable) st.
Definition defineFunction (n : string) (params : list string)
    (st : SymbolTable) : SymbolTable :=
  define (new_FunctionSymbol n params) st.
Definition defineOperation (n : string) (params : list string)
    (st : SymbolTable) : SymbolTable :=
  define (new_OperationSymbol n params) st.
Definition defineBlock (n : string) (id : Z) (st : SymbolTable) : SymbolTable :=
  define (new_BlockSymbol n id) st.

Definition is_VARIABLE (t : SymbolType) : bool :=
  match t with VARIABLE => true | _ => false end.

Definition hasVariable (n : string) (st : SymbolTable) : bool :=
  match lookup n st with
  | Some sym => is_VARIABLE (type sym)
  | None => false
  end.

(** The call's outcome and the table it leaves behind. *)
Definition updateVariable (n : string) (newValue : Value) (st : SymbolTable)
    : outcome bool * SymbolTable :=
  match lookup n st with
  | Some sym =>
      if is_VARIABLE (type sym) then
        match derived sym with
        | VariableSymbol true =>
            (Returns true, mkSymbolTable (Scope_assign n newValue (currentScope st)))
        | _ => (Returns false, st)
        end
      else (Returns false, st)
  | None => (Returns false, st)
  end.

End Symbols.

(** ** [perser/ast.h] and [engine/block_engine.h] *)

Module Engine.
Import Symbols.

Inductive Statement : Type :=
| LetStmt (name value : string)
| SayStmt (message : string)
| RunOperationStmt (operationId : Z)
| IfStmt (condition : string) (thenBody elseBody : list Statement)
| WhileStmt (condition : string) (body : list Statement)
| OpenFileStmt (filename : string)
| ReadFileStmt (filename : string)
| WriteFileStmt (content filename location : string)
| NowStmt (body : list Statement)
| DoStmt (body : list Statement)
| UntilStmt (condition : string) (body : list Statement)
| AssignmentStmt (variable value : string)
| IncrementStmt (variable : string) (isIncrement : bool)
| ExecuteBlockStmt (blockId : Z) (outputs : list string).

(** The nodes a program's [sections] vector can hold: the four block
    sections, or a statement node (the parser places the
    [ExecuteBlockStmt] there). *)
Inductive ASTNode : Type :=
| DataBlock (name : string) (id : Z) (statements : list Statement)
| OperationBlock (name : string) (id : Z) (body : list Statement)
| FunctionBlock (name : string) (id : Z) (body : list Statement)
| SystemCallBlock (body : list Statement)
| StatementNode (stmt : Statement).

Record ProgramBlock : Type := mkProgramBlock
  { blockId : Z; sections : list ASTNode }.

Record ExecutionContext : Type := mkExecutionContext
  { symbolTable : SymbolTable; stack : list Value }.

(** [ExecutionContext()] *)
Definition ExecutionContext_new : ExecutionContext :=
  mkExecutionContext SymbolTable_new [].

(** The context of the running program and the lines written to
    [std::cout], oldest first. *)
Record Machine : Type := mkMachine { ctx : ExecutionContext; cout : list string }.

(** [std::cout << text << std::endl] *)
Definition print_line (text : string) (m : Machine) : Machine :=
  mkMachine (ctx m) (cout m ++ [text]).

Definition with_symbolTable (st : SymbolTable) (m : Machine) : Machine :=
  mkMachine (mkExecutionContext st (stack (ctx m))) (cout m).

(** [std::cout << b] for a [bool] *)
Definition show_bool (b : bool) : string := if b then "1" else "0".

Section WithStod.
Variable stod : string → outcome float.

Definition executeLetStatement (m : Machine) (n v : string) : Machine :=
  let val := match stod v with
             | Returns numVal => VFloat numVal
             | Throws _ => VString v
             end in
  with_symbolTable (defineVariable n val true (symbolTable (ctx m))) m.

Definition executeSayStatement (m : Machine) (message : string) : Machine :=
  match lookup message (symbolTable (ctx m)) with
  | Some sym => print_line (toString (value sym)) m
  | None => print_line message m
  end.

Definition executeRunOperationStatement (m : Machine) (operationId : Z) : Machine :=
  print_line ("Running operation " +:+ StdLib.to_string_int operationId) m.

(** The condition of [executeIfStatement]. *)
Definition conditionResult (m : Machine) (condition : string) : bool :=
  match lookup condition (symbolTable (ctx m)) with
  | Some sym => toBool (value sym)
  | None => negb (String.eqb condition "")
  end.

Definition executeOpenFileStatement (m : Machine) (filename : string) : Machine :=
  print_line ("Opening file: " +:+ filename) m.

Definition executeReadFileStatement (m : Machine) (filename : string) : Machine :=
  print_line ("Reading file: " +:+ filename) m.

Definition executeWriteFileStatement (m : Machine)
    (content filename location : string) : Machine :=
  print_line ("Writing to file: " +:+ filename +:+ " content: " +:+ content
              +:+ " at location: " +:+ location) m.

Definition executeUntilStatement (m : Machine) (condition : string) : Machine :=
  match lookup condition (symbolTable (ctx m)) with
  | Some sym =>
      print_line ("Until condition evaluated: " +:+ show_bool (toBool (value sym))) m
  | None => print_line ("Until condition: " +:+ condition) m
  end.

(** [executeStatement] with the bodies of [executeIfStatement],
    [executeWhileStatement], [executeNowStatement] and
    [executeDoStatement], which call back into it, written in place. A
    statement class without a branch in the dispatch chain
    ([AssignmentStmt], [IncrementStmt], [ExecuteBlockStmt]) falls through
    it. *)
Fixpoint executeStatement (m : Machine) (stmt : Statement) : Machine :=
  match stmt with
  | LetStmt n v => executeLetStatement m n v
  | SayStmt message => executeSayStatement m message
  | RunOperationStmt operationId => executeRunOperationStatement m operationId
  | IfStmt condition thenBody elseBody =>
      if conditionResult m condition
      then fold_left executeStatement thenBody m
      else fold_left executeStatement elseBody m
  | WhileStmt _ body => fold_left executeStatement body m
  | OpenFileStmt filename => executeOpenFileStatement m filename
  | ReadFileStmt filename => executeReadFileStatement m filename
  | WriteFileStmt content filename location =>
      executeWriteFileStatement m content filename location
  | NowStmt body => fold_left executeStatement body m
  | DoStmt body => fold_left executeStatement body m
  | UntilStmt condition _ => executeUntilStatement m condition
  | AssignmentStmt _ _ => m
  | IncrementStmt _ _ => m
  | ExecuteBlockStmt _ _ => m
  end.

Definition executeStatements (m : Machine) (stmts : list Statement) : Machine :=
  fold_left executeStatement stmts m.

Definition executeWhileStatement (m : Machine)
    (condition : string) (body : list Statement) : Machine :=
  executeStatements m body.

Definition executeBlockDirective (m : Machine)
    (execBlockId : Z) (outputs : list string) : Machine :=
  fold_left (λ m output, print_line ("Output: " +:+ output) m) outputs
    (print_line ("Executing block " +:+ StdLib.to_string_int execBlockId) m).

Definition executeSection (m : Machine) (section : ASTNode) : Machine :=
  match section with
  | DataBlock _ _ statements => executeStatements m statements
  | OperationBlock _ _ body => executeStatements m body
  | FunctionBlock _ _ body => executeStatements m body
  | SystemCallBlock body => executeStatements m body
  | StatementNode (ExecuteBlockStmt execBlockId outputs) =>
      executeBlockDirective m execBlockId outputs
  | StatementNode _ => m
  end.

(** [executeProgram] returns [Value()] whatever the program; what the run
    did is the machine it ends in. *)
Definition runProgram (program : ProgramBlock) : Machine :=
  fold_left executeSection (sections program) (mkMachine ExecutionContext_new []).

Definition executeProgram (program : ProgramBlock) : Value := Value_default.

End WithStod.

End Engine.

(** ** [builtins/builtins_registry.h] *)

Module Builtins.

Inductive BuiltinKind : Type :=
| SAY | OPEN_FILE | READ_FILE | WRITE_FILE | MATH_OP | STRING_OP
| REGEX_OP | FILE_OP | NETWORK_OP | SIMD_OP.

(** A builtin's callable: from the arguments and the lines on
    [std::cout], its outcome and the lines after the call. *)
Definition BuiltinFunction : Type :=
  list Value → list string → outcome Value * list string.

Record Builtin : Type := mkBuiltin
  { name : string; kind : BuiltinKind; argCount : Z;
    implementation : BuiltinFunction }.

(** The member [builtins_]. *)
Record BuiltinsRegistry : Type := mkRegistry { builtins_ : gmap string Builtin }.

Definition registerBuiltin (n : string) (k : BuiltinKind) (args : Z)
    (impl : BuiltinFunction) (reg : BuiltinsRegistry) : BuiltinsRegistry :=
  mkRegistry (<[n := mkBuiltin n k args impl]> (builtins_ reg)).

Definition getBuiltin (n : string) (reg : BuiltinsRegistry) : option Builtin :=
  builtins_ reg !! n.

Definition isBuiltin (n : string) (reg : BuiltinsRegistry) : bool :=
  bool_decide (is_Some (builtins_ reg !! n)).

Section WithStod.
Variable stod : string → outcome float.

Definition impl_Say : BuiltinFunction :=
  λ args out,
    match args with
    | a0 :: _ => (Returns Value_default, out ++ [toString a0])
    | [] => (Returns Value_default, out)
    end.

Definition impl_open : BuiltinFunction :=
  λ args out,
    match args with
    | _ :: _ => (Returns (VHandle (mkHandle "file" 0 1)), out)
    | [] => (Returns Value_default, out)
    end.

(** [Value("<file_contents>")] passes a string literal: of the explicit
    constructors, overload resolution selects [Value(bool)], reached by
    the standard pointer-to-bool conversion, over [Value(const
    std::string&)], which needs a user-defined conversion. The literal is
    not a null pointer, so the value is the Bool [true]. The same holds
    for the [Value("")] of [Concat]. *)
Definition Value_of_literal (literal : string) : Value := VBool true.

Definition impl_Read : BuiltinFunction :=
  λ args out,
    match args with
    | _ :: _ => (Returns (Value_of_literal "<file_contents>"), out)
    | [] => (Returns Value_default, out)
    end.

Definition impl_Write : BuiltinFunction :=
  λ args out,
    match args with
    | _ :: _ :: _ :: _ => (Returns (VBool true), out)
    | _ => (Returns (VBool false), out)
    end.

Definition impl_Add : BuiltinFunction :=
  λ args out, (builtin_Add stod args, out).

Definition impl_Subtract : BuiltinFunction :=
  λ args out,
    match args with
    | a0 :: a1 :: _ => (operator_minus stod a0 a1, out)
    | _ => (Returns (VFloat 0), out)
    end.

Definition impl_Multiply : BuiltinFunction :=
  λ args out,
    match args with
    | a0 :: a1 :: _ => (operator_times stod a0 a1, out)
    | _ => (Returns (VFloat 0), out)
    end.

Definition impl_Divide : BuiltinFunction :=
  λ args out, (builtin_Divide stod args, out).

Definition impl_Concat : BuiltinFunction :=
  λ args out,
    match args with
    | a0 :: a1 :: _ => (operator_plus stod a0 a1, out)
    | _ => (Returns (Value_of_literal ""), out)
    end.

Definition initializeBuiltins (reg : BuiltinsRegistry) : BuiltinsRegistry :=
  registerBuiltin "Concat" STRING_OP 2 impl_Concat
    (registerBuiltin "Divide" MATH_OP 2 impl_Divide
      (registerBuiltin "Multiply" MATH_OP 2 impl_Multiply
        (registerBuiltin "Subtract" MATH_OP 2 impl_Subtract
          (registerBuiltin "Add" MATH_OP 2 impl_Add
            (registerBuiltin "Write" WRITE_FILE (-1) impl_Write
              (registerBuiltin "Read" READ_FILE 1 impl_Read
                (registerBuiltin "open" OPEN_FILE 1 impl_open
                  (registerBuiltin "Say" SAY 1 impl_Say reg)))))))).

(** [BuiltinsRegistry::getInstance()]: the registry as its private
    constructor leaves it. *)
Definition getInstance : BuiltinsRegistry := initializeBuiltins (mkRegistry ∅).

End WithStod.

End Builtins.

(** ** [analyzer/semantic_analyzer.h] *)

Module Analyzer.
Import Symbols Engine.

Section WithStod.
Variable stod : string → outcome float.

Definition visitLetStatement (st : SymbolTable) (n v : string) : SymbolTable :=
  let val := match stod v with
             | Returns numVal => VFloat numVal
             | Throws _ => VString v
             end in
  defineVariable n val true st.

(** [visitStatement] with the visitors that call back into it written in
    place; the visitors of Say, Run, open, Read and Write change nothing,
    and a statement class without a branch falls through. *)
Fixpoint visitStatement (st : SymbolTable) (stmt : Statement) : SymbolTable :=
  match stmt with
  | LetStmt n v => visitLetStatement st n v
  | SayStmt _ => st
  | RunOperationStmt _ => st
  | IfStmt _ thenBody elseBody =>
      exitScope (fold_left visitStatement elseBody
                   (fold_left visitStatement thenBody (enterScope st)))
  | WhileStmt _ body => exitScope (fold_left visitStatement body (enterScope st))
  | OpenFileStmt _ => st
  | ReadFileStmt _ => st
  | WriteFileStmt _ _ _ => st
  | NowStmt body => exitScope (fold_left visitStatement body (enterScope st))
  | DoStmt body => exitScope (fold_left visitStatement body (enterScope st))
  | UntilStmt _ _ => exitScope (enterScope st)
  | AssignmentStmt _ _ => st
  | IncrementStmt _ _ => st
  | ExecuteBlockStmt _ _ => st
  end.

Definition visitStatements (st : SymbolTable) (stmts : list Statement) : SymbolTable :=
  fold_left visitStatement stmts st.

Definition visitDataBlock (st : SymbolTable) (statements : list Statement) : SymbolTable :=
  exitScope (visitStatements (enterScope st) statements).

Definition visitOperationBlock (st : SymbolTable) (n : string)
    (body : list Statement) : SymbolTable :=
  exitScope (visitStatements (enterScope (defineOperation n [] st)) body).

Definition visitFunctionBlock (st : SymbolTable) (n : string)
    (body : list Statement) : SymbolTable :=
  exitScope (visitStatements (enterScope (defineFunction n [] st)) body).

Definition visitSystemCallBlock (st : SymbolTable) (body : list Statement) : SymbolTable :=
  exitScope (visitStatements (enterScope st) body).

Definition visitSection (st : SymbolTable) (section : ASTNode) : SymbolTable :=
  match section with
  | DataBlock _ _ statements => visitDataBlock st statements
  | OperationBlock n _ body => visitOperationBlock st n body
  | FunctionBlock n _ body => visitFunctionBlock st n body
  | SystemCallBlock body => visitSystemCallBlock st body
  | StatementNode _ => st
  end.

Definition visitProgram (st : SymbolTable) (program : ProgramBlock) : SymbolTable :=
  exitScope (fold_left visitSection (sections program) (enterScope st)).

Definition analyze (st : SymbolTable) (program : ProgramBlock) : SymbolTable :=
  visitProgram st program.

End WithStod.

End Analyzer.

(** ** [lexer/lexer.h] and [lexer/lexer.cpp] *)

Module Lex.

(** [String_] is the token type [String]. *)
Inductive TokenType : Type :=
| EndOfFile | Unknown | Identifier | Keyword | Number | String_
| Symbol | Operator | Comment.

Record Token : Type := makeToken
  { type : TokenType; lexeme : string; line : Z; column : Z }.

Definition kKeywords : list string :=
  [ "#START_BLOCK"; "#END_BLOCK"; "#EXECUTE_BLOCK";
    "DATA"; "OPERATION"; "FUNCTION"; "SYSTEM_CALL";
    "Let"; "NOW"; "DO"; "Until"; "Run"; "If"; "Else"; "While"; "Say";
    "open"; "Read"; "Write"; "in_file"; "at_Location"; "DO";
    "Create_operation"; "create_function" ].

Definition kOperators : list string :=
  [ "=>"; "=="; "++"; "--"; "="; "+"; "-"; "*"; "/"; "%" ].

Definition kSymbols : list ascii :=
  [ "("; ")"; "{"; "}"; "["; "]"; ";"; ","; "*"; "@"; "."; "/" ]%char.

(** [set.count(x)] as a truth value *)
Definition count_string (x : string) (set : list string) : bool :=
  existsb (String.eqb x) set.
Definition count_char (x : ascii) (set : list ascii) : bool :=
  existsb (Ascii.eqb x) set.

(** The [<cctype>] classes in the "C" locale, on an [unsigned char]. *)
Definition isspace (c : ascii) : bool :=
  let n := N_of_ascii c in ((9 <=? n) && (n <=? 13) || (n =? 32))%N.
Definition isdigit (c : ascii) : bool :=
  let n := N_of_ascii c in ((48 <=? n) && (n <=? 57))%N.
Definition isalpha (c : ascii) : bool :=
  let n := N_of_ascii c in
  ((65 <=? n) && (n <=? 90) || (97 <=? n) && (n <=? 122))%N.
Definition isalnum (c : ascii) : bool := isalpha c || isdigit c.

Definition newline : ascii := "010"%char.
Definition quote : ascii := "034"%char.

(** The lexer object: [rest] is the unread part of [src_], from [pos_]
    on; [line_] and [col_] are the members of that name. *)
Record Lexer : Type := mkLexer { rest : string; line_ : Z; col_ : Z }.

(** [Lexer(source)] *)
Definition Lexer_new (source : string) : Lexer := mkLexer source 1 1.

(** A member function: from a lexer state, a result and the state after
    it, or [None] when it would read [src_] beyond its end. *)
Definition L (A : Type) : Type := Lexer → option (A * Lexer).

Definition ret {A} (a : A) : L A := λ lx, Some (a, lx).

Definition bind {A B} (m : L A) (k : A → L B) : L B :=
  λ lx, match m lx with
        | Some (a, lx') => k a lx'
        | None => None
        end.

Notation "'let*' x ':=' m 'in' k" := (bind m (λ x, k))
  (at level 10, x name, m at level 100, k at level 200, only parsing).

Definition isAtEnd (lx : Lexer) : bool :=
  match rest lx with EmptyString => true | String _ _ => false end.

Definition peek (lx : Lexer) : ascii :=
  match rest lx with EmptyString => Ascii.zero | String c _ => c end.

Definition peekNext (lx : Lexer) : ascii :=
  match rest lx with String _ (String c _) => c | _ => Ascii.zero end.

(** The line and the column after consuming [c]. *)
Definition next_line (c : ascii) (line : Z) : Z :=
  if Ascii.eqb c newline then (line + 1)%Z else line.
Definition next_col (c : ascii) (col : Z) : Z :=
  if Ascii.eqb c newline then 1%Z else (col + 1)%Z.

Definition advance : L ascii :=
  λ lx, match rest lx with
        | EmptyString => None
        | String c r =>
            Some (c, mkLexer r (next_line c (line_ lx)) (next_col c (col_ lx)))
        end.

(** The [while] loops of the scanners, by recursion on the unread text;
    each [String c r] case with a recursive call is one [advance()]. *)
Fixpoint skipWhitespace_loop (s : string) (line col : Z) : Lexer :=
  match s with
  | String c r =>
      if isspace c
      then skipWhitespace_loop r (next_line c line) (next_col c col)
      else mkLexer s line col
  | EmptyString => mkLexer s line col
  end.

Definition skipWhitespace : L unit :=
  λ lx, Some (tt, skipWhitespace_loop (rest lx) (line_ lx) (col_ lx)).

Fixpoint scanComment_loop (s : string) (line col : Z) (lex : string)
    : string * Lexer :=
  match s with
  | String c r =>
      if Ascii.eqb c newline then (lex, mkLexer s line col)
      else scanComment_loop r (next_line c line) (next_col c col)
             (lex +:+ String c EmptyString)
  | EmptyString => (lex, mkLexer s line col)
  end.

Definition scanComment (line col : Z) : L Token :=
  let* _ := advance in
  let* _ := advance in
  λ lx, let '(lex, lx') :=
          scanComment_loop (rest lx) (line_ lx) (col_ lx) EmptyString in
        Some (makeToken Comment lex line col, lx').

Definition is_identifier_char (c : ascii) : bool :=
  isalnum c || Ascii.eqb c "_" || Ascii.eqb c "#".

Fixpoint scanIdentifierOrKeyword_loop (s : string) (line col : Z) (lex : string)
    : string * Lexer :=
  match s with
  | String c r =>
      if is_identifier_char c
      then scanIdentifierOrKeyword_loop r (next_line c line) (next_col c col)
             (lex +:+ String c EmptyString)
      else (lex, mkLexer s line col)
  | EmptyString => (lex, mkLexer s line col)
  end.

Definition scanIdentifierOrKeyword (line col : Z) : L Token :=
  λ lx, let '(lex, lx') :=
          scanIdentifierOrKeyword_loop (rest lx) (line_ lx) (col_ lx) EmptyString in
        if count_string lex kKeywords
        then Some (makeToken Keyword lex line col, lx')
        else Some (makeToken Identifier lex line col, lx').

Fixpoint scanNumber_loop (s : string) (line col : Z) (lex : string)
    : string * Lexer :=
  match s with
  | String c r =>
      if isdigit c
      then scanNumber_loop r (next_line c line) (next_col c col)
             (lex +:+ String c EmptyString)
      else (lex, mkLexer s line col)
  | EmptyString => (lex, mkLexer s line col)
  end.

Definition scanNumber (line col : Z) : L Token :=
  λ lx, let '(lex, lx') :=
          scanNumber_loop (rest lx) (line_ lx) (col_ lx) EmptyString in
        Some (makeToken Number lex line col, lx').

(** The loop of [scanString] and what follows it: the token type is
    [String_] when the closing quote was consumed, [Unknown] when a
    newline was consumed or the text ended first. *)
Fixpoint scanString_loop (s : string) (line col : Z) (lex : string)
    : TokenType * string * Lexer :=
  match s with
  | String c r =>
      let lx' := mkLexer r (next_line c line) (next_col c col) in
      if Ascii.eqb c quote then (String_, lex, lx')
      else if Ascii.eqb c newline then (Unknown, lex, lx')
      else scanString_loop r (next_line c line) (next_col c col)
             (lex +:+ String c EmptyString)
  | EmptyString => (Unknown, lex, mkLexer s line col)
  end.

Definition scanString (line col : Z) : L Token :=
  let* _ := advance in
  λ lx, let '(ty, lex, lx') :=
          scanString_loop (rest lx) (line_ lx) (col_ lx) EmptyString in
        Some (makeToken ty lex line col, lx').

(** [src_.compare(pos_, op.size(), op) == 0] *)
Fixpoint starts_with (op s : string) : bool :=
  match op with
  | EmptyString => true
  | String a op' =>
      match s with
      | String b s' => Ascii.eqb a b && starts_with op' s'
      | EmptyString => false
      end
  end.

(** [for (i = 0; i < op.size(); ++i) advance();] *)
Fixpoint advance_over (op : string) : L unit :=
  match op with
  | EmptyString => ret tt
  | String _ op' => let* _ := advance in advance_over op'
  end.

Definition matchOperator : L (option string) :=
  λ lx, match find (λ op, starts_with op (rest lx)) kOperators with
        | Some op => (let* _ := advance_over op in ret (Some op)) lx
        | None => ret None lx
        end.

(** One turn of the loop of [tokenize], from [startLine] on: the
    recognition of one token at a lexer that is not at the end. *)
Definition scanToken : L Token :=
  λ lx,
    let startLine := line_ lx in
    let startCol := col_ lx in
    let c := peek lx in
    if Ascii.eqb c "/" && Ascii.eqb (peekNext lx) "/"
    then scanComment startLine startCol lx
    else if Ascii.eqb c quote
    then scanString startLine startCol lx
    else if isdigit c
    then scanNumber startLine startCol lx
    else if isalpha c || Ascii.eqb c "_" || Ascii.eqb c "#"
    then scanIdentifierOrKeyword startLine startCol lx
    else
      (let* op := matchOperator in
       match op with
       | Some op => ret (makeToken Operator op startLine startCol)
       | None =>
           if count_char c kSymbols
           then let* ch := advance in
                ret (makeToken Symbol (String ch EmptyString) startLine startCol)
           else let* bad := advance in
                ret (makeToken Unknown (String bad EmptyString) startLine startCol)
       end) lx.

(** How a run of [tokenize] ends. *)
Inductive result : Type :=
| Tokens (tokens : list Token)
| Fault
| OutOfFuel.

(** The loop of [tokenize] with the [push_back] of the end-of-file token
    behind it; [fuel] bounds the number of turns. *)
Fixpoint tokenize_loop (fuel : nat) (lx : Lexer) (tokens : list Token) : result :=
  if isAtEnd lx
  then Tokens (tokens ++ [makeToken EndOfFile EmptyString (line_ lx) (col_ lx)])
  else
    match fuel with
    | O => OutOfFuel
    | S fuel' =>
        match skipWhitespace lx with
        | None => Fault
        | Some (_, lx1) =>
            if isAtEnd lx1
            then Tokens (tokens ++
                   [makeToken EndOfFile EmptyString (line_ lx1) (col_ lx1)])
            else
              match scanToken lx1 with
              | None => Fault
              | Some (tok, lx2) => tokenize_loop fuel' lx2 (tokens ++ [tok])
              end
        end
    end.

(** [Lexer(source).tokenize()]; every turn of the loop consumes a
    character, so the length of the source is fuel enough. *)
Definition tokenize (source : string) : result :=
  tokenize_loop (String.length source) (Lexer_new source) [].

(** The characters after which no branch of [tokenize] but the last one
    applies. *)
Definition unrecognized (c : ascii) : bool :=
  negb (isspace c) && negb (Ascii.eqb c quote) && negb (isdigit c)
  && negb (isalpha c || Ascii.eqb c "_" || Ascii.eqb c "#")
  && negb (existsb (λ op, starts_with op (String c EmptyString)) kOperators)
  && negb (count_char c kSymbols).

(** Text that a string literal can hold: no quote and no newline. *)
Fixpoint plain_text (s : string) : bool :=
  match s with
  | EmptyString => true
  | String c r => negb (Ascii.eqb c quote) && negb (Ascii.eqb c newline) && plain_text r
  end.

(** The lexer state after [skipWhitespace()]. *)
Definition skipped (lx : Lexer) : Lexer :=
  skipWhitespace_loop (rest lx) (line_ lx) (col_ lx).

(** Turns of the loop of [tokenize]: [scan_run lx ts lx'] says that from
    the state [lx] the loop pushes the tokens [ts], one per turn, each
    after skipping white space, and then stands, white space skipped,
    at [lx']. *)
Inductive scan_run : Lexer → list Token → Lexer → Prop :=
| scan_run_nil (lx : Lexer) : scan_run lx [] (skipped lx)
| scan_run_cons (lx lx1 lx' : Lexer) (tok : Token) (ts : list Token) :
    isAtEnd (skipped lx) = false →
    scanToken (skipped lx) = Some (tok, lx1) →
    scan_run lx1 ts lx' →
    scan_run lx (tok :: ts) lx'.

End Lex.

(** ** [perser/parser.h] and [perser/parser.cpp] *)

Module Parse.
Import Engine.

(** How a parser member ends: with a result and the new [pos_], with an
    exception, by reading [tokens_] beyond its end, or, for the model of
    a loop, by running out of fuel. *)
Inductive presult (A : Type) : Type :=
| POk (a : A) (pos : nat)
| PThrow (e : exception)
| PFault
| PNoFuel.
Arguments POk {A} a pos.
Arguments PThrow {A} e.
Arguments PFault {A}.
Arguments PNoFuel {A}.

Definition TokenType_eqb (a b : Lex.TokenType) : bool :=
  match a, b with
  | Lex.EndOfFile, Lex.EndOfFile | Lex.Unknown, Lex.Unknown
  | Lex.Identifier, Lex.Identifier | Lex.Keyword, Lex.Keyword
  | Lex.Number, Lex.Number | Lex.String_, Lex.String_
  | Lex.Symbol, Lex.Symbol | Lex.Operator, Lex.Operator
  | Lex.Comment, Lex.Comment => true
  | _, _ => false
  end.

(** [peek().type == ty && peek().lexeme == lexeme] *)
Definition token_is (t : Lex.Token) (ty : Lex.TokenType) (lexeme : string) : bool :=
  TokenType_eqb (Lex.type t) ty && String.eqb (Lex.lexeme t) lexeme.

Section WithTokens.
(** [std::stoi]: the parsed integer, or the exception it throws. *)
Variable stoi : string → outcome Z.
(** The member [tokens_]; a parser member is a function of [pos_]. *)
Variable tokens_ : list Lex.Token.

Definition P (A : Type) : Type := nat → presult A.

Definition ret {A} (a : A) : P A := λ pos, POk a pos.

Definition bind {A B} (m : P A) (k : A → P B) : P B :=
  λ pos, match m pos with
         | POk a pos' => k a pos'
         | PThrow e => PThrow e
         | PFault => PFault
         | PNoFuel => PNoFuel
         end.

Definition throw {A} (e : exception) : P A := λ _, PThrow e.

Notation "'let*' x ':=' m 'in' k" := (bind m (λ x, k))
  (at level 10, x name, m at level 100, k at level 200, only parsing).
Notation "m ';;' k" := (bind m (λ _, k))
  (at level 100, k at level 200, right associativity, only parsing).

(** [tokens_[pos_]] *)
Definition peek : P Lex.Token :=
  λ pos, match tokens_ !! pos with
         | Some t => POk t pos
         | None => PFault
         end.

(** [tokens_[pos_++]] *)
Definition advance : P Lex.Token :=
  λ pos, match tokens_ !! pos with
         | Some t => POk t (S pos)
         | None => PFault
         end.

Definition match_ (ty : Lex.TokenType) (lexeme : string) : P bool :=
  let* t := peek in
  if negb (TokenType_eqb (Lex.type t) ty) then ret false
  else if negb (String.eqb lexeme EmptyString)
          && negb (String.eqb (Lex.lexeme t) lexeme) then ret false
  else advance ;; ret true.

Definition parse_error (t : Lex.Token) : exception :=
  runtime_error ("Parse error near token '" +:+ Lex.lexeme t +:+
                 "' at line " +:+ StdLib.to_string_int (Lex.line t)).

Definition expect (ty : Lex.TokenType) (lexeme : string) : P unit :=
  let* matched := match_ ty lexeme in
  if matched then ret tt
  else let* t := peek in throw (parse_error t).

(** [std::stoi(advance().lexeme)] *)
Definition advance_stoi : P Z :=
  let* t := advance in
  match stoi (Lex.lexeme t) with
  | Returns i => ret i
  | Throws e => throw e
  end.

Definition unknown_statement : P Statement :=
  let* t := peek in
  throw (runtime_error ("Unknown statement near: " +:+ Lex.lexeme t)).

(** The block [if (peek().type == Identifier) { ... pos_ = tempPos; }]
    for an assignment; [semicolon] tells whether the terminator is
    expected, and [otherwise] is the code behind the block. *)
Definition assignment_or (semicolon : bool) (otherwise : P Statement) : P Statement :=
  λ tempPos,
    (let* t := peek in
     if TokenType_eqb (Lex.type t) Lex.Identifier then
       advance ;;
       let* assigned := match_ Lex.Operator "=" in
       if assigned then
         let* v := advance in
         (if semicolon then expect Lex.Symbol ";" else ret tt) ;;
         ret (AssignmentStmt (Lex.lexeme t) (Lex.lexeme v))
       else λ _, otherwise tempPos
     else otherwise) tempPos.

(** The same block for an increment or a decrement. *)
Definition increment_or (semicolon : bool) (otherwise : P Statement) : P Statement :=
  λ tempPos,
    (let* t := peek in
     if TokenType_eqb (Lex.type t) Lex.Identifier then
       advance ;;
       let* plus := match_ Lex.Operator "++" in
       if plus then
         (if semicolon then expect Lex.Symbol ";" else ret tt) ;;
         ret (IncrementStmt (Lex.lexeme t) true)
       else
         let* minus := match_ Lex.Operator "--" in
         if minus then
           (if semicolon then expect Lex.Symbol ";" else ret tt) ;;
           ret (IncrementStmt (Lex.lexeme t) false)
         else λ _, otherwise tempPos
     else otherwise) tempPos.

Definition parseStatementWithoutSemicolon : P Statement :=
  let* is_let := match_ Lex.Keyword "Let" in
  if is_let then
    let* n := advance in
    expect Lex.Operator "=" ;;
    let* v := advance in
    ret (LetStmt (Lex.lexeme n) (Lex.lexeme v))
  else
  let* is_say := match_ Lex.Keyword "Say" in
  if is_say then
    let* message := advance in
    ret (SayStmt (Lex.lexeme message))
  else
  assignment_or false (increment_or false unknown_statement).

(** The loops that collect a condition: while the token under [pos_] is
    not a stop token, its lexeme is appended, behind a space unless it
    is the first. *)
Fixpoint collect_condition (stop : Lex.Token → bool) (fuel : nat)
    (first : bool) (condition : string) : P string :=
  match fuel with
  | O => λ _, PNoFuel
  | S fuel' =>
      let* t := peek in
      if stop t then ret condition
      else
        let* taken := advance in
        collect_condition stop fuel' false
          ((if first then condition else condition +:+ " ") +:+ Lex.lexeme taken)
  end.

(** [peek().lexeme != "}" && peek().type != EndOfFile] fails *)
Definition stops_at_brace (t : Lex.Token) : bool :=
  String.eqb (Lex.lexeme t) "}" || TokenType_eqb (Lex.type t) Lex.EndOfFile.

(** [!(peek().type == Operator && peek().lexeme == "=>") &&
    peek().type != EndOfFile] fails *)
Definition stops_at_arrow (t : Lex.Token) : bool :=
  token_is t Lex.Operator "=>" || TokenType_eqb (Lex.type t) Lex.EndOfFile.

(** The body loops of NOW and DO. *)
Fixpoint body_loop (fuel : nat) (body : list Statement) : P (list Statement) :=
  match fuel with
  | O => λ _, PNoFuel
  | S fuel' =>
      let* t := peek in
      if negb (TokenType_eqb (Lex.type t) Lex.EndOfFile)
         && negb (String.eqb (Lex.lexeme t) "}")
      then let* stmt := parseStatementWithoutSemicolon in
           body_loop fuel' (body ++ [stmt])
      else ret body
  end.

(** [match(a) && match(b)]: the second is tried only after the first
    succeeded, and what the first consumed stays consumed. *)
Definition match_both (ty1 : Lex.TokenType) (lexeme1 : string)
    (ty2 : Lex.TokenType) (lexeme2 : string) : P bool :=
  let* first := match_ ty1 lexeme1 in
  if first then match_ ty2 lexeme2 else ret false.

Definition parseStatement (fuel : nat) : P Statement :=
  let* is_let := match_ Lex.Keyword "Let" in
  if is_let then
    let* n := advance in
    expect Lex.Operator "=" ;;
    let* v := advance in
    expect Lex.Symbol ";" ;;
    ret (LetStmt (Lex.lexeme n) (Lex.lexeme v))
  else
  let* is_say := match_ Lex.Keyword "Say" in
  if is_say then
    let* message := advance in
    expect Lex.Symbol ";" ;;
    ret (SayStmt (Lex.lexeme message))
  else
  let* is_run := match_ Lex.Keyword "Run" in
  if is_run then
    advance ;;
    expect Lex.Symbol "[" ;;
    let* operationId := advance_stoi in
    expect Lex.Symbol "]" ;;
    expect Lex.Symbol ";" ;;
    ret (RunOperationStmt operationId)
  else
  let* is_if := match_both Lex.Keyword "If" Lex.Operator "=>" in
  if is_if then
    expect Lex.Symbol "{" ;;
    let* condition := collect_condition stops_at_brace fuel true EmptyString in
    expect Lex.Symbol "}" ;;
    let* has_then := match_ Lex.Operator "=>" in
    let* thenBody :=
      (if has_then
       then let* stmt := parseStatementWithoutSemicolon in ret [stmt]
       else ret []) in
    let* has_else := match_both Lex.Keyword "Else" Lex.Operator "=>" in
    let* elseBody :=
      (if has_else
       then let* stmt := parseStatementWithoutSemicolon in ret [stmt]
       else ret []) in
    ret (IfStmt condition thenBody elseBody)
  else
  let* is_while := match_both Lex.Keyword "While" Lex.Operator "=>" in
  if is_while then
    let* condition := collect_condition stops_at_arrow fuel true EmptyString in
    expect Lex.Operator "=>" ;;
    let* stmt := parseStatementWithoutSemicolon in
    ret (WhileStmt condition [stmt])
  else
  let* is_open := match_ Lex.Keyword "open" in
  if is_open then
    let* filename := advance in
    expect Lex.Symbol ";" ;;
    ret (OpenFileStmt (Lex.lexeme filename))
  else
  let* is_read := match_ Lex.Keyword "Read" in
  if is_read then
    let* filename := advance in
    expect Lex.Symbol ";" ;;
    ret (ReadFileStmt (Lex.lexeme filename))
  else
  let* is_write := match_ Lex.Keyword "Write" in
  if is_write then
    let* content := advance in
    expect Lex.Keyword "in_file" ;;
    let* filename := advance in
    expect Lex.Keyword "at_Location" ;;
    let* location := advance in
    expect Lex.Symbol ";" ;;
    ret (WriteFileStmt (Lex.lexeme content) (Lex.lexeme filename) (Lex.lexeme location))
  else
  let* is_now := match_ Lex.Keyword "NOW" in
  if is_now then
    expect Lex.Symbol "{" ;;
    let* body := body_loop fuel [] in
    expect Lex.Symbol "}" ;;
    expect Lex.Symbol ";" ;;
    ret (NowStmt body)
  else
  let* is_do := match_ Lex.Keyword "DO" in
  if is_do then
    let* braces := match_ Lex.Symbol "{" in
    let* body :=
      (if braces
       then let* body := body_loop fuel [] in
            expect Lex.Symbol "}" ;; ret body
       else ret []) in
    expect Lex.Symbol ";" ;;
    ret (DoStmt body)
  else
  let* is_until := match_ Lex.Keyword "Until" in
  if is_until then
    expect Lex.Symbol "{" ;;
    let* condition := collect_condition stops_at_brace fuel true EmptyString in
    expect Lex.Symbol "}" ;;
    expect Lex.Symbol ";" ;;
    ret (UntilStmt condition [])
  else
  assignment_or true (increment_or true unknown_statement).

(** The statement loop of the four section parsers:
    [while (!match(Symbol, "}"))], skipping semicolons. *)
Fixpoint statements_loop (fuel fuel0 : nat) (stmts : list Statement)
    : P (list Statement) :=
  match fuel with
  | O => λ _, PNoFuel
  | S fuel' =>
      let* closed := match_ Lex.Symbol "}" in
      if closed then ret stmts
      else
        let* t := peek in
        if token_is t Lex.Symbol ";"
        then advance ;; statements_loop fuel' fuel0 stmts
        else let* stmt := parseStatement fuel0 in
             statements_loop fuel' fuel0 (stmts ++ [stmt])
  end.

Definition parseData (fuel : nat) : P ASTNode :=
  expect Lex.Keyword "DATA" ;;
  expect Lex.Symbol "[" ;;
  let* n := advance in
  expect Lex.Symbol "[" ;;
  let* id := advance_stoi in
  expect Lex.Symbol "]" ;;
  expect Lex.Symbol "{" ;;
  let* statements := statements_loop fuel fuel [] in
  expect Lex.Symbol ";" ;;
  expect Lex.Symbol "]" ;;
  ret (DataBlock (Lex.lexeme n) id statements).

Definition parseOperation (fuel : nat) : P ASTNode :=
  expect Lex.Keyword "OPERATION" ;;
  expect Lex.Symbol "[" ;;
  advance ;;
  expect Lex.Symbol "(" ;;
  let* n := advance in
  expect Lex.Symbol ")" ;;
  expect Lex.Symbol "[" ;;
  let* id := advance_stoi in
  expect Lex.Symbol "]" ;;
  expect Lex.Symbol "{" ;;
  let* body := statements_loop fuel fuel [] in
  expect Lex.Symbol ";" ;;
  expect Lex.Symbol "]" ;;
  ret (OperationBlock (Lex.lexeme n) id body).

Definition parseFunction (fuel : nat) : P ASTNode :=
  expect Lex.Keyword "FUNCTION" ;;
  expect Lex.Symbol "[" ;;
  advance ;;
  expect Lex.Symbol "(" ;;
  let* n := advance in
  expect Lex.Symbol ")" ;;
  expect Lex.Symbol "[" ;;
  let* id := advance_stoi in
  expect Lex.Symbol "]" ;;
  expect Lex.Symbol "{" ;;
  let* body := statements_loop fuel fuel [] in
  expect Lex.Symbol ";" ;;
  expect Lex.Symbol "]" ;;
  ret (FunctionBlock (Lex.lexeme n) id body).

Definition parseSystemCall (fuel : nat) : P ASTNode :=
  expect Lex.Keyword "SYSTEM_CALL" ;;
  expect Lex.Symbol "[" ;;
  expect Lex.Symbol "{" ;;
  let* body := statements_loop fuel fuel [] in
  expect Lex.Symbol ";" ;;
  expect Lex.Symbol "]" ;;
  ret (SystemCallBlock body).

(** The inner loop of [parseBlock] that skips comments and unknown
    tokens; it ends early when [#END_BLOCK] follows, which [match]
    has then consumed. *)
Fixpoint skip_comments (fuel : nat) : P unit :=
  match fuel with
  | O => λ _, PNoFuel
  | S fuel' =>
      let* t := peek in
      if TokenType_eqb (Lex.type t) Lex.Comment
         || TokenType_eqb (Lex.type t) Lex.Unknown
      then advance ;;
           let* ended := match_ Lex.Keyword "#END_BLOCK" in
           if ended then ret tt else skip_comments fuel'
      else ret tt
  end.

(** The token that ends the section loop: the keyword [#END_BLOCK] or
    [#EXECUTE_BLOCK]. *)
Definition ends_sections (t : Lex.Token) : bool :=
  TokenType_eqb (Lex.type t) Lex.Keyword
  && (String.eqb (Lex.lexeme t) "#END_BLOCK"
      || String.eqb (Lex.lexeme t) "#EXECUTE_BLOCK").

(** The section loop of [parseBlock]. *)
Fixpoint sections_loop (fuel fuel0 : nat) (sections : list ASTNode)
    : P (list ASTNode) :=
  match fuel with
  | O => λ _, PNoFuel
  | S fuel' =>
      let* t := peek in
      if ends_sections t then ret sections
      else
        skip_comments fuel0 ;;
        let* t := peek in
        if String.eqb (Lex.lexeme t) "DATA" then
          let* section := parseData fuel0 in
          sections_loop fuel' fuel0 (sections ++ [section])
        else if String.eqb (Lex.lexeme t) "OPERATION" then
          let* section := parseOperation fuel0 in
          sections_loop fuel' fuel0 (sections ++ [section])
        else if String.eqb (Lex.lexeme t) "FUNCTION" then
          let* section := parseFunction fuel0 in
          sections_loop fuel' fuel0 (sections ++ [section])
        else if String.eqb (Lex.lexeme t) "SYSTEM_CALL" then
          let* section := parseSystemCall fuel0 in
          sections_loop fuel' fuel0 (sections ++ [section])
        else if TokenType_eqb (Lex.type t) Lex.EndOfFile then ret sections
        else throw (runtime_error ("Unknown section: " +:+ Lex.lexeme t))
  end.

(** One output directive, behind its [*]. *)
Definition parse_directive : P string :=
  let* directive := advance in
  let d := Lex.lexeme directive in
  if String.eqb d "store" then
    advance ;; advance ;; advance ;;
    let* filename := advance in
    ret ("*" +:+ d +:+ " program output in " +:+ Lex.lexeme filename)
  else if String.eqb d "show" then
    advance ;; advance ;; advance ;;
    let* t := peek in
    let* target :=
      (if token_is t Lex.Symbol "@"
       then advance ;; let* name := advance in ret ("@" +:+ Lex.lexeme name)
       else let* name := advance in ret (Lex.lexeme name)) in
    ret ("*" +:+ d +:+ " program output in " +:+ target)
  else if String.eqb d "give" then
    advance ;; advance ;; advance ;; advance ;;
    expect Lex.Symbol "(" ;;
    let* targetBlock := advance in
    expect Lex.Symbol ")" ;;
    ret ("*" +:+ d +:+ " program output to BLOCK(" +:+ Lex.lexeme targetBlock +:+ ")")
  else ret ("*" +:+ d).

(** The loop over the output directives. *)
Fixpoint directives_loop (fuel : nat) (outputs : list string) : P (list string) :=
  match fuel with
  | O => λ _, PNoFuel
  | S fuel' =>
      let* t := peek in
      if token_is t Lex.Symbol "*" then
        match_ Lex.Symbol "*" ;;
        let* fullDirective := parse_directive in
        directives_loop fuel' (outputs ++ [fullDirective])
      else ret outputs
  end.

(** [parseBlock] behind the section loop. *)
Definition parseBlock_end (fuel : nat) (blockId : Z) (sections : list ASTNode)
    : P ProgramBlock :=
  let* t := peek in
  (if token_is t Lex.Keyword "#END_BLOCK" then expect Lex.Symbol ";" else ret tt) ;;
  let* executes := match_ Lex.Keyword "#EXECUTE_BLOCK" in
  let* sections :=
    (if executes then
       expect Lex.Symbol "(" ;;
       let* execBlockId := advance_stoi in
       expect Lex.Symbol ")" ;;
       expect Lex.Operator "=>" ;;
       let* outputs := directives_loop fuel [] in
       ret (sections ++ [StatementNode (ExecuteBlockStmt execBlockId outputs)])
     else ret sections) in
  let* t := peek in
  (if token_is t Lex.Symbol ";" then advance ;; ret tt else ret tt) ;;
  expect Lex.Keyword "#END_BLOCK" ;;
  expect Lex.Symbol ";" ;;
  ret (mkProgramBlock blockId sections).

Definition parseBlock (fuel : nat) : P ProgramBlock :=
  expect Lex.Keyword "#START_BLOCK" ;;
  expect Lex.Symbol "(" ;;
  let* blockId := advance_stoi in
  expect Lex.Symbol ")" ;;
  expect Lex.Symbol ";" ;;
  let* sections := sections_loop fuel fuel [] in
  parseBlock_end fuel blockId sections.

(** [Parser(tokens).parseProgram()]: every turn of every loop consumes
    a token or ends the loop, so one more than the number of tokens is
    fuel enough. *)
Definition parseProgram : presult ProgramBlock :=
  parseBlock (S (length tokens_)) 0.

End WithTokens.

End Parse.

(** ** An instance of [std::stod]

    [stod_digits] is [std::stod] restricted to the numerals the lexer
    produces: a non-empty run of decimal digits denotes that integer,
    rounded to the nearest double. On any other text it throws
    [invalid_argument], as [std::stod] does on text that does not start
    with a number. The general results below hold for every [stod]; this
    instance serves to run the model on concrete programs. *)

Definition is_decimal_digit (c : ascii) : bool :=
  (48 <=? N_of_ascii c)%N && (N_of_ascii c <=? 57)%N.

Fixpoint digits_value (s : string) (acc : Z) : option Z :=
  match s with
  | EmptyString => Some acc
  | String c r =>
      if is_decimal_digit c
      then digits_value r (10 * acc + (Z.of_N (N_of_ascii c) - 48))
      else None
  end.

Definition stod_digits (s : string) : outcome float :=
  match s with
  | EmptyString => Throws (invalid_argument "stod")
  | _ => match digits_value s 0 with
         | Some z => Returns (StdLib.double_of_int z)
         | None => Throws (invalid_argument "stod")
         end
  end.

(** ** Sample inputs *)

(** A table with one immutable variable, [pi]. *)
Definition table_with_constant : Symbols.SymbolTable :=
  Symbols.defineVariable "pi" (VFloat 3) false Symbols.SymbolTable_new.

(** A child scope over that table; [Say] is bound in the root scope, to
    a builtin. *)
Definition nested_table : Symbols.SymbolTable :=
  Symbols.enterScope table_with_constant.

(** [Let x = 10; Let y = 5; While => y => y--;] as the body of an
    operation block. *)
Definition countdown_program : Engine.ProgramBlock :=
  Engine.mkProgramBlock 1
    [Engine.OperationBlock "main" 1
       [Engine.LetStmt "x" "10"; Engine.LetStmt "y" "5";
        Engine.WhileStmt "y" [Engine.IncrementStmt "y" false]]].

(** An operation that says "hello", and a system-call block that runs it
    by its id. *)
Definition greet_program : Engine.ProgramBlock :=
  Engine.mkProgramBlock 1
    [Engine.OperationBlock "greet" 7 [Engine.SayStmt "hello"];
     Engine.SystemCallBlock [Engine.RunOperationStmt 7]].

(** ** Vocabulary of the further properties *)

(** [stoi_digits] is [std::stoi] on runs of decimal digits, as
    [stod_digits] is [std::stod]. *)
Definition stoi_digits (s : string) : outcome Z :=
  match s with
  | EmptyString => Throws (invalid_argument "stoi")
  | _ => match digits_value s 0 with
         | Some z => Returns z
         | None => Throws (invalid_argument "stoi")
         end
  end.

(** The tokens of a source text. *)
Definition tokens_of (source : string) : list Lex.Token :=
  match Lex.tokenize source with
  | Lex.Tokens ts => ts
  | _ => []
  end.

(** What [match(ty, lexeme)] tests. *)
Definition matches (t : Lex.Token) (ty : Lex.TokenType) (lexeme : string) : bool :=
  Parse.TokenType_eqb (Lex.type t) ty
  && (String.eqb lexeme EmptyString || String.eqb (Lex.lexeme t) lexeme).

(** The statements directly inside a statement. *)
Definition children (s : Engine.Statement) : list Engine.Statement :=
  match s with
  | Engine.IfStmt _ thenBody elseBody => thenBody ++ elseBody
  | Engine.WhileStmt _ body | Engine.NowStmt body | Engine.DoStmt body
  | Engine.UntilStmt _ body => body
  | _ => []
  end.

(** The names a statement binds: those of the Lets in it, at any depth. *)
Fixpoint let_names (s : Engine.Statement) : list string :=
  match s with
  | Engine.LetStmt n _ => [n]
  | Engine.IfStmt _ thenBody elseBody =>
      flat_map let_names thenBody ++ flat_map let_names elseBody
  | Engine.WhileStmt _ body | Engine.NowStmt body | Engine.DoStmt body =>
      flat_map let_names body
  | _ => []
  end.

(** The value a Let binds for the text [v]. *)
Definition let_value (stod : string → outcome float) (v : string) : Value :=
  match stod v with
  | Returns numVal => VFloat numVal
  | Throws _ => VString v
  end.

(** What a statement cannot touch: the value stack and the enclosing
    scopes. *)
Definition same_frame (m m' : Engine.Machine) : Prop :=
  Engine.stack (Engine.ctx m') = Engine.stack (Engine.ctx m) ∧
  Symbols.parent (Symbols.currentScope (Engine.symbolTable (Engine.ctx m')))
    = Symbols.parent (Symbols.currentScope (Engine.symbolTable (Engine.ctx m))).

Definition output_grows (m m' : Engine.Machine) : Prop :=
  ∃ lines, Engine.cout m' = Engine.cout m ++ lines.

(** Every character of [s] satisfies [p]. *)
Fixpoint String_forall (p : ascii → bool) (s : string) : bool :=
  match s with
  | EmptyString => true
  | String c r => p c && String_forall p r
  end.

(** The longest prefix of [s] whose characters satisfy [p], and what
    follows it. *)
Fixpoint take_while (p : ascii → bool) (s : string) : string :=
  match s with
  | EmptyString => EmptyString
  | String c r => if p c then String c (take_while p r) else EmptyString
  end.

Fixpoint drop_while (p : ascii → bool) (s : string) : string :=
  match s with
  | EmptyString => EmptyString
  | String c r => if p c then drop_while p r else s
  end.

(** The line and the column after reading [text] from a position. *)
Fixpoint line_after (text : string) (line : Z) : Z :=
  match text with
  | EmptyString => line
  | String c r => line_after r (Lex.next_line c line)
  end.

Fixpoint col_after (text : string) (col : Z) : Z :=
  match text with
  | EmptyString => col
  | String c r => col_after r (Lex.next_col c col)
  end.

Definition not_newline (c : ascii) : bool := negb (Ascii.eqb c Lex.newline).

Definition plain_char (c : ascii) : bool :=
  negb (Ascii.eqb c Lex.quote) && negb (Ascii.eqb c Lex.newline).

(** The start of a word: a letter, [_] or [#]. *)
Definition identifier_start (c : ascii) : bool :=
  Lex.isalpha c || Ascii.eqb c "_" || Ascii.eqb c "#".

Definition word_ok (w : string) : bool :=
  match w with
  | String c _ => identifier_start c && String_forall Lex.is_identifier_char w
  | EmptyString => false
  end.

(** What the lexeme of a token of each type looks like. *)
Definition token_ok (t : Lex.Token) : bool :=
  let w := Lex.lexeme t in
  match Lex.type t with
  | Lex.EndOfFile => String.eqb w EmptyString
  | Lex.Number => negb (String.eqb w EmptyString) && String_forall Lex.isdigit w
  | Lex.Identifier => word_ok w && negb (Lex.count_string w Lex.kKeywords)
  | Lex.Keyword => word_ok w && Lex.count_string w Lex.kKeywords
  | Lex.Operator => Lex.count_string w Lex.kOperators
  | Lex.Symbol =>
      match w with
      | String c EmptyString =>
          Lex.count_char c Lex.kSymbols && negb (Lex.count_string w Lex.kOperators)
      | _ => false
      end
  | Lex.String_ => String_forall plain_char w
  | Lex.Unknown => String_forall plain_char w
  | Lex.Comment => String_forall not_newline w
  end.

(** Positions in the source, ordered by line and then by column. *)
Definition pos_lt (p q : Z * Z) : Prop :=
  (p.1 < q.1 ∨ (p.1 = q.1 ∧ p.2 < q.2))%Z.

Definition pos_le (p q : Z * Z) : Prop :=
  (p.1 < q.1 ∨ (p.1 = q.1 ∧ p.2 ≤ q.2))%Z.

Definition token_pos (t : Lex.Token) : Z * Z := (Lex.line t, Lex.column t).
Definition lexer_pos (lx : Lex.Lexer) : Z * Z := (Lex.line_ lx, Lex.col_ lx).

Definition token_before (t u : Lex.Token) : Prop := pos_lt (token_pos t) (token_pos u).

(** The tokens [cs] lie in [tokens_] from [pos] on. *)
Definition tokens_at (tokens_ : list Lex.Token) (pos : nat) (cs : list Lex.Token) : Prop :=
  ∀ i c, cs !! i = Some c → tokens_ !! (pos + i) = Some c.

(** A parser member at [pos] does not run out of fuel and does not move
    [pos_] backwards. *)
Definition forward_at {A : Type} (p : Parse.P A) (pos : nat) : Prop :=
  p pos ≠ Parse.PNoFuel ∧ ∀ a pos', p pos = Parse.POk a pos' → pos ≤ pos'.

(** The same, and where it returns it has consumed a token. *)
Definition consuming_at {A : Type} (p : Parse.P A) (pos : nat) : Prop :=
  p pos ≠ Parse.PNoFuel ∧ ∀ a pos', p pos = Parse.POk a pos' → pos < pos'.

Definition forward {A : Type} (p : Parse.P A) : Prop := ∀ pos, forward_at p pos.
Definition consuming {A : Type} (p : Parse.P A) : Prop := ∀ pos, consuming_at p pos.

(** ** Properties of the value model *)

Example to_string_double_examples :
  StdLib.to_string_double 5 = "5.000000" ∧
  StdLib.to_string_double (-0.5) = "-0.500000" ∧
  StdLib.to_string_double 0.1 = "0.100000" ∧
  StdLib.to_string_double 1234.5678915 = "1234.567892" ∧
  StdLib.to_string_double 0.0000005 = "0.000000" ∧
  StdLib.to_string_double 0.0000015 = "0.000002" ∧
  StdLib.to_string_double 1e21 = "1000000000000000000000.000000".
Proof. vm_compute. repeat split. Qed.

(** The literal [1e-10] of the sources is the double nearest to it. *)
Example literal_1e_10 : 1e-10%float = 0x1.b7cdfd9d7bdbbp-34%float.
Proof. reflexivity. Qed.

Example double_of_int_examples :
  StdLib.double_of_int 7 = 7%float ∧ StdLib.double_of_int (-3) = (-3)%float ∧
  StdLib.double_of_int 0 = 0%float.
Proof. vm_compute. auto. Qed.

Example stod_digits_examples :
  stod_digits "10" = Returns 10%float ∧ stod_digits "5" = Returns 5%float ∧
  stod_digits "abc" = Throws (invalid_argument "stod") ∧
  stod_digits "" = Throws (invalid_argument "stod").
Proof. vm_compute. auto. Qed.

Section ValueFacts.
Variable stod : string → outcome float.

Lemma toFloat_returns (v : Value) : ∃ f, toFloat stod v = Returns f.
Proof.
  destruct v as [s | f | b | h]; simpl; eauto.
  destruct (stod s); simpl; eauto.
Qed.

End ValueFacts.

(** ** Properties of the symbol table *)

Section SymbolFacts.
Import Symbols.

Lemma Scope_induction (P : Scope → Prop) :
  (∀ syms, P (mkScope syms None)) →
  (∀ syms p, P p → P (mkScope syms (Some p))) →
  ∀ sc, P sc.
Proof.
  intros Hroot Hchild. fix IH 1. intros [syms [p |]].
  - apply Hchild, IH.
  - apply Hroot.
Qed.

(** What [lookup] finds is bound in one of the scopes of the chain. *)
Lemma Scope_lookup_chain (n : string) (sc : Scope) (sym : Symbol) :
  Scope_lookup n sc = Some sym →
  ∃ syms, syms ∈ Scope_chain sc ∧ syms !! n = Some sym.
Proof.
  induction sc as [syms | syms p IH] using Scope_induction; simpl;
    destruct (syms !! n) as [s0 |] eqn:E; intros H; try discriminate.
  - inversion H; subst. exists syms. split; [left | exact E].
  - inversion H; subst. exists syms. split; [left | exact E].
  - destruct (IH H) as (syms' & Hin & Hl). exists syms'. split; [right |]; auto.
Qed.

(** After the write, [lookup] finds the same symbol with the new value. *)
Lemma Scope_lookup_assign (n : string) (v : Value) (sc : Scope) (sym : Symbol) :
  Scope_lookup n sc = Some sym →
  Scope_lookup n (Scope_assign n v sc)
    = Some (mkSymbol (name sym) (type sym) v (derived sym)).
Proof.
  induction sc as [syms | syms p IH] using Scope_induction; simpl;
    destruct (syms !! n) as [s0 |] eqn:E; intros H; try discriminate; simpl.
  - inversion H; subst. now rewrite lookup_insert_eq.
  - inversion H; subst. now rewrite lookup_insert_eq.
  - rewrite E. auto.
Qed.

(** Other names are not affected by the write. *)
Lemma Scope_lookup_assign_ne (n k : string) (v : Value) (sc : Scope) :
  n ≠ k → Scope_lookup k (Scope_assign n v sc) = Scope_lookup k sc.
Proof.
  intros Hne.
  induction sc as [syms | syms p IH] using Scope_induction; simpl;
    destruct (syms !! n) as [s0 |] eqn:E; simpl;
    rewrite ?lookup_insert_ne by exact Hne; try reflexivity.
  now rewrite IH.
Qed.

Lemma updateVariable_mutable (st : SymbolTable) (n : string) (v : Value) (sym : Symbol) :
  lookup n st = Some sym →
  type sym = VARIABLE →
  derived sym = VariableSymbol true →
  fst (updateVariable n v st) = Returns true ∧
  lookup n (snd (updateVariable n v st))
    = Some (mkSymbol (name sym) VARIABLE v (VariableSymbol true)).
Proof.
  intros Hl Ht Hd. unfold updateVariable. rewrite Hl, Ht, Hd. simpl.
  split; [reflexivity |].
  unfold lookup in *. simpl. rewrite (Scope_lookup_assign _ _ _ _ Hl).
  now rewrite Ht, Hd.
Qed.

(** Unless [lookup] finds a mutable variable, the call returns [false]
    and the table is the one it was given. *)
Lemma updateVariable_refused (st : SymbolTable) (n : string) (v : Value) :
  (∀ sym, lookup n st = Some sym →
          type sym ≠ VARIABLE ∨ derived sym ≠ VariableSymbol true) →
  updateVariable n v st = (Returns false, st).
Proof.
  intros H. unfold updateVariable.
  destruct (lookup n st) as [sym |]; [| reflexivity].
  destruct (H sym eq_refl) as [Ht | Hd].
  - destruct (type sym); try reflexivity. congruence.
  - destruct (is_VARIABLE (type sym)); [| reflexivity].
    destruct (derived sym) as [| [|] | | | |]; try reflexivity. congruence.
Qed.

End SymbolFacts.

(** C3, as the sources have it. When the name resolves to a variable whose
    mutability flag is false, [updateVariable] returns [false] (it throws
    nothing) and leaves the table, hence the variable's value, as it was. *)
Theorem C3_updateVariable_immutable
    (st : Symbols.SymbolTable) (n : string) (v : Value) (sym : Symbols.Symbol) :
  Symbols.lookup n st = Some sym →
  Symbols.type sym = Symbols.VARIABLE →
  Symbols.derived sym = Symbols.VariableSymbol false →
  Symbols.updateVariable n v st = (Returns false, st) ∧
  Symbols.lookup n (snd (Symbols.updateVariable n v st)) = Some sym.
Proof.
  intros Hl Ht Hd.
  assert (Symbols.updateVariable n v st = (Returns false, st)) as E.
  { apply updateVariable_refused. intros sym' Hl'.
    right. rewrite Hl in Hl'. inversion Hl'; subst. rewrite Hd. discriminate. }
  rewrite E. auto.
Qed.

Lemma C3_updateVariable_immutable_witness :
  Symbols.updateVariable "pi" (VFloat 4) table_with_constant
    = (Returns false, table_with_constant) ∧
  Symbols.lookup "pi"
      (snd (Symbols.updateVariable "pi" (VFloat 4) table_with_constant))
    = Some (Symbols.new_VariableSymbol "pi" (VFloat 3) false).
Proof.
  apply (C3_updateVariable_immutable table_with_constant "pi" (VFloat 4)
           (Symbols.new_VariableSymbol "pi" (VFloat 3) false));
    vm_compute; reflexivity.
Defined.

(** C3, as stated, fails: on the immutable [pi] the call does not throw
    any error; it returns the very outcome it returns for a name that is
    not bound at all. *)
Lemma C3_not_reported_as_error :
  Symbols.lookup "pi" table_with_constant
    = Some (Symbols.new_VariableSymbol "pi" (VFloat 3) false) ∧
  ¬ throws (fst (Symbols.updateVariable "pi" (VFloat 4) table_with_constant)) ∧
  fst (Symbols.updateVariable "pi" (VFloat 4) table_with_constant)
    = fst (Symbols.updateVariable "ghost" (VFloat 4) table_with_constant).
Proof.
  split; [vm_compute; reflexivity |].
  split; [| vm_compute; reflexivity].
  intros [e He]. vm_compute in He. discriminate He.
Qed.

(** C7. When no scope of the chain binds the name to a variable,
    [updateVariable] returns [false] and the table it leaves is the table
    it was given: no scope changed and no binding was added. *)
Theorem C7_updateVariable_unbound
    (st : Symbols.SymbolTable) (n : string) (v : Value) :
  (∀ syms sym, syms ∈ Symbols.Scope_chain (Symbols.currentScope st) →
               syms !! n = Some sym → Symbols.type sym ≠ Symbols.VARIABLE) →
  fst (Symbols.updateVariable n v st) = Returns false ∧
  snd (Symbols.updateVariable n v st) = st ∧
  Symbols.Scope_chain (Symbols.currentScope (snd (Symbols.updateVariable n v st)))
    = Symbols.Scope_chain (Symbols.currentScope st).
Proof.
  intros H.
  assert (Symbols.updateVariable n v st = (Returns false, st)) as E.
  { apply updateVariable_refused. intros sym Hl. left.
    destruct (Scope_lookup_chain _ _ _ Hl) as (syms & Hin & Hs). eauto. }
  rewrite E. auto.
Qed.

Lemma C7_updateVariable_unbound_witness :
  fst (Symbols.updateVariable "Say" (VFloat 1) nested_table) = Returns false ∧
  snd (Symbols.updateVariable "Say" (VFloat 1) nested_table) = nested_table ∧
  Symbols.Scope_chain (Symbols.currentScope
      (snd (Symbols.updateVariable "Say" (VFloat 1) nested_table)))
    = Symbols.Scope_chain (Symbols.currentScope nested_table).
Proof.
  apply (C7_updateVariable_unbound nested_table "Say" (VFloat 1)).
  intros syms sym Hin Hs. vm_compute in Hin.
  apply elem_of_cons in Hin as [-> | Hin].
  - vm_compute in Hs. discriminate Hs.
  - apply list_elem_of_singleton in Hin. subst syms.
    vm_compute in Hs. injection Hs as <-. discriminate.
Defined.

(** C4. [a + b] is the concatenation of the two string forms as soon as
    one operand is a String, and otherwise the Float sum of the two float
    forms; "abc" + 5.0 is the string "abc5.000000" and 2.0 + 3.0 is the
    float 5.0. *)
Theorem C4_operator_plus (stod : string → outcome float) :
  (∀ a b, getType a = STRING ∨ getType b = STRING →
     operator_plus stod a b = Returns (VString (toString a +:+ toString b))) ∧
  (∀ a b, getType a ≠ STRING → getType b ≠ STRING →
     ∃ x y, toFloat stod a = Returns x ∧ toFloat stod b = Returns y ∧
            operator_plus stod a b = Returns (VFloat (x + y))) ∧
  operator_plus stod (VString "abc") (VFloat 5) = Returns (VString "abc5.000000") ∧
  operator_plus stod (VFloat 2) (VFloat 3) = Returns (VFloat 5).
Proof.
  split; [| split; [| split]].
  - intros a b [H | H]; unfold operator_plus.
    + destruct a; try discriminate H. reflexivity.
    + destruct b; try discriminate H. now rewrite orb_true_r.
  - intros a b Ha Hb.
    assert (is_string a = false) as Ea by (destruct a; simpl in *; congruence).
    assert (is_string b = false) as Eb by (destruct b; simpl in *; congruence).
    destruct (toFloat_returns stod a) as [x Hx].
    destruct (toFloat_returns stod b) as [y Hy].
    exists x, y. unfold operator_plus. rewrite Ea, Eb, Hx, Hy. auto.
  - vm_compute. reflexivity.
  - vm_compute. reflexivity.
Qed.

Lemma C4_operator_plus_witness :
  operator_plus stod_digits (VString "3") (VFloat 2) = Returns (VString "32.000000") ∧
  (∃ x y, toFloat stod_digits (VBool true) = Returns x ∧
          toFloat stod_digits (VFloat 2) = Returns y ∧
          operator_plus stod_digits (VBool true) (VFloat 2) = Returns (VFloat (x + y))).
Proof.
  split.
  - apply (proj1 (C4_operator_plus stod_digits) (VString "3") (VFloat 2)).
    left. reflexivity.
  - apply (proj1 (proj2 (C4_operator_plus stod_digits)) (VBool true) (VFloat 2));
      simpl; discriminate.
Defined.



(** C6. A Float value converts to [true] exactly when its magnitude is
    above 1e-10; the double written 0.0000000001 converts to [false] and
    0.001 to [true]. *)
Theorem C6_float_toBool :
  (∀ x : float, toBool (VFloat x) = PrimFloat.ltb 1e-10 (PrimFloat.abs x)) ∧
  toBool (VFloat 0.0000000001) = false ∧
  toBool (VFloat 0.001) = true.
Proof. split; [reflexivity | split; vm_compute; reflexivity]. Qed.

(** C10. [toFloat] returns on every tag: a Handle gives its numeric id as
    a double, a Bool gives 1.0 or 0.0, and a String on which [std::stod]
    throws gives 0.0. *)
Theorem C10_toFloat_total (stod : string → outcome float) :
  (∀ v, ∃ f, toFloat stod v = Returns f) ∧
  (∀ h, toFloat stod (VHandle h) = Returns (StdLib.double_of_int (h_id h))) ∧
  (∀ b, toFloat stod (VBool b) = Returns (if b then 1%float else 0%float)) ∧
  (∀ s e, stod s = Throws e → toFloat stod (VString s) = Returns 0%float).
Proof.
  split; [| split; [| split]].
  - apply toFloat_returns.
  - reflexivity.
  - reflexivity.
  - intros s e H. simpl. now rewrite H.
Qed.

Lemma C10_toFloat_total_witness :
  toFloat stod_digits (VString "abc") = Returns 0%float.
Proof.
  apply (proj2 (proj2 (proj2 (C10_toFloat_total stod_digits)))
           "abc" (invalid_argument "stod")).
  reflexivity.
Defined.

(** ** Properties of the block engine *)

Section EngineFacts.
Import Symbols Engine.
Variable stod : string → outcome float.

(** The While branch of the dispatch is [executeWhileStatement]: the body
    once, in order, whatever the condition. *)
Lemma executeStatement_While (m : Machine) (condition : string) (body : list Statement) :
  executeStatement stod m (WhileStmt condition body)
    = executeWhileStatement stod m condition body.
Proof. reflexivity. Qed.

Lemma executeStatement_Run (m : Machine) (operationId : Z) :
  executeStatement stod m (RunOperationStmt operationId)
    = mkMachine (ctx m)
        (cout m ++ ["Running operation " +:+ StdLib.to_string_int operationId]).
Proof. reflexivity. Qed.

(** No branch of the dispatch handles an increment. *)
Lemma executeStatement_Increment (m : Machine) (variable : string) (isIncrement : bool) :
  executeStatement stod m (IncrementStmt variable isIncrement) = m.
Proof. reflexivity. Qed.

End EngineFacts.

(** C1 on the sources. The run of [Let x = 10; Let y = 5; While => y => y--;]
    ends with [y] still bound to 5.0, its condition still truthy and
    nothing thrown or written: the While statement executed its body once
    without looking at the condition, and the body, an increment, has no
    branch in the statement dispatch. *)
Theorem C1_while_does_not_loop (stod : string → outcome float) :
  stod "10" = Returns 10%float →
  stod "5" = Returns 5%float →
  Symbols.lookup "y"
      (Engine.symbolTable (Engine.ctx (Engine.runProgram stod countdown_program)))
    = Some (Symbols.new_VariableSymbol "y" (VFloat 5) true) ∧
  Engine.conditionResult (Engine.runProgram stod countdown_program) "y" = true ∧
  Engine.cout (Engine.runProgram stod countdown_program) = [].
Proof.
  intros H10 H5.
  unfold Engine.runProgram, countdown_program.
  cbn [Engine.sections fold_left Engine.executeSection Engine.executeStatements
       Engine.executeStatement].
  unfold Engine.executeLetStatement. rewrite H10, H5.
  vm_compute. auto.
Qed.

Lemma C1_while_does_not_loop_witness :
  Symbols.lookup "y"
      (Engine.symbolTable (Engine.ctx (Engine.runProgram stod_digits countdown_program)))
    = Some (Symbols.new_VariableSymbol "y" (VFloat 5) true) ∧
  Engine.conditionResult (Engine.runProgram stod_digits countdown_program) "y" = true ∧
  Engine.cout (Engine.runProgram stod_digits countdown_program) = [].
Proof.
  apply (C1_while_does_not_loop stod_digits); vm_compute; reflexivity.
Defined.

(** C2 on the sources. Executing [Run operation[id]] writes the line
    "Running operation id" and does nothing else; in a program that
    declares operation 7 with body [Say hello] and then runs it, "hello"
    is written once, by the declaration, and the Run statement adds only
    its log line. *)
Theorem C2_run_operation_only_logs (stod : string → outcome float) :
  (∀ m operationId,
     Engine.executeStatement stod m (Engine.RunOperationStmt operationId)
       = Engine.print_line
           ("Running operation " +:+ StdLib.to_string_int operationId) m) ∧
  Engine.cout (Engine.runProgram stod greet_program)
    = ["hello"; "Running operation 7"].
Proof. split; [reflexivity | vm_compute; reflexivity]. Qed.

(** ** Properties of the lexer *)

Section LexFacts.
Import Lex.

Lemma append_nil_l (b : string) : EmptyString +:+ b = b.
Proof. reflexivity. Qed.

Lemma append_cons (x : ascii) (a b : string) :
  String x a +:+ b = String x (a +:+ b).
Proof. reflexivity. Qed.

Lemma append_nil_r (a : string) : a +:+ EmptyString = a.
Proof.
  induction a as [| x a IH]; [reflexivity |]. now rewrite append_cons, IH.
Qed.

Lemma append_snoc (a : string) (c : ascii) (b : string) :
  (a +:+ String c EmptyString) +:+ b = a +:+ String c b.
Proof.
  induction a as [| x a IH]; [reflexivity |]. now rewrite !append_cons, IH.
Qed.

(** The scanner loops return a suffix of the text they were given: the
    proofs follow the recursion, one case per test of the loop. *)
Ltac loop_length s :=
  induction s as [| c r IH]; intros; simpl; [lia |];
  repeat match goal with
         | |- context [if ?b then _ else _] => destruct b; simpl
         end;
  try lia; (etransitivity; [apply IH | lia]).

Lemma skipWhitespace_loop_length (s : string) :
  ∀ l k, String.length (rest (skipWhitespace_loop s l k)) ≤ String.length s.
Proof. loop_length s. Qed.

Lemma scanComment_loop_length (s : string) :
  ∀ l k lex,
    String.length (rest (snd (scanComment_loop s l k lex))) ≤ String.length s.
Proof. loop_length s. Qed.

Lemma scanIdentifierOrKeyword_loop_length (s : string) :
  ∀ l k lex,
    String.length (rest (snd (scanIdentifierOrKeyword_loop s l k lex)))
      ≤ String.length s.
Proof. loop_length s. Qed.

Lemma scanNumber_loop_length (s : string) :
  ∀ l k lex,
    String.length (rest (snd (scanNumber_loop s l k lex))) ≤ String.length s.
Proof. loop_length s. Qed.

Lemma scanString_loop_length (s : string) :
  ∀ l k lex,
    String.length (rest (snd (scanString_loop s l k lex))) ≤ String.length s.
Proof. loop_length s. Qed.

(** Over text without quote and newline the loop of [scanString] only
    collects: the line stays and the column moves by the length. *)
Lemma scanString_loop_plain (text tail : string) (l k : Z) (lex : string) :
  plain_text text = true →
  scanString_loop (text +:+ tail) l k lex
    = scanString_loop tail l (k + Z.of_nat (String.length text)) (lex +:+ text).
Proof.
  revert k lex. induction text as [| c r IH]; intros k lex Hp.
  - rewrite append_nil_l, append_nil_r. f_equal. simpl. lia.
  - simpl in Hp. apply andb_prop in Hp as [Hp Hr]. apply andb_prop in Hp as [Hq Hn].
    apply negb_true_iff in Hq, Hn.
    rewrite append_cons. cbn [scanString_loop]. rewrite Hq, Hn.
    unfold next_line, next_col. rewrite Hn.
    rewrite (IH _ _ Hr), append_snoc. f_equal.
    cbn [String.length]. lia.
Qed.

(** Consuming a matched operator stays inside the text. *)
Lemma advance_over_starts_with (op : string) (lx : Lexer) :
  starts_with op (rest lx) = true →
  ∃ lx', advance_over op lx = Some (tt, lx') ∧
         String.length (rest lx') + String.length op = String.length (rest lx).
Proof.
  revert lx. induction op as [| a op IH]; intros [s l k] H; simpl in *.
  - eexists. split; [reflexivity |]. simpl. lia.
  - destruct s as [| b s]; [discriminate |].
    apply andb_prop in H as [_ H].
    unfold bind, advance. simpl.
    destruct (IH (mkLexer s (next_line b l) (next_col b k)) H) as (lx' & E & Hlen).
    exists lx'. split; [exact E |]. simpl in *. lia.
Qed.

Lemma kOperators_nonempty (op : string) :
  In op kOperators → 0 < String.length op.
Proof.
  intros H. simpl in H.
  repeat (destruct H as [<- | H]; [simpl; lia |]). contradiction.
Qed.

Lemma matchOperator_progress (lx : Lexer) :
  matchOperator lx = Some (None, lx) ∨
  ∃ op lx', matchOperator lx = Some (Some op, lx') ∧
            String.length (rest lx') < String.length (rest lx).
Proof.
  unfold matchOperator.
  destruct (find _ kOperators) as [op |] eqn:E; [right | left; reflexivity].
  apply find_some in E as [Hin Hsw].
  destruct (advance_over_starts_with op lx Hsw) as (lx' & Ha & Hlen).
  exists op, lx'. unfold bind. rewrite Ha. split; [reflexivity |].
  pose proof (kOperators_nonempty op Hin). lia.
Qed.

(** At a lexer that is not at the end, one turn of the loop produces a
    token, reads nothing beyond the text and consumes a character. *)
Lemma scanToken_progress (lx : Lexer) :
  isAtEnd lx = false →
  ∃ tok lx', scanToken lx = Some (tok, lx') ∧
             String.length (rest lx') < String.length (rest lx).
Proof.
  destruct lx as [[| c r] l k]; [discriminate |]. intros _.
  unfold scanToken. cbn [peek peekNext rest line_ col_].
  destruct (Ascii.eqb c "/" && _) eqn:Ecomment.
  { apply andb_prop in Ecomment as [_ E2].
    destruct r as [| c' r']; [discriminate |].
    unfold scanComment, bind, advance. cbn [rest line_ col_].
    pose proof (scanComment_loop_length r' (next_line c' (next_line c l))
                  (next_col c' (next_col c k)) EmptyString) as Hlen.
    destruct (scanComment_loop _ _ _ _) as [lex lx'].
    eexists _, _. split; [reflexivity |]. simpl in *. lia. }
  destruct (Ascii.eqb c quote).
  { unfold scanString, bind, advance. cbn [rest line_ col_].
    pose proof (scanString_loop_length r (next_line c l) (next_col c k) EmptyString) as Hlen.
    destruct (scanString_loop _ _ _ _) as [[ty lex] lx'].
    eexists _, _. split; [reflexivity |]. simpl in *. lia. }
  destruct (isdigit c) eqn:Edigit.
  { unfold scanNumber. cbn [rest line_ col_ scanNumber_loop]. rewrite Edigit.
    pose proof (scanNumber_loop_length r (next_line c l) (next_col c k)
                  (EmptyString +:+ String c EmptyString)) as Hlen.
    destruct (scanNumber_loop _ _ _ _) as [lex lx'].
    eexists _, _. split; [reflexivity |]. simpl in *. lia. }
  destruct (isalpha c || Ascii.eqb c "_" || Ascii.eqb c "#") eqn:Eident.
  { assert (is_identifier_char c = true) as Eic.
    { unfold is_identifier_char, isalnum.
      destruct (isalpha c); [reflexivity |]. simpl in Eident.
      rewrite Edigit. simpl. exact Eident. }
    unfold scanIdentifierOrKeyword.
    cbn [rest line_ col_ scanIdentifierOrKeyword_loop]. rewrite Eic.
    pose proof (scanIdentifierOrKeyword_loop_length r (next_line c l) (next_col c k)
                  (EmptyString +:+ String c EmptyString)) as Hlen.
    destruct (scanIdentifierOrKeyword_loop _ _ _ _) as [lex lx'].
    destruct (count_string lex kKeywords);
      (eexists _, _; split; [reflexivity |]; simpl in *; lia). }
  unfold bind at 1.
  destruct (matchOperator_progress (mkLexer (String c r) l k))
    as [E | (op & lx' & E & Hlen)]; rewrite E.
  - destruct (count_char c kSymbols);
      unfold bind, advance, ret; cbn [rest line_ col_];
      (eexists _, _; split; [reflexivity |]; simpl; lia).
  - unfold ret. eexists _, _. split; [reflexivity | exact Hlen].
Qed.

(** With fuel for every character of the unread text the loop ends, and
    it ends with the token sequence. *)
Lemma tokenize_loop_total (fuel : nat) (lx : Lexer) (tokens : list Token) :
  String.length (rest lx) ≤ fuel →
  ∃ ts, tokenize_loop fuel lx tokens = Tokens ts.
Proof.
  revert lx tokens. induction fuel as [| fuel IH]; intros lx tokens Hlen.
  - destruct lx as [[| c r] l k]; simpl in *; [eauto | lia].
  - cbn [tokenize_loop].
    destruct (isAtEnd lx) eqn:Eend; [eauto |].
    unfold skipWhitespace.
    pose proof (skipWhitespace_loop_length (rest lx) (line_ lx) (col_ lx)) as Hws.
    set (lx1 := skipWhitespace_loop (rest lx) (line_ lx) (col_ lx)) in *.
    destruct (isAtEnd lx1) eqn:Eend1; [eauto |].
    destruct (scanToken_progress lx1 Eend1) as (tok & lx2 & E & Hlt).
    rewrite E. apply IH. lia.
Qed.

End LexFacts.

Example tokenize_unterminated_string :
  Lex.tokenize ("Say " +:+ String Lex.quote "abc")
    = Lex.Tokens [Lex.makeToken Lex.Keyword "Say" 1 1;
                  Lex.makeToken Lex.Unknown "abc" 1 5;
                  Lex.makeToken Lex.EndOfFile EmptyString 1 9].
Proof. vm_compute. reflexivity. Qed.

Example tokenize_unknown_characters :
  Lex.tokenize "a < b"
    = Lex.Tokens [Lex.makeToken Lex.Identifier "a" 1 1;
                  Lex.makeToken Lex.Unknown "<" 1 3;
                  Lex.makeToken Lex.Identifier "b" 1 5;
                  Lex.makeToken Lex.EndOfFile EmptyString 1 6].
Proof. vm_compute. reflexivity. Qed.

Example unrecognized_printable :
  filter (λ c, Lex.unrecognized c) (map ascii_of_nat (seq 32 95))
    = ["!"; "$"; "&"; "'"; ":"; "<"; ">"; "?"; "\"; "^"; "`"; "|"; "~"]%char.
Proof. vm_compute. reflexivity. Qed.

Section LexRunFacts.
Import Lex.

Lemma skipped_idem (lx : Lexer) : skipped (skipped lx) = skipped lx.
Proof.
  destruct lx as [s l k]. unfold skipped. cbn [rest line_ col_].
  revert l k. induction s as [| c r IH]; intros l k; [reflexivity |].
  cbn [skipWhitespace_loop]. destruct (isspace c) eqn:E; [apply IH |].
  cbn [rest line_ col_ skipWhitespace_loop]. now rewrite E.
Qed.

Lemma skipped_at_end (lx : Lexer) : isAtEnd lx = true → skipped lx = lx.
Proof. destruct lx as [[| c r] l k]; [reflexivity | discriminate]. Qed.

Lemma skipped_length (lx : Lexer) :
  String.length (rest (skipped lx)) ≤ String.length (rest lx).
Proof. apply skipWhitespace_loop_length. Qed.

(** A run ends at a state with no white space in front. *)
Lemma scan_run_end_skipped (lx lx' : Lexer) (ts : list Token) :
  scan_run lx ts lx' → skipped lx' = lx'.
Proof. induction 1; [apply skipped_idem | assumption]. Qed.

Lemma scan_run_skipped (lx lx' : Lexer) (ts : list Token) :
  scan_run lx ts lx' → scan_run (skipped lx) ts lx'.
Proof.
  intros H. destruct H as [lx | lx lx1 lx' tok ts Hend Hscan Hrun].
  - rewrite <- (skipped_idem lx) at 2. apply scan_run_nil.
  - apply (scan_run_cons _ lx1); rewrite ?skipped_idem; assumption.
Qed.

Lemma scan_run_snoc (lx lx1 lx2 : Lexer) (pre : list Token) (tok : Token) :
  scan_run lx pre lx1 → isAtEnd lx1 = false → scanToken lx1 = Some (tok, lx2) →
  scan_run lx (pre ++ [tok]) (skipped lx2).
Proof.
  induction 1 as [lx | lx lx1' lx1 t ts Hend Hscan Hrun IH]; intros He Hs.
  - apply (scan_run_cons _ lx2); [assumption | assumption | apply scan_run_nil].
  - cbn [app]. apply (scan_run_cons _ lx1'); auto.
Qed.

(** The run of the loop is determined: a complete run from a state goes
    through every state that a run from there arrives at. *)
Lemma scan_run_split (lx lx1 lxe : Lexer) (pre body : list Token) :
  scan_run lx pre lx1 → scan_run lx body lxe → isAtEnd lxe = true →
  ∃ post, body = pre ++ post ∧ scan_run lx1 post lxe.
Proof.
  intros Hpre. revert body.
  induction Hpre as [lx | lx lx1' lx1 t ts Hend Hscan Hrun IH]; intros body Hbody He.
  - exists body. split; [reflexivity | now apply scan_run_skipped].
  - inversion Hbody as [lx0 | lx0 lx2 lx0' t' ts' Hend' Hscan' Hrun']; subst.
    + congruence.
    + rewrite Hscan in Hscan'. injection Hscan' as <- <-.
      destruct (IH _ Hrun' He) as (post & -> & Hpost). exists post. auto.
Qed.

(** With fuel for every character the loop of [tokenize] returns the
    tokens of a complete run and the end-of-file token behind them. *)
Lemma tokenize_loop_run (fuel : nat) :
  ∀ lx acc,
    String.length (rest lx) ≤ fuel →
    ∃ body lxe,
      scan_run lx body lxe ∧ isAtEnd lxe = true ∧
      tokenize_loop fuel lx acc
        = Tokens (acc ++ body ++ [makeToken EndOfFile EmptyString (line_ lxe) (col_ lxe)]).
Proof.
  assert (∀ fuel lx acc, isAtEnd lx = true →
            ∃ body lxe,
              scan_run lx body lxe ∧ isAtEnd lxe = true ∧
              tokenize_loop fuel lx acc
                = Tokens (acc ++ body ++
                            [makeToken EndOfFile EmptyString (line_ lxe) (col_ lxe)]))
    as Hend.
  { intros f lx acc He. exists [], lx. split; [| split; [exact He |]].
    - rewrite <- (skipped_at_end lx He) at 2. apply scan_run_nil.
    - destruct f; cbn [tokenize_loop]; now rewrite He. }
  induction fuel as [| fuel IH]; intros lx acc Hlen.
  - apply Hend. destruct lx as [[| c r] l k]; [reflexivity | simpl in Hlen; lia].
  - destruct (isAtEnd lx) eqn:Eend; [now apply Hend |].
    cbn [tokenize_loop]. rewrite Eend.
    change (skipWhitespace lx) with (Some (tt, skipped lx)). cbv beta iota.
    destruct (isAtEnd (skipped lx)) eqn:E1.
    + exists [], (skipped lx). split; [apply scan_run_nil | split; [exact E1 | reflexivity]].
    + destruct (scanToken_progress (skipped lx) E1) as (tok & lx2 & E & Hlt).
      rewrite E. pose proof (skipped_length lx) as Hsk.
      destruct (IH lx2 (acc ++ [tok])) as (body & lxe & Hrun & He & ->); [lia |].
      exists (tok :: body), lxe. split; [| split; [exact He |]].
      * apply (scan_run_cons _ lx2); assumption.
      * now rewrite <- app_assoc.
Qed.

Lemma tokenize_run (source : string) :
  ∃ body lxe,
    scan_run (Lexer_new source) body lxe ∧ isAtEnd lxe = true ∧
    tokenize source
      = Tokens (body ++ [makeToken EndOfFile EmptyString (line_ lxe) (col_ lxe)]).
Proof.
  destruct (tokenize_loop_run (String.length source) (Lexer_new source) [])
    as (body & lxe & Hrun & He & Ht); [simpl; lia |].
  exists body, lxe. auto.
Qed.

(** Where a run on [source] stands before a token, [tokenize] returns
    that token at that place of its sequence, and the run goes on behind
    it up to the end of the text. *)
Lemma tokenize_next (source : string) (pre : list Token) (lx1 lx2 : Lexer) (tok : Token) :
  scan_run (Lexer_new source) pre lx1 →
  scanToken lx1 = Some (tok, lx2) → isAtEnd lx1 = false →
  ∃ ts lxe,
    tokenize source
      = Tokens (pre ++ tok :: ts ++
                  [makeToken EndOfFile EmptyString (line_ lxe) (col_ lxe)]) ∧
    scan_run lx2 ts lxe ∧ isAtEnd lxe = true ∧
    scan_run (Lexer_new source) (pre ++ [tok]) (skipped lx2).
Proof.
  intros Hpre Hscan Hne.
  destruct (tokenize_run source) as (body & lxe & Hrun & He & Ht).
  destruct (scan_run_split _ _ _ _ _ Hpre Hrun He) as (post & -> & Hpost).
  pose proof (scan_run_end_skipped _ _ _ Hpre) as Hsk.
  inversion Hpost as [lx0 | lx0 lx2' lx0' t' ts' Hend' Hscan' Hrun']; subst.
  - rewrite Hsk in He. congruence.
  - rewrite Hsk, Hscan in Hscan'. injection Hscan' as <- <-.
    exists ts', lxe. split; [| split; [exact Hrun' | split; [exact He |]]].
    + rewrite Ht, <- app_assoc. reflexivity.
    + now apply (scan_run_snoc _ lx1).
Qed.

(** The last branch of the loop, and [scanString] where the literal is
    cut short. *)
Lemma scanToken_unrecognized (c : ascii) (r : string) (l k : Z) :
  unrecognized c = true →
  scanToken (mkLexer (String c r) l k)
    = Some (makeToken Unknown (String c EmptyString) l k, mkLexer r l (k + 1)).
Proof.
  intros H.
  destruct c as [b0 b1 b2 b3 b4 b5 b6 b7].
  destruct b0, b1, b2, b3, b4, b5, b6, b7;
    vm_compute in H; try discriminate H; vm_compute; reflexivity.
Qed.

Lemma scanToken_unterminated_end (text : string) (l k : Z) :
  plain_text text = true →
  scanToken (mkLexer (String quote text) l k)
    = Some (makeToken Unknown text l k,
            mkLexer EmptyString l (k + 1 + Z.of_nat (String.length text))).
Proof.
  intros Hp.
  unfold scanToken, scanString, bind, advance.
  cbn [peek peekNext rest line_ col_].
  change (Ascii.eqb quote "/") with false.
  change (Ascii.eqb quote quote) with true.
  cbn [andb].
  change (next_line quote l) with l.
  change (next_col quote k) with (k + 1)%Z.
  rewrite <- (append_nil_r text) at 1.
  rewrite scanString_loop_plain by exact Hp.
  rewrite append_nil_l. reflexivity.
Qed.

Lemma scanToken_unterminated_newline (text tail : string) (l k : Z) :
  plain_text text = true →
  scanToken (mkLexer (String quote (text +:+ String newline tail)) l k)
    = Some (makeToken Unknown text l k, mkLexer tail (l + 1) 1).
Proof.
  intros Hp.
  unfold scanToken, scanString, bind, advance.
  cbn [peek peekNext rest line_ col_].
  change (Ascii.eqb quote "/") with false.
  change (Ascii.eqb quote quote) with true.
  cbn [andb].
  change (next_line quote l) with l.
  change (next_col quote k) with (k + 1)%Z.
  rewrite scanString_loop_plain by exact Hp.
  rewrite append_nil_l. reflexivity.
Qed.

End LexRunFacts.

(** C8. [tokenize] ends on every source text, never reading beyond the
    text: it returns the tokens of the complete run of its loop from the
    start of the text, with the end-of-file token behind them. Wherever
    that run comes to stand before a character that starts no other kind
    of token, the sequence [tokenize] returns has at that place an
    [Unknown] token of that one character, and the run goes on behind
    the character. Wherever it comes to stand before a string literal
    that the end of the text cuts short, the sequence ends with an
    [Unknown] token holding the text behind the quote and the
    end-of-file token; where a newline cuts the literal short, the
    [Unknown] token holds the text up to the newline and the run goes on
    at the start of the next line. *)
Theorem C8_tokenize_total :
  (∀ source, ∃ body lxe,
     Lex.tokenize source
       = Lex.Tokens (body ++ [Lex.makeToken Lex.EndOfFile EmptyString
                                (Lex.line_ lxe) (Lex.col_ lxe)]) ∧
     Lex.scan_run (Lex.Lexer_new source) body lxe ∧ Lex.isAtEnd lxe = true) ∧
  (∀ source pre c r l k,
     Lex.scan_run (Lex.Lexer_new source) pre (Lex.mkLexer (String c r) l k) →
     Lex.unrecognized c = true →
     ∃ post,
       Lex.tokenize source
         = Lex.Tokens (pre ++ Lex.makeToken Lex.Unknown (String c EmptyString) l k :: post) ∧
       Lex.scan_run (Lex.Lexer_new source)
         (pre ++ [Lex.makeToken Lex.Unknown (String c EmptyString) l k])
         (Lex.skipped (Lex.mkLexer r l (k + 1)))) ∧
  (∀ source pre text l k,
     Lex.scan_run (Lex.Lexer_new source) pre (Lex.mkLexer (String Lex.quote text) l k) →
     Lex.plain_text text = true →
     Lex.tokenize source
       = Lex.Tokens (pre ++ [Lex.makeToken Lex.Unknown text l k;
                             Lex.makeToken Lex.EndOfFile EmptyString l
                               (k + 1 + Z.of_nat (String.length text))])) ∧
  (∀ source pre text tail l k,
     Lex.scan_run (Lex.Lexer_new source) pre
       (Lex.mkLexer (String Lex.quote (text +:+ String Lex.newline tail)) l k) →
     Lex.plain_text text = true →
     ∃ post,
       Lex.tokenize source = Lex.Tokens (pre ++ Lex.makeToken Lex.Unknown text l k :: post) ∧
       Lex.scan_run (Lex.Lexer_new source) (pre ++ [Lex.makeToken Lex.Unknown text l k])
         (Lex.skipped (Lex.mkLexer tail (l + 1) 1))).
Proof.
  split; [| split; [| split]].
  - intros source.
    destruct (tokenize_run source) as (body & lxe & Hrun & He & Ht). eauto.
  - intros source pre c r l k Hrun Hc.
    destruct (tokenize_next source pre _ _ _ Hrun (scanToken_unrecognized c r l k Hc) eq_refl)
      as (ts & lxe & Ht & _ & _ & Hnext).
    eauto.
  - intros source pre text l k Hrun Hp.
    destruct (tokenize_next source pre _ _ _ Hrun (scanToken_unterminated_end text l k Hp)
                eq_refl) as (ts & lxe & Ht & Hts & _ & _).
    inversion Hts as [lx0 | lx0 lx2 lx0' t' ts' Hend' Hscan' Hrun']; subst.
    + exact Ht.
    + discriminate Hend'.
  - intros source pre text tail l k Hrun Hp.
    destruct (tokenize_next source pre _ _ _ Hrun
                (scanToken_unterminated_newline text tail l k Hp) eq_refl)
      as (ts & lxe & Ht & _ & _ & Hnext).
    eauto.
Qed.

Lemma C8_tokenize_total_witness :
  (∃ post,
     Lex.tokenize "a $x"
       = Lex.Tokens ([Lex.makeToken Lex.Identifier "a" 1 1]
                     ++ Lex.makeToken Lex.Unknown "$" 1 3 :: post) ∧
     Lex.scan_run (Lex.Lexer_new "a $x")
       ([Lex.makeToken Lex.Identifier "a" 1 1] ++ [Lex.makeToken Lex.Unknown "$" 1 3])
       (Lex.skipped (Lex.mkLexer "x" 1 (3 + 1)))) ∧
  Lex.tokenize ("Say " +:+ String Lex.quote "abc")
    = Lex.Tokens ([Lex.makeToken Lex.Keyword "Say" 1 1]
                  ++ [Lex.makeToken Lex.Unknown "abc" 1 5;
                      Lex.makeToken Lex.EndOfFile EmptyString 1
                        (5 + 1 + Z.of_nat (String.length "abc"))]) ∧
  (∃ post,
     Lex.tokenize (String Lex.quote ("abc" +:+ String Lex.newline "Say"))
       = Lex.Tokens ([] ++ Lex.makeToken Lex.Unknown "abc" 1 1 :: post) ∧
     Lex.scan_run (Lex.Lexer_new (String Lex.quote ("abc" +:+ String Lex.newline "Say")))
       ([] ++ [Lex.makeToken Lex.Unknown "abc" 1 1])
       (Lex.skipped (Lex.mkLexer "Say" (1 + 1) 1))).
Proof.
  split; [| split].
  - apply (proj1 (proj2 C8_tokenize_total) "a $x"
             [Lex.makeToken Lex.Identifier "a" 1 1] "$"%char "x" 1%Z 3%Z);
      [| reflexivity].
    apply (Lex.scan_run_cons _ (Lex.mkLexer " $x" 1 2)); [reflexivity | reflexivity |].
    exact (Lex.scan_run_nil (Lex.mkLexer " $x" 1 2)).
  - apply (proj1 (proj2 (proj2 C8_tokenize_total)) ("Say " +:+ String Lex.quote "abc")
             [Lex.makeToken Lex.Keyword "Say" 1 1] "abc" 1%Z 5%Z);
      [| reflexivity].
    apply (Lex.scan_run_cons _ (Lex.mkLexer (" " +:+ String Lex.quote "abc") 1 4));
      [reflexivity | reflexivity |].
    exact (Lex.scan_run_nil (Lex.mkLexer (" " +:+ String Lex.quote "abc") 1 4)).
  - apply (proj2 (proj2 (proj2 C8_tokenize_total))
             (String Lex.quote ("abc" +:+ String Lex.newline "Say"))
             [] "abc" "Say" 1%Z 1%Z);
      [| reflexivity].
    exact (Lex.scan_run_nil
             (Lex.Lexer_new (String Lex.quote ("abc" +:+ String Lex.newline "Say")))).
Defined.

(** C9 on the sources. Each of [( ) { } [ ] ; , @ .] at the start of a
    token becomes a [Symbol] token of that character, but [*] and a [/]
    that does not start a comment become [Operator] tokens: the operator
    branch of [tokenize] comes before the symbol branch and [kOperators]
    holds both characters. *)
Theorem C9_star_and_slash_are_operators :
  (∀ c r l k, In c ["("; ")"; "{"; "}"; "["; "]"; ";"; ","; "@"; "."]%char →
     Lex.scanToken (Lex.mkLexer (String c r) l k)
       = Some (Lex.makeToken Lex.Symbol (String c EmptyString) l k,
               Lex.mkLexer r l (k + 1))) ∧
  (∀ r l k,
     Lex.scanToken (Lex.mkLexer (String "*" r) l k)
       = Some (Lex.makeToken Lex.Operator "*" l k, Lex.mkLexer r l (k + 1))) ∧
  (∀ r l k, Lex.peekNext (Lex.mkLexer (String "/" r) l k) ≠ "/"%char →
     Lex.scanToken (Lex.mkLexer (String "/" r) l k)
       = Some (Lex.makeToken Lex.Operator "/" l k, Lex.mkLexer r l (k + 1))) ∧
  Lex.tokenize "*show"
    = Lex.Tokens [Lex.makeToken Lex.Operator "*" 1 1;
                  Lex.makeToken Lex.Identifier "show" 1 2;
                  Lex.makeToken Lex.EndOfFile EmptyString 1 6].
Proof.
  split; [| split; [| split]].
  - intros c r l k H. simpl in H.
    repeat (destruct H as [<- | H]; [vm_compute; reflexivity |]). contradiction.
  - intros r l k. vm_compute. reflexivity.
  - intros [| c' r'] l k H; [vm_compute; reflexivity |].
    cbn [Lex.peekNext Lex.rest] in H.
    assert (Ascii.eqb c' "/" = false) as E by (now apply Ascii.eqb_neq).
    unfold Lex.scanToken. cbn [Lex.peek Lex.peekNext Lex.rest Lex.line_ Lex.col_].
    rewrite E. vm_compute. reflexivity.
  - vm_compute. reflexivity.
Qed.

Lemma C9_star_and_slash_are_operators_witness :
  Lex.scanToken (Lex.mkLexer "(x)" 1 1)
    = Some (Lex.makeToken Lex.Symbol "(" 1 1, Lex.mkLexer "x)" 1 2) ∧
  Lex.scanToken (Lex.mkLexer "/2" 1 1)
    = Some (Lex.makeToken Lex.Operator "/" 1 1, Lex.mkLexer "2" 1 2).
Proof.
  split.
  - apply (proj1 C9_star_and_slash_are_operators "("%char "x)" 1%Z 1%Z).
    simpl. left. reflexivity.
  - apply (proj1 (proj2 (proj2 C9_star_and_slash_are_operators)) "2" 1%Z 1%Z).
    simpl. discriminate.
Defined.

(** ** Further properties of the symbol table *)

Section MoreSymbolFacts.
Import Symbols.

Lemma lookup_define_eq (sym : Symbol) (st : SymbolTable) :
  lookup (name sym) (define sym st) = Some sym.
Proof.
  destruct st as [[syms par]]. unfold lookup, define, Scope_define. simpl.
  now rewrite lookup_insert_eq.
Qed.

Lemma lookup_define_ne (sym : Symbol) (st : SymbolTable) (k : string) :
  k ≠ name sym → lookup k (define sym st) = lookup k st.
Proof.
  intros E. destruct st as [[syms par]]. unfold lookup, define, Scope_define. simpl.
  rewrite lookup_insert_ne by congruence. reflexivity.
Qed.

(** Defining a symbol makes [lookup] find it under its name, whatever
    was bound before, and changes the lookup of no other name. *)
Theorem lookup_define (sym : Symbol) (st : SymbolTable) (k : string) :
  lookup k (define sym st) = if decide (k = name sym) then Some sym else lookup k st.
Proof.
  case_decide as E.
  - subst k. apply lookup_define_eq.
  - now apply lookup_define_ne.
Qed.

Lemma exitScope_enterScope (st : SymbolTable) : exitScope (enterScope st) = st.
Proof. now destruct st. Qed.

Lemma parent_define (sym : Symbol) (st : SymbolTable) :
  parent (currentScope (define sym st)) = parent (currentScope st).
Proof. now destruct st as [[syms par]]. Qed.

(** A table whose current scope has the current scope of [st] as parent
    exits to [st]. *)
Lemma exitScope_child (st' st : SymbolTable) :
  parent (currentScope st') = Some (currentScope st) → exitScope st' = st.
Proof. intros H. unfold exitScope. rewrite H. now destruct st. Qed.

(** A fresh scope hides nothing, and whatever is defined in it is gone
    when it is exited: the table is again the one the scope was entered
    from. *)
Theorem scope_enter_define_exit (st : SymbolTable) (syms : list Symbol) (k : string) :
  lookup k (enterScope st) = lookup k st ∧
  exitScope (fold_right define (enterScope st) syms) = st.
Proof.
  split.
  - destruct st as [[m par]]. unfold lookup, enterScope. simpl.
    now rewrite lookup_empty.
  - apply exitScope_child.
    induction syms as [| sym syms IH]; cbn [fold_right]; [reflexivity |].
    now rewrite parent_define.
Qed.

(** [updateVariable] returns [true] exactly when [lookup] finds a symbol
    of type VARIABLE that is a mutable [VariableSymbol]. *)
Theorem updateVariable_true_iff (st : SymbolTable) (n : string) (v : Value) :
  fst (updateVariable n v st) = Returns true ↔
  ∃ sym, lookup n st = Some sym ∧ type sym = VARIABLE ∧
         derived sym = VariableSymbol true.
Proof.
  unfold updateVariable. split.
  - destruct (lookup n st) as [sym |]; [| discriminate].
    destruct (type sym) eqn:Et; simpl; try discriminate.
    destruct (derived sym) as [| [|] | | | |] eqn:Ed; simpl; try discriminate.
    intros _. exists sym. rewrite Et. auto.
  - intros (sym & -> & -> & ->). reflexivity.
Qed.

Lemma updateVariable_true_iff_witness :
  fst (updateVariable "x" (VFloat 2)
         (defineVariable "x" (VFloat 1) true SymbolTable_new)) = Returns true.
Proof.
  apply (updateVariable_true_iff
           (defineVariable "x" (VFloat 1) true SymbolTable_new) "x" (VFloat 2)).
  exists (new_VariableSymbol "x" (VFloat 1) true). vm_compute. auto.
Defined.

(** A successful update changes the value under that name and nothing
    else: the symbol keeps its name and stays a mutable variable, and
    every other name resolves as before. *)
Theorem updateVariable_effect (st : SymbolTable) (n : string) (v : Value) (sym : Symbol) :
  lookup n st = Some sym →
  type sym = VARIABLE →
  derived sym = VariableSymbol true →
  lookup n (snd (updateVariable n v st))
    = Some (mkSymbol (name sym) VARIABLE v (VariableSymbol true)) ∧
  ∀ k, k ≠ n → lookup k (snd (updateVariable n v st)) = lookup k st.
Proof.
  intros Hl Ht Hd. split.
  - exact (proj2 (updateVariable_mutable st n v sym Hl Ht Hd)).
  - intros k Hk. unfold updateVariable. rewrite Hl, Ht, Hd. simpl.
    unfold lookup. simpl. apply Scope_lookup_assign_ne. congruence.
Qed.

Lemma updateVariable_effect_witness :
  lookup "x" (snd (updateVariable "x" (VFloat 2)
                     (defineVariable "x" (VFloat 1) true SymbolTable_new)))
    = Some (mkSymbol "x" VARIABLE (VFloat 2) (VariableSymbol true)) ∧
  ∀ k, k ≠ "x" →
    lookup k (snd (updateVariable "x" (VFloat 2)
                     (defineVariable "x" (VFloat 1) true SymbolTable_new)))
      = lookup k (defineVariable "x" (VFloat 1) true SymbolTable_new).
Proof.
  apply (updateVariable_effect
           (defineVariable "x" (VFloat 1) true SymbolTable_new) "x" (VFloat 2)
           (new_VariableSymbol "x" (VFloat 1) true)); vm_compute; reflexivity.
Defined.

Lemma Scope_chain_assign_dom (n : string) (v : Value) (sc : Scope) :
  dom <$> Scope_chain (Scope_assign n v sc) = dom <$> Scope_chain sc.
Proof.
  induction sc as [syms | syms p IH] using Scope_induction;
    cbn [Scope_assign]; destruct (syms !! n) as [s0 |] eqn:E;
    cbn [Scope_chain]; rewrite ?fmap_cons.
  - f_equal. apply dom_insert_lookup_L. now rewrite E.
  - reflexivity.
  - f_equal. apply dom_insert_lookup_L. now rewrite E.
  - now rewrite IH.
Qed.

(** [updateVariable] never adds or removes a binding: whatever its
    result, every scope of the chain binds the same names afterwards. *)
Theorem updateVariable_keeps_names (st : SymbolTable) (n : string) (v : Value) :
  dom <$> Scope_chain (currentScope (snd (updateVariable n v st)))
    = dom <$> Scope_chain (currentScope st).
Proof.
  unfold updateVariable.
  destruct (lookup n st) as [sym |]; [| reflexivity].
  destruct (is_VARIABLE (type sym)); [| reflexivity].
  destruct (derived sym) as [| [|] | | | |]; try reflexivity.
  simpl. apply Scope_chain_assign_dom.
Qed.

Lemma lookup_enterScope (st : SymbolTable) (k : string) :
  lookup k (enterScope st) = lookup k st.
Proof.
  destruct st as [[m par]]. unfold lookup, enterScope. simpl.
  now rewrite lookup_empty.
Qed.

Lemma Scope_assign_fresh (n : string) (v : Value) (sc : Scope) :
  Scope_assign n v (mkScope ∅ (Some sc)) = mkScope ∅ (Some (Scope_assign n v sc)).
Proof. cbn [Scope_assign]. now rewrite lookup_empty. Qed.

(** An update made inside a child scope reaches the variable of the
    enclosing scope and stays when the child scope is exited. *)
Theorem updateVariable_through_child (st : SymbolTable) (n : string) (v : Value) :
  exitScope (snd (updateVariable n v (enterScope st))) = snd (updateVariable n v st).
Proof.
  unfold updateVariable. rewrite lookup_enterScope.
  destruct (lookup n st) as [sym |]; [| apply exitScope_enterScope].
  destruct (is_VARIABLE (type sym)); [| apply exitScope_enterScope].
  destruct (derived sym) as [| [|] | | | |]; try apply exitScope_enterScope.
  cbn [snd]. unfold enterScope. cbn [currentScope].
  rewrite Scope_assign_fresh. reflexivity.
Qed.

(** A variable defined in a child scope takes the update in place of a
    variable of the same name outside: after the exit the table is the
    one the scope was entered from. *)
Theorem updateVariable_shadowed (st : SymbolTable) (n : string) (v0 v : Value) (mut : bool) :
  exitScope (snd (updateVariable n v (defineVariable n v0 mut (enterScope st)))) = st.
Proof.
  apply exitScope_child.
  set (st1 := defineVariable n v0 mut (enterScope st)).
  assert (symbols (currentScope st1) !! n = Some (new_VariableSymbol n v0 mut)) as Hloc
    by (destruct st as [[? ?]]; apply lookup_insert_eq).
  assert (parent (currentScope st1) = Some (currentScope st)) as Hpar
    by (now destruct st as [[? ?]]).
  unfold updateVariable.
  destruct (lookup n st1) as [sym |]; [| exact Hpar].
  destruct (is_VARIABLE (type sym)); [| exact Hpar].
  destruct (derived sym) as [| [|] | | | |]; try exact Hpar.
  cbn [snd currentScope].
  destruct (currentScope st1) as [m p]. cbn [symbols parent Scope_assign] in *.
  rewrite Hloc. exact Hpar.
Qed.

(** A function, operation or block defined under a name hides a variable
    of that name from [updateVariable], which then returns [false] and
    changes nothing. *)
Theorem updateVariable_hidden_by_declaration
    (st : SymbolTable) (n : string) (v : Value) (params : list string) (id : Z) :
  updateVariable n v (defineFunction n params st)
    = (Returns false, defineFunction n params st) ∧
  updateVariable n v (defineOperation n params st)
    = (Returns false, defineOperation n params st) ∧
  updateVariable n v (defineBlock n id st)
    = (Returns false, defineBlock n id st).
Proof.
  repeat split; apply updateVariable_refused; intros sym;
    unfold defineFunction, defineOperation, defineBlock.
  - rewrite (lookup_define_eq (new_FunctionSymbol n params)).
    intros [= <-]; left; discriminate.
  - rewrite (lookup_define_eq (new_OperationSymbol n params)).
    intros [= <-]; left; discriminate.
  - rewrite (lookup_define_eq (new_BlockSymbol n id)).
    intros [= <-]; left; discriminate.
Qed.

End MoreSymbolFacts.

(** ** Further properties of the value model *)

Section MoreValueFacts.
Variable stod : string → outcome float.

Lemma append_not_empty_l (a b : string) : a ≠ EmptyString → a +:+ b ≠ EmptyString.
Proof. destruct a; [congruence | discriminate]. Qed.

Lemma append_not_empty_r (a b : string) : b ≠ EmptyString → a +:+ b ≠ EmptyString.
Proof. destruct a; [now rewrite append_nil_l | discriminate]. Qed.

Lemma to_string_double_not_empty (f : float) :
  StdLib.to_string_double f ≠ EmptyString.
Proof.
  unfold StdLib.to_string_double.
  destruct (Prim2SF f) as [s | s | | s m e];
    try (apply append_not_empty_r; discriminate); try discriminate.
  do 2 apply append_not_empty_r. apply append_not_empty_l. discriminate.
Qed.

(** The text of a value that is not a String is never empty, so it
    converts to [true]: through its text, even [false], 0.0 and a null
    handle become truthy. *)
Theorem text_of_non_string_is_truthy (v : Value) :
  getType v ≠ STRING → toBool (VString (toString v)) = true.
Proof.
  intros H. simpl. apply negb_true_iff, String.eqb_neq.
  destruct v as [s | f | b | h]; simpl in *; [congruence | | |].
  - apply to_string_double_not_empty.
  - destruct b; discriminate.
  - discriminate.
Qed.

Lemma text_of_non_string_is_truthy_witness :
  toBool (VString (toString (VBool false))) = true.
Proof. apply (text_of_non_string_is_truthy (VBool false)). discriminate. Defined.

(** [convertTo] throws only when the target is HANDLE and the value is
    not a handle; in every other case it returns a value of the target
    type, the value itself when it already has that type, and converting
    the result again changes nothing. *)
Theorem convertTo_result (v : Value) (t : ValueType) :
  (t = HANDLE ∧ getType v ≠ HANDLE ∧
   convertTo stod v t = Throws (runtime_error "Cannot convert to handle type")) ∨
  (∃ w, convertTo stod v t = Returns w ∧ getType w = t ∧
        (getType v = t → w = v) ∧ convertTo stod w t = Returns w).
Proof.
  assert (∀ w, getType w = t → convertTo stod w t = Returns w) as Hid.
  { intros w <-. unfold convertTo. now destruct w. }
  destruct (ValueType_eqb (getType v) t) eqn:E.
  - right. exists v. unfold convertTo. rewrite E.
    assert (getType v = t) as Ht by (destruct v, t; simpl in *; congruence).
    auto.
  - destruct t.
    + right. exists (VString (toString v)). unfold convertTo. rewrite E.
      repeat split; auto. intros Hv. destruct v; simpl in *; congruence.
    + right. destruct (toFloat_returns stod v) as [f Hf].
      exists (VFloat f). unfold convertTo at 1. rewrite E, Hf.
      repeat split; auto. intros Hv. destruct v; simpl in *; congruence.
    + right. exists (VBool (toBool v)). unfold convertTo. rewrite E.
      repeat split; auto. intros Hv. destruct v; simpl in *; congruence.
    + left. unfold convertTo. rewrite E.
      repeat split; auto. intros Hv. destruct v; simpl in *; congruence.
Qed.

(** No arithmetic or comparison operator throws, except [/], which
    throws nothing but "Division by zero"; [-], [*] and [/] return
    Float values. *)
Theorem operators_throw_only_division_by_zero (a b : Value) :
  (∃ v, operator_plus stod a b = Returns v) ∧
  (∃ f, operator_minus stod a b = Returns (VFloat f)) ∧
  (∃ f, operator_times stod a b = Returns (VFloat f)) ∧
  (operator_div stod a b = Throws DivisionByZero ∨
   ∃ f, operator_div stod a b = Returns (VFloat f)) ∧
  (∃ r, operator_eq stod a b = Returns r) ∧
  (∃ r, operator_ne stod a b = Returns r) ∧
  (∃ r, operator_lt stod a b = Returns r) ∧
  (∃ r, operator_le stod a b = Returns r) ∧
  (∃ r, operator_gt stod a b = Returns r) ∧
  (∃ r, operator_ge stod a b = Returns r).
Proof.
  destruct (toFloat_returns stod a) as [x Hx].
  destruct (toFloat_returns stod b) as [y Hy].
  assert (∃ r, operator_eq stod a b = Returns r) as [re Hre].
  { unfold operator_eq. rewrite Hx, Hy. destruct (is_string a || is_string b); simpl; eauto. }
  assert (∃ r, operator_lt stod a b = Returns r) as [rl Hrl].
  { unfold operator_lt. rewrite Hx, Hy. destruct (is_string a || is_string b); simpl; eauto. }
  unfold operator_ne, operator_le, operator_gt, operator_ge, operator_le.
  rewrite Hre, Hrl. simpl.
  unfold operator_plus, operator_minus, operator_times, operator_div.
  rewrite Hx, Hy. simpl.
  repeat split; eauto.
  - destruct (is_string a || is_string b); eauto.
  - destruct (PrimFloat.ltb (PrimFloat.abs y) 1e-10); eauto.
  - destruct rl; eauto.
  - destruct rl; simpl; eauto.
Qed.

Lemma string_compare_refl (s : string) : String.compare s s = Eq.
Proof.
  pose proof (String.compare_antisym s s) as H.
  destruct (String.compare s s); simpl in H; congruence.
Qed.

Lemma string_compare_lt_trans (s t u : string) :
  String.compare s t = Lt → String.compare t u = Lt → String.compare s u = Lt.
Proof.
  revert t u. induction s as [| a s IH]; intros [| b t] [| c u]; simpl;
    try discriminate; try reflexivity.
  destruct (Ascii.compare a b) eqn:Eab; try discriminate;
    destruct (Ascii.compare b c) eqn:Ebc; try discriminate.
  - apply Ascii.compare_eq_iff in Eab, Ebc. subst b c.
    assert (Ascii.compare a a = Eq) as -> by (apply N.compare_refl).
    apply IH.
  - apply Ascii.compare_eq_iff in Eab. subst b. now rewrite Ebc.
  - apply Ascii.compare_eq_iff in Ebc. subst c. now rewrite Eab.
  - intros _ _. unfold Ascii.compare in *.
    rewrite N.compare_lt_iff in Eab, Ebc.
    assert (N.compare (N_of_ascii a) (N_of_ascii c) = Lt) as ->
      by (apply N.compare_lt_iff; lia).
    reflexivity.
Qed.

(** With a String operand the comparisons are those of the two text
    forms: [==] is equality of the texts and [<] their lexicographic
    order by character code, and [!=], [<=], [>], [>=] are what these
    two say. The texts are totally ordered: exactly one of [a < b],
    [a == b], [b < a] holds, and [<] is transitive over values of which
    every compared pair has a String operand. *)
Theorem string_comparison_total (a b : Value) :
  getType a = STRING ∨ getType b = STRING →
  operator_eq stod a b = Returns (String.eqb (toString a) (toString b)) ∧
  operator_lt stod a b = Returns (String.ltb (toString a) (toString b)) ∧
  operator_ne stod a b = Returns (negb (String.eqb (toString a) (toString b))) ∧
  operator_le stod a b = Returns (negb (String.ltb (toString b) (toString a))) ∧
  operator_gt stod a b = Returns (String.ltb (toString b) (toString a)) ∧
  operator_ge stod a b = Returns (negb (String.ltb (toString a) (toString b))) ∧
  (∃ lt eq gt,
     operator_lt stod a b = Returns lt ∧
     operator_eq stod a b = Returns eq ∧
     operator_lt stod b a = Returns gt ∧
     operator_eq stod b a = Returns eq ∧
     ((lt, eq, gt) = (true, false, false) ∨ (lt, eq, gt) = (false, true, false) ∨
      (lt, eq, gt) = (false, false, true))) ∧
  (∀ c, getType b = STRING ∨ getType c = STRING →
        getType a = STRING ∨ getType c = STRING →
        operator_lt stod a b = Returns true →
        operator_lt stod b c = Returns true →
        operator_lt stod a c = Returns true).
Proof.
  intros H.
  assert (∀ x y, getType x = STRING ∨ getType y = STRING →
                 is_string x || is_string y = true) as Hs.
  { intros x y [E | E]; [destruct x | destruct y]; simpl in *;
      rewrite ?orb_true_r; congruence. }
  assert (is_string a || is_string b = true) as Eab by (now apply Hs).
  assert (is_string b || is_string a = true) as Eba by (now rewrite orb_comm).
  assert (∀ s t, String.ltb s t || String.eqb s t = negb (String.ltb t s)) as Hle.
  { intros s t. unfold String.ltb. rewrite (String.compare_antisym t s).
    destruct (String.compare s t) eqn:E; cbn [CompOpp orb negb].
    - apply String.compare_eq_iff in E. subst t. now rewrite String.eqb_refl.
    - reflexivity.
    - apply String.eqb_neq. intros ->. rewrite string_compare_refl in E. discriminate. }
  assert (operator_le stod a b = Returns (negb (String.ltb (toString b) (toString a))))
    as Hleq.
  { unfold operator_le, operator_lt, operator_eq. rewrite Eab. cbn [outcome_bind].
    rewrite <- Hle. now destruct (String.ltb (toString a) (toString b)). }
  split; [| split; [| split; [| split; [| split; [| split; [| split]]]]]].
  - unfold operator_eq. now rewrite Eab.
  - unfold operator_lt. now rewrite Eab.
  - unfold operator_ne, operator_eq. now rewrite Eab.
  - exact Hleq.
  - unfold operator_gt. rewrite Hleq. cbn [outcome_bind]. now rewrite negb_involutive.
  - unfold operator_ge, operator_lt. now rewrite Eab.
  - unfold operator_lt, operator_eq. rewrite Eab, Eba.
    generalize (toString a) (toString b). intros s t.
    unfold String.ltb. rewrite (String.compare_antisym t s).
    destruct (String.compare s t) eqn:E; cbn [CompOpp].
    + apply String.compare_eq_iff in E. subst t.
      rewrite String.eqb_refl. eexists _, _, _. repeat split; auto.
    + assert ((s =? t)%string = false) as Hne.
      { apply String.eqb_neq. intros ->. rewrite string_compare_refl in E. discriminate. }
      assert ((t =? s)%string = false) as Hne' by (now rewrite String.eqb_sym).
      rewrite Hne, Hne'. eexists _, _, _. repeat split; auto.
    + assert ((s =? t)%string = false) as Hne.
      { apply String.eqb_neq. intros ->. rewrite string_compare_refl in E. discriminate. }
      assert ((t =? s)%string = false) as Hne' by (now rewrite String.eqb_sym).
      rewrite Hne, Hne'. eexists _, _, _. repeat split; auto.
  - intros c Hbc Hac. unfold operator_lt.
    rewrite Eab, (Hs _ _ Hbc), (Hs _ _ Hac).
    unfold String.ltb. intros [= Hab] [= Hbc'].
    destruct (String.compare (toString a) (toString b)) eqn:E1; try discriminate.
    destruct (String.compare (toString b) (toString c)) eqn:E2; try discriminate.
    now rewrite (string_compare_lt_trans _ _ _ E1 E2).
Qed.

End MoreValueFacts.

Lemma string_comparison_total_witness :
  operator_eq stod_digits (VString "10") (VFloat 9) = Returns false ∧
  operator_lt stod_digits (VString "10") (VFloat 9) = Returns true ∧
  operator_gt stod_digits (VString "10") (VFloat 9) = Returns false ∧
  operator_lt stod_digits (VString "10") (VString "abc") = Returns true.
Proof.
  pose proof (string_comparison_total stod_digits (VString "10") (VFloat 9)
                (or_introl eq_refl)) as (Heq & Hlt & _ & _ & Hgt & _ & _ & Htrans).
  split; [exact Heq | split; [exact Hlt | split; [exact Hgt |]]].
  apply (Htrans (VString "abc")); [right; reflexivity | left; reflexivity | exact Hlt |].
  reflexivity.
Defined.

(** ** Properties of the builtin registry *)

Section BuiltinFacts.
Import Builtins.
Variable stod : string → outcome float.

Lemma getBuiltin_registerBuiltin (n k : string) (kd : BuiltinKind) (ac : Z)
    (impl : BuiltinFunction) (reg : BuiltinsRegistry) (b : Builtin) :
  getBuiltin k (registerBuiltin n kd ac impl reg) = Some b →
  (k = n ∧ b = mkBuiltin n kd ac impl) ∨ (k ≠ n ∧ getBuiltin k reg = Some b).
Proof.
  unfold getBuiltin, registerBuiltin. cbn [builtins_].
  intros H. apply lookup_insert_Some in H as [[<- <-] | [Hne H]]; auto.
Qed.

(** The nine builtins of the registry, by name. *)
Lemma getInstance_cases (k : string) (b : Builtin) :
  getBuiltin k (getInstance stod) = Some b →
  b = mkBuiltin "Say" SAY 1 impl_Say ∨
  b = mkBuiltin "open" OPEN_FILE 1 impl_open ∨
  b = mkBuiltin "Read" READ_FILE 1 impl_Read ∨
  b = mkBuiltin "Write" WRITE_FILE (-1) impl_Write ∨
  b = mkBuiltin "Add" MATH_OP 2 (impl_Add stod) ∨
  b = mkBuiltin "Subtract" MATH_OP 2 (impl_Subtract stod) ∨
  b = mkBuiltin "Multiply" MATH_OP 2 (impl_Multiply stod) ∨
  b = mkBuiltin "Divide" MATH_OP 2 (impl_Divide stod) ∨
  b = mkBuiltin "Concat" STRING_OP 2 (impl_Concat stod).
Proof.
  unfold getInstance, initializeBuiltins. intros H.
  repeat (apply getBuiltin_registerBuiltin in H as [[_ ->] | [_ H]]; [tauto |]).
  unfold getBuiltin in H. cbn [builtins_] in H. rewrite lookup_empty in H. discriminate.
Qed.

(** What the four arithmetic builtins and [Concat] do to their
    arguments: the output stays, and only [Divide] can throw. *)
Lemma arithmetic_builtin_outcomes (args : list Value) (out : list string) :
  (∃ v, impl_Add stod args out = (Returns v, out)) ∧
  (∃ v, impl_Subtract stod args out = (Returns v, out)) ∧
  (∃ v, impl_Multiply stod args out = (Returns v, out)) ∧
  (∃ v, impl_Concat stod args out = (Returns v, out)) ∧
  (impl_Divide stod args out = (Throws DivisionByZero, out) ∨
   ∃ f, impl_Divide stod args out = (Returns (VFloat f), out)).
Proof.
  unfold impl_Add, builtin_Add, impl_Subtract, impl_Multiply, impl_Concat,
    impl_Divide, builtin_Divide.
  destruct args as [| a0 [| a1 rest]];
    try (repeat split; try right; eexists; reflexivity).
  unfold operator_plus, operator_minus, operator_times, operator_div.
  destruct (toFloat_returns stod a0) as [x ->].
  destruct (toFloat_returns stod a1) as [y ->]. cbn [outcome_bind].
  repeat split; try (eexists; reflexivity).
  - destruct (is_string a0 || is_string a1); eexists; reflexivity.
  - destruct (is_string a0 || is_string a1); eexists; reflexivity.
  - destruct (PrimFloat.ltb (PrimFloat.abs y) 1e-10); [left | right; eexists]; reflexivity.
Qed.

(** Every builtin is registered under its own name and none looks at its
    declared arity. On every argument list: [Say] returns the empty
    value and, when it has an argument, appends the text of the first
    one to the output as one line; every other builtin leaves the output
    as it is; every builtin but [Divide] returns a value, and [Divide]
    returns a Float or throws "Division by zero". *)
Theorem builtin_call_outcomes (k : string) (b : Builtin)
    (args : list Value) (out : list string) :
  getBuiltin k (getInstance stod) = Some b →
  name b = k ∧
  (k = "Say" →
     implementation b args out
       = (Returns Value_default,
          match args with a :: _ => out ++ [toString a] | [] => out end)) ∧
  (k ≠ "Say" → snd (implementation b args out) = out) ∧
  (k ≠ "Divide" → ∃ v, fst (implementation b args out) = Returns v) ∧
  (k = "Divide" →
     fst (implementation b args out) = Throws DivisionByZero ∨
     ∃ f, fst (implementation b args out) = Returns (VFloat f)).
Proof.
  intros H.
  assert (name b = k) as Hname.
  { revert H. unfold getInstance, initializeBuiltins. intros H.
    repeat (apply getBuiltin_registerBuiltin in H as [[-> ->] | [_ H]]; [reflexivity |]).
    unfold getBuiltin in H. cbn [builtins_] in H. rewrite lookup_empty in H. discriminate. }
  split; [exact Hname |]. subst k.
  destruct (arithmetic_builtin_outcomes args out)
    as ((va & Ha) & (vs & Hs) & (vm & Hm) & (vc & Hc) & Hd).
  apply getInstance_cases in H.
  destruct H as [-> | [-> | [-> | [-> | [-> | [-> | [-> | [-> | ->]]]]]]]];
    cbn [name implementation];
    (split; [intros E; try discriminate E | split; [intros E | split; intros E]]);
    try discriminate E; try (now contradiction E).
  - destruct args; reflexivity.
  - destruct args; eexists; reflexivity.
  - now destruct args.
  - destruct args; eexists; reflexivity.
  - now destruct args.
  - destruct args; eexists; reflexivity.
  - now destruct args as [| ? [| ? [| ? ?]]].
  - destruct args as [| ? [| ? [| ? ?]]]; eexists; reflexivity.
  - now rewrite Ha.
  - rewrite Ha. eauto.
  - now rewrite Hs.
  - rewrite Hs. eauto.
  - now rewrite Hm.
  - rewrite Hm. eauto.
  - destruct Hd as [-> | [f ->]]; reflexivity.
  - destruct Hd as [-> | [f ->]]; [left | right; eexists]; reflexivity.
  - now rewrite Hc.
  - rewrite Hc. eauto.
Qed.

(** [Concat] concatenates only when one of its first two arguments is a
    String: on two other values it returns their Float sum, as [Add]
    does; further arguments are ignored, and with fewer than two
    arguments it returns the Bool [true], not an empty String. *)
Theorem Concat_of_non_strings (a b : Value) (more : list Value) (out : list string) :
  getType a ≠ STRING → getType b ≠ STRING →
  (∃ x y, toFloat stod a = Returns x ∧ toFloat stod b = Returns y ∧
          impl_Concat stod (a :: b :: more) out = (Returns (VFloat (x + y)), out)) ∧
  impl_Concat stod (a :: b :: more) out = impl_Add stod [a; b] out ∧
  impl_Concat stod [a] out = (Returns (VBool true), out) ∧
  impl_Concat stod [] out = (Returns (VBool true), out).
Proof.
  intros Ha Hb.
  assert (is_string a = false) as Ea by (destruct a; simpl in *; congruence).
  assert (is_string b = false) as Eb by (destruct b; simpl in *; congruence).
  split; [| repeat split].
  destruct (toFloat_returns stod a) as [x Hx].
  destruct (toFloat_returns stod b) as [y Hy].
  exists x, y. repeat split; auto.
  unfold impl_Concat, operator_plus. rewrite Ea, Eb, Hx, Hy. reflexivity.
Qed.

End BuiltinFacts.

Lemma builtin_call_outcomes_witness :
  Builtins.impl_Say [VFloat 2; VBool true] ["first"]
    = (Returns Value_default, ["first"] ++ [toString (VFloat 2)]) ∧
  snd (Builtins.impl_Divide stod_digits [VFloat 1; VBool false] ["first"]) = ["first"].
Proof.
  split.
  - apply (builtin_call_outcomes stod_digits "Say"
             (Builtins.mkBuiltin "Say" Builtins.SAY 1 Builtins.impl_Say)
             [VFloat 2; VBool true] ["first"]); reflexivity.
  - apply (builtin_call_outcomes stod_digits "Divide"
             (Builtins.mkBuiltin "Divide" Builtins.MATH_OP 2
                (Builtins.impl_Divide stod_digits))
             [VFloat 1; VBool false] ["first"]); [reflexivity | discriminate].
Defined.

Lemma Concat_of_non_strings_witness :
  (∃ x y, toFloat stod_digits (VFloat 2) = Returns x ∧
          toFloat stod_digits (VBool true) = Returns y ∧
          Builtins.impl_Concat stod_digits [VFloat 2; VBool true; VString "z"] []
            = (Returns (VFloat (x + y)), [])) ∧
  Builtins.impl_Concat stod_digits [VFloat 2; VBool true; VString "z"] []
    = Builtins.impl_Add stod_digits [VFloat 2; VBool true] [] ∧
  Builtins.impl_Concat stod_digits [VFloat 2] [] = (Returns (VBool true), []) ∧
  Builtins.impl_Concat stod_digits [] [] = (Returns (VBool true), []).
Proof.
  apply (Concat_of_non_strings stod_digits (VFloat 2) (VBool true) [VString "z"] []);
    simpl; discriminate.
Defined.

(** ** Induction over statements and their bodies *)

Section StatementInduction.
Import Engine.

Lemma Statement_induction (P : Statement → Prop) :
  (∀ s, Forall P (children s) → P s) → ∀ s, P s.
Proof.
  intros H. fix IH 1. intros s. apply H.
  pose (all := fix all (l : list Statement) : Forall P l :=
          match l with
          | [] => List.Forall_nil P
          | x :: r => List.Forall_cons P x r (IH x) (all r)
          end).
  destruct s; simpl; try apply List.Forall_nil;
    try (apply Forall_app; split; apply all); apply all.
Qed.

(** A relation that every step of a fold maintains holds of the fold. *)
Lemma fold_left_preserves {S A : Type} (R : S → S → Prop) (f : S → A → S) (l : list A) :
  (∀ x, R x x) → (∀ x y z, R x y → R y z → R x z) →
  Forall (λ a, ∀ x, R x (f x a)) l →
  ∀ x, R x (fold_left f l x).
Proof.
  intros Hrefl Htrans Hall. induction Hall as [| a l Ha _ IH]; intros x; simpl.
  - apply Hrefl.
  - eapply Htrans; [apply Ha | apply IH].
Qed.

End StatementInduction.

(** ** Properties of the semantic analyzer *)

Section AnalyzerFacts.
Import Symbols Engine Analyzer.
Variable stod : string → outcome float.

(** Visiting a statement leaves the enclosing scopes alone. *)
Lemma visitStatement_parent (s : Statement) :
  ∀ st, parent (currentScope (visitStatement stod st s)) = parent (currentScope st).
Proof.
  induction s as [s IH] using Statement_induction.
  assert (∀ body st0,
            Forall (λ a, ∀ st, parent (currentScope (visitStatement stod st a))
                               = parent (currentScope st)) body →
            parent (currentScope (fold_left (visitStatement stod) body st0))
              = parent (currentScope st0)) as Hfold.
  { intros body st0 Hb. symmetry.
    apply (fold_left_preserves
             (λ x y, parent (currentScope x) = parent (currentScope y))); auto.
    - intros x y z -> ->. reflexivity.
    - eapply Forall_impl; [exact Hb |]. intros a Ha x. symmetry. apply Ha. }
  intros st. destruct s; cbn [visitStatement children] in *; try reflexivity.
  - apply Forall_app in IH as [Ht He].
    rewrite (exitScope_child _ st); [reflexivity |].
    rewrite (Hfold _ _ He), (Hfold _ _ Ht). now destruct st.
  - rewrite (exitScope_child _ st); [reflexivity |].
    rewrite (Hfold _ _ IH). now destruct st.
  - rewrite (exitScope_child _ st); [reflexivity |].
    rewrite (Hfold _ _ IH). now destruct st.
  - rewrite (exitScope_child _ st); [reflexivity |].
    rewrite (Hfold _ _ IH). now destruct st.
Qed.

Lemma visitStatements_parent (body : list Statement) (st : SymbolTable) :
  parent (currentScope (visitStatements stod st body)) = parent (currentScope st).
Proof.
  symmetry. unfold visitStatements.
  apply (fold_left_preserves
           (λ x y, parent (currentScope x) = parent (currentScope y))); auto.
  - intros x y z -> ->. reflexivity.
  - apply Forall_forall. intros a _ x. symmetry. apply visitStatement_parent.
Qed.

(** Only a Let changes the table the analyzer works on: every other
    statement, whatever its bodies declare, leaves it as it was. *)
Theorem visitStatement_only_Let_declares (s : Statement) (st : SymbolTable) :
  (∀ n v, s ≠ LetStmt n v) → visitStatement stod st s = st.
Proof.
  intros Hs. destruct s; cbn [visitStatement]; try reflexivity.
  - exfalso. eapply Hs. reflexivity.
  - apply exitScope_child.
    change (fold_left (visitStatement stod) elseBody
              (fold_left (visitStatement stod) thenBody (enterScope st)))
      with (visitStatements stod (visitStatements stod (enterScope st) thenBody) elseBody).
    rewrite !visitStatements_parent. now destruct st.
  - apply exitScope_child.
    change (fold_left (visitStatement stod) body (enterScope st))
      with (visitStatements stod (enterScope st) body).
    rewrite visitStatements_parent. now destruct st.
  - apply exitScope_child.
    change (fold_left (visitStatement stod) body (enterScope st))
      with (visitStatements stod (enterScope st) body).
    rewrite visitStatements_parent. now destruct st.
  - apply exitScope_child.
    change (fold_left (visitStatement stod) body (enterScope st))
      with (visitStatements stod (enterScope st) body).
    rewrite visitStatements_parent. now destruct st.
  - apply exitScope_enterScope.
Qed.

Lemma visitSection_parent (section : ASTNode) (st : SymbolTable) :
  parent (currentScope (visitSection stod st section)) = parent (currentScope st).
Proof.
  destruct section as [n i body | n i body | n i body | body | s];
    cbn [visitSection]; try reflexivity;
    unfold visitDataBlock, visitOperationBlock, visitFunctionBlock,
      visitSystemCallBlock.
  - rewrite (exitScope_child _ st); [reflexivity |].
    rewrite visitStatements_parent. now destruct st.
  - rewrite (exitScope_child _ (defineOperation n [] st)).
    + apply parent_define.
    + rewrite visitStatements_parent. now destruct st as [[? ?]].
  - rewrite (exitScope_child _ (defineFunction n [] st)).
    + apply parent_define.
    + rewrite visitStatements_parent. now destruct st as [[? ?]].
  - rewrite (exitScope_child _ st); [reflexivity |].
    rewrite visitStatements_parent. now destruct st.
Qed.

(** The analysis leaves no trace: whatever the program declares, the
    symbol table after [analyze] is the table before it. *)
Theorem analyze_restores_table (program : ProgramBlock) (st : SymbolTable) :
  analyze stod st program = st.
Proof.
  unfold analyze, visitProgram. apply exitScope_child.
  transitivity (parent (currentScope (enterScope st))); [| now destruct st].
  symmetry.
  apply (fold_left_preserves
           (λ x y, parent (currentScope x) = parent (currentScope y))); auto.
  - intros x y z -> ->. reflexivity.
  - apply Forall_forall. intros a _ x. symmetry. apply visitSection_parent.
Qed.

End AnalyzerFacts.

Lemma visitStatement_only_Let_declares_witness :
  Analyzer.visitStatement stod_digits Symbols.SymbolTable_new
    (Engine.NowStmt [Engine.LetStmt "x" "1"; Engine.SayStmt "x"])
  = Symbols.SymbolTable_new.
Proof.
  apply (visitStatement_only_Let_declares stod_digits). discriminate.
Defined.

(** ** Further properties of the block engine *)

Section MoreEngineFacts.
Import Symbols Engine.
Variable stod : string → outcome float.

#[local] Abbreviation table m := (symbolTable (ctx m)).

Lemma output_grows_refl (m : Machine) : output_grows m m.
Proof. exists []. now rewrite app_nil_r. Qed.

Lemma output_grows_trans (x y z : Machine) :
  output_grows x y → output_grows y z → output_grows x z.
Proof. intros [l1 H1] [l2 H2]. exists (l1 ++ l2). now rewrite H2, H1, app_assoc. Qed.

Lemma output_grows_print (text : string) (m : Machine) : output_grows m (print_line text m).
Proof. exists [text]. reflexivity. Qed.

Lemma same_frame_trans (x y z : Machine) :
  same_frame x y → same_frame y z → same_frame x z.
Proof. intros [H1 H2] [H3 H4]. split; congruence. Qed.

(** Every statement runs in the scope that is current when it starts:
    the engine enters and exits no scope, and it never uses the value
    stack. *)
Theorem executeStatement_same_frame (s : Statement) (m : Machine) :
  stack (ctx (executeStatement stod m s)) = stack (ctx m) ∧
  parent (currentScope (table (executeStatement stod m s)))
    = parent (currentScope (table m)).
Proof.
  change (same_frame m (executeStatement stod m s)). revert m.
  induction s as [s IH] using Statement_induction.
  assert (∀ body, Forall (λ a, ∀ x, same_frame x (executeStatement stod x a)) body →
                  ∀ x, same_frame x (fold_left (executeStatement stod) body x)) as Hfold.
  { intros body Hb. apply fold_left_preserves; auto.
    - intros x. split; reflexivity.
    - apply same_frame_trans. }
  intros m. destruct s; cbn [executeStatement children] in *;
    try (unfold executeSayStatement, executeUntilStatement; destruct (lookup _ _));
    try (split; reflexivity); try (apply Hfold; exact IH).
  apply Forall_app in IH as [Ht He].
  destruct (conditionResult m condition); apply Hfold; assumption.
Qed.

(** Output is only ever appended: what was written before a statement
    is still there, in order, after it. *)
Theorem executeStatement_output_grows (s : Statement) (m : Machine) :
  ∃ lines, cout (executeStatement stod m s) = cout m ++ lines.
Proof.
  change (output_grows m (executeStatement stod m s)). revert m.
  induction s as [s IH] using Statement_induction.
  assert (∀ body, Forall (λ a, ∀ x, output_grows x (executeStatement stod x a)) body →
                  ∀ x, output_grows x (fold_left (executeStatement stod) body x)) as Hfold.
  { intros body Hb. apply fold_left_preserves; auto.
    - apply output_grows_refl.
    - apply output_grows_trans. }
  intros m. destruct s; cbn [executeStatement children] in *;
    unfold executeSayStatement, executeUntilStatement, executeRunOperationStatement,
      executeOpenFileStatement, executeReadFileStatement, executeWriteFileStatement;
    try destruct (lookup _ _);
    try apply output_grows_print; try (apply Hfold; exact IH);
    try (exists []; now rewrite app_nil_r).
  apply Forall_app in IH as [Ht He].
  destruct (conditionResult m condition); apply Hfold; assumption.
Qed.

Lemma not_in_flat_map (n : string) (body : list Statement) (a : Statement) :
  n ∉ flat_map let_names body → a ∈ body → n ∉ let_names a.
Proof.
  intros Hn Ha Hin. apply Hn. apply list_elem_of_In, in_flat_map.
  exists a. split; apply list_elem_of_In; assumption.
Qed.

(** A statement changes what a name resolves to only if it contains a
    Let of that name. *)
Theorem executeStatement_other_names (s : Statement) (m : Machine) (n : string) :
  n ∉ let_names s →
  lookup n (table (executeStatement stod m s)) = lookup n (table m).
Proof.
  revert m. induction s as [s IH] using Statement_induction.
  assert (∀ body, Forall (λ a, ∀ m, n ∉ let_names a →
                     lookup n (table (executeStatement stod m a)) = lookup n (table m)) body →
                  n ∉ flat_map let_names body →
                  ∀ x, lookup n (table (fold_left (executeStatement stod) body x))
                       = lookup n (table x)) as Hfold.
  { intros body Hb Hn x. symmetry.
    apply (fold_left_preserves (λ x y, lookup n (table x) = lookup n (table y))); auto.
    - intros a b c -> ->. reflexivity.
    - apply Forall_forall. intros a Ha y. symmetry.
      rewrite Forall_forall in Hb. apply (Hb a Ha).
      eapply not_in_flat_map; eassumption. }
  intros m Hn.
  destruct s as [n' v' | msg | | c t e | | | | | | | uc ub | | |];
    cbn [executeStatement children let_names] in *;
    try reflexivity; try (apply Hfold; assumption).
  - unfold executeLetStatement, with_symbolTable. cbn [ctx symbolTable].
    apply lookup_define_ne. simpl. intros ->. apply Hn. left.
  - unfold executeSayStatement. now destruct (lookup msg _).
  - apply Forall_app in IH as [Ht He].
    apply not_elem_of_app in Hn as [Hn1 Hn2].
    destruct (conditionResult m c); apply Hfold; assumption.
  - unfold executeUntilStatement. now destruct (lookup uc _).
Qed.

Lemma executeStatements_app (m : Machine) (l1 l2 : list Statement) :
  executeStatements stod m (l1 ++ l2)
    = executeStatements stod (executeStatements stod m l1) l2.
Proof. apply fold_left_app. Qed.

Lemma lookup_Let (m : Machine) (n v : string) :
  lookup n (table (executeStatement stod m (LetStmt n v)))
    = Some (new_VariableSymbol n (let_value stod v) true).
Proof.
  cbn [executeStatement]. unfold executeLetStatement, with_symbolTable.
  cbn [ctx symbolTable]. unfold defineVariable.
  apply (lookup_define_eq (new_VariableSymbol n (let_value stod v) true)).
Qed.

(** A Let binds a mutable variable to the number its text parses to, or
    else to the text, and a following Say of that name writes the
    value's text: a number appears with six decimals. *)
Theorem Let_then_Say (m : Machine) (n v : string) :
  lookup n (table (executeStatement stod m (LetStmt n v)))
    = Some (new_VariableSymbol n (let_value stod v) true) ∧
  cout (executeStatements stod m [LetStmt n v; SayStmt n])
    = cout m ++ [toString (let_value stod v)].
Proof.
  pose proof (lookup_Let m n v) as H.
  split; [exact H |].
  unfold executeStatements. cbn [fold_left].
  cbn [executeStatement] in *. unfold executeSayStatement. rewrite H. reflexivity.
Qed.

(** The bodies of NOW, DO and While get no scope of their own: a Let at
    the end of such a body is still what its name resolves to after the
    statement. *)
Theorem body_Let_outlives_body (m : Machine) (body : list Statement)
    (condition n v : string) :
  let bound := Some (new_VariableSymbol n (let_value stod v) true) in
  lookup n (table (executeStatement stod m (NowStmt (body ++ [LetStmt n v])))) = bound ∧
  lookup n (table (executeStatement stod m (DoStmt (body ++ [LetStmt n v])))) = bound ∧
  lookup n (table (executeStatement stod m (WhileStmt condition (body ++ [LetStmt n v]))))
    = bound.
Proof.
  assert (lookup n (table (executeStatements stod m (body ++ [LetStmt n v])))
          = Some (new_VariableSymbol n (let_value stod v) true)) as H.
  { rewrite executeStatements_app. unfold executeStatements at 1.
    cbn [fold_left]. apply lookup_Let. }
  cbv zeta. repeat split; exact H.
Qed.

End MoreEngineFacts.

Lemma executeStatement_other_names_witness :
  Symbols.lookup "y"
    (Engine.symbolTable
       (Engine.ctx
          (Engine.executeStatement stod_digits
             (Engine.runProgram stod_digits countdown_program)
             (Engine.NowStmt [Engine.LetStmt "x" "1"; Engine.SayStmt "x"]))))
  = Symbols.lookup "y"
      (Engine.symbolTable (Engine.ctx (Engine.runProgram stod_digits countdown_program))).
Proof.
  apply (executeStatement_other_names stod_digits
           (Engine.NowStmt [Engine.LetStmt "x" "1"; Engine.SayStmt "x"])
           (Engine.runProgram stod_digits countdown_program) "y").
  simpl. intros H. apply list_elem_of_singleton in H. discriminate.
Defined.

(** ** Further properties of the lexer *)

Section LexerLoops.
Import Lex.

Lemma take_drop_while (p : ascii → bool) (s : string) :
  take_while p s +:+ drop_while p s = s.
Proof.
  induction s as [| c r IH]; [reflexivity |]. simpl.
  destruct (p c); [| reflexivity]. now rewrite append_cons, IH.
Qed.

Lemma take_while_forall (p : ascii → bool) (s : string) :
  String_forall p (take_while p s) = true.
Proof.
  induction s as [| c r IH]; [reflexivity |]. simpl.
  destruct (p c) eqn:E; [| reflexivity]. simpl. now rewrite E.
Qed.

(** What follows the longest prefix does not start with a [p]. *)
Lemma drop_while_head (p : ascii → bool) (s : string) (c : ascii) (r : string) :
  drop_while p s = String c r → p c = false.
Proof.
  induction s as [| d s IH]; [discriminate |]. simpl.
  destruct (p d) eqn:E; [exact IH |]. intros [= <- <-]. exact E.
Qed.

(** On text without a newline the line stays and the column moves by
    the length. *)
Lemma position_after_line (text : string) (l k : Z) :
  String_forall not_newline text = true →
  line_after text l = l ∧ col_after text k = (k + Z.of_nat (String.length text))%Z.
Proof.
  revert k. induction text as [| c r IH]; intros k H; simpl in *.
  - split; [reflexivity | lia].
  - apply andb_prop in H as [Hc Hr]. unfold not_newline in Hc.
    apply negb_true_iff in Hc. unfold next_line, next_col. rewrite Hc.
    destruct (IH (k + 1)%Z Hr) as [-> ->]. split; [reflexivity | lia].
Qed.

Lemma String_forall_impl (p q : ascii → bool) (s : string) :
  (∀ c, p c = true → q c = true) →
  String_forall p s = true → String_forall q s = true.
Proof.
  intros Hpq. induction s as [| c r IH]; [reflexivity |]. simpl.
  intros H. apply andb_prop in H as [Hc Hr]. now rewrite (Hpq c Hc), IH.
Qed.

Lemma String_forall_append (p : ascii → bool) (a b : string) :
  String_forall p (a +:+ b) = String_forall p a && String_forall p b.
Proof.
  induction a as [| c r IH]; [reflexivity |].
  rewrite append_cons. simpl. now rewrite IH, andb_assoc.
Qed.

(** The scanner loops in closed form: each collects the longest prefix
    of its kind and stops in front of what follows. *)
Lemma skipWhitespace_loop_spec (s : string) (l k : Z) :
  skipWhitespace_loop s l k
    = mkLexer (drop_while isspace s)
        (line_after (take_while isspace s) l) (col_after (take_while isspace s) k).
Proof.
  revert l k. induction s as [| c r IH]; intros l k; simpl; [reflexivity |].
  destruct (isspace c); [apply IH | reflexivity].
Qed.

Lemma scanNumber_loop_spec (s : string) (l k : Z) (lex : string) :
  scanNumber_loop s l k lex
    = (lex +:+ take_while isdigit s,
       mkLexer (drop_while isdigit s)
         (line_after (take_while isdigit s) l) (col_after (take_while isdigit s) k)).
Proof.
  revert l k lex. induction s as [| c r IH]; intros l k lex; simpl.
  - now rewrite append_nil_r.
  - destruct (isdigit c); [| now rewrite append_nil_r].
    now rewrite IH, append_snoc.
Qed.

Lemma scanIdentifierOrKeyword_loop_spec (s : string) (l k : Z) (lex : string) :
  scanIdentifierOrKeyword_loop s l k lex
    = (lex +:+ take_while is_identifier_char s,
       mkLexer (drop_while is_identifier_char s)
         (line_after (take_while is_identifier_char s) l)
         (col_after (take_while is_identifier_char s) k)).
Proof.
  revert l k lex. induction s as [| c r IH]; intros l k lex; simpl.
  - now rewrite append_nil_r.
  - destruct (is_identifier_char c); [| now rewrite append_nil_r].
    now rewrite IH, append_snoc.
Qed.

Lemma scanComment_loop_spec (s : string) (l k : Z) (lex : string) :
  scanComment_loop s l k lex
    = (lex +:+ take_while not_newline s,
       mkLexer (drop_while not_newline s)
         (line_after (take_while not_newline s) l)
         (col_after (take_while not_newline s) k)).
Proof.
  revert l k lex. induction s as [| c r IH]; intros l k lex; simpl.
  - now rewrite append_nil_r.
  - unfold not_newline at 1 3 5 7. destruct (Ascii.eqb c newline); simpl.
    + now rewrite append_nil_r.
    + now rewrite IH, append_snoc.
Qed.

Lemma scanString_loop_spec (s : string) (l k : Z) (lex : string) :
  scanString_loop s l k lex
    = let text := take_while plain_char s in
      let l' := line_after text l in
      let k' := col_after text k in
      match drop_while plain_char s with
      | EmptyString => (Unknown, lex +:+ text, mkLexer EmptyString l' k')
      | String c r =>
          (if Ascii.eqb c quote then String_ else Unknown, lex +:+ text,
           mkLexer r (next_line c l') (next_col c k'))
      end.
Proof.
  revert l k lex. induction s as [| c r IH]; intros l k lex; cbn zeta; simpl.
  - now rewrite append_nil_r.
  - unfold plain_char at 1 3 5 7 9 11 13.
    destruct (Ascii.eqb c quote) eqn:Eq; simpl.
    + rewrite Eq. now rewrite append_nil_r.
    + destruct (Ascii.eqb c newline) eqn:En; simpl.
      * rewrite Eq. now rewrite append_nil_r.
      * rewrite IH. cbn zeta. rewrite append_snoc. reflexivity.
Qed.

End LexerLoops.

Section ScanTokenFacts.
Import Lex.

(** Case analysis on a character, its hypotheses evaluated. *)
Ltac ascii_cases c :=
  destruct c as [[] [] [] [] [] [] [] []]; try discriminate; try reflexivity.

Lemma isdigit_facts (c : ascii) :
  isdigit c = true →
  Ascii.eqb c "/" = false ∧ Ascii.eqb c quote = false ∧ not_newline c = true ∧
  isspace c = false.
Proof. intros H. ascii_cases c; vm_compute; auto. Qed.

Lemma identifier_start_facts (c : ascii) :
  isalpha c || Ascii.eqb c "_" || Ascii.eqb c "#" = true →
  Ascii.eqb c "/" = false ∧ Ascii.eqb c quote = false ∧ isdigit c = false ∧
  is_identifier_char c = true ∧ isspace c = false.
Proof. intros H. ascii_cases c; vm_compute; auto. Qed.

Lemma is_identifier_char_not_newline (c : ascii) :
  is_identifier_char c = true → not_newline c = true.
Proof. intros H. ascii_cases c. Qed.

(** A digit starts a Number token: the longest run of digits from there,
    on one line. *)
Theorem scanToken_Number (c : ascii) (r : string) (l k : Z) :
  isdigit c = true →
  let digits := take_while isdigit (String c r) in
  scanToken (mkLexer (String c r) l k)
    = Some (makeToken Number digits l k,
            mkLexer (drop_while isdigit (String c r)) l
              (k + Z.of_nat (String.length digits))).
Proof.
  intros Hd digits.
  destruct (isdigit_facts c Hd) as (Hs & Hq & _ & _).
  unfold scanToken. cbn [peek peekNext rest line_ col_].
  rewrite Hs, Hq, Hd. cbn [andb].
  unfold scanNumber. cbn [rest line_ col_].
  rewrite scanNumber_loop_spec, append_nil_l. fold digits.
  destruct (position_after_line digits l k) as [-> ->]; [| reflexivity].
  unfold digits. eapply String_forall_impl; [| apply take_while_forall].
  intros d Hdd. apply (isdigit_facts d Hdd).
Qed.

Lemma scanToken_Number_witness :
  scanToken (mkLexer "42.5" 1 1)
    = Some (makeToken Number "42" 1 1, mkLexer ".5" 1 3).
Proof. apply (scanToken_Number "4" "2.5" 1 1). reflexivity. Defined.

(** A letter, [_] or [#] starts the longest run of letters, digits, [_]
    and [#]; the token is a Keyword exactly when that run is in the
    keyword set, and an Identifier otherwise. *)
Theorem scanToken_word (c : ascii) (r : string) (l k : Z) :
  isalpha c || Ascii.eqb c "_" || Ascii.eqb c "#" = true →
  let word := take_while is_identifier_char (String c r) in
  scanToken (mkLexer (String c r) l k)
    = Some (makeToken (if count_string word kKeywords then Keyword else Identifier)
              word l k,
            mkLexer (drop_while is_identifier_char (String c r)) l
              (k + Z.of_nat (String.length word))).
Proof.
  intros Hc word.
  destruct (identifier_start_facts c Hc) as (Hs & Hq & Hd & _ & _).
  unfold scanToken. cbn [peek peekNext rest line_ col_].
  rewrite Hs, Hq, Hd, Hc. cbn [andb].
  unfold scanIdentifierOrKeyword. cbn [rest line_ col_].
  rewrite scanIdentifierOrKeyword_loop_spec, append_nil_l. fold word.
  destruct (position_after_line word l k) as [-> ->].
  - unfold word. eapply String_forall_impl; [| apply take_while_forall].
    apply is_identifier_char_not_newline.
  - now destruct (count_string word kKeywords).
Qed.

Lemma scanToken_word_witness :
  scanToken (mkLexer "While=>" 2 5)
    = Some (makeToken Keyword "While" 2 5, mkLexer "=>" 2 10).
Proof. apply (scanToken_word "W" "hile=>" 2 5). reflexivity. Defined.

(** [//] starts a Comment token that holds the text up to the end of the
    line; the newline itself is left unread. *)
Theorem scanToken_Comment (s : string) (l k : Z) :
  let text := take_while not_newline s in
  scanToken (mkLexer (String "/" (String "/" s)) l k)
    = Some (makeToken Comment text l k,
            mkLexer (drop_while not_newline s) l
              (k + 2 + Z.of_nat (String.length text))).
Proof.
  intros text.
  unfold scanToken. cbn [peek peekNext rest line_ col_].
  change (Ascii.eqb "/" "/") with true. cbn [andb].
  unfold scanComment, bind, advance. cbn [rest line_ col_].
  change (next_line "/" (next_line "/" l)) with l.
  change (next_col "/" (next_col "/" k)) with (k + 1 + 1)%Z.
  rewrite scanComment_loop_spec, append_nil_l. fold text.
  destruct (position_after_line text l (k + 1 + 1)) as [-> ->].
  - apply take_while_forall.
  - do 3 f_equal. lia.
Qed.

Lemma plain_text_forall (text : string) :
  plain_text text = String_forall plain_char text.
Proof. induction text as [| c r IH]; [reflexivity |]. simpl. now rewrite IH. Qed.

(** A string literal closed on its line becomes a [String_] token that
    holds the text between the quotes, and the lexer goes on behind the
    closing quote. *)
Theorem scanToken_String (text tail : string) (l k : Z) :
  plain_text text = true →
  scanToken (mkLexer (String quote (text +:+ String quote tail)) l k)
    = Some (makeToken String_ text l k,
            mkLexer tail l (k + Z.of_nat (String.length text) + 2)).
Proof.
  intros Hp.
  unfold scanToken, scanString, bind, advance.
  cbn [peek peekNext rest line_ col_].
  change (Ascii.eqb quote "/") with false.
  change (Ascii.eqb quote quote) with true. cbn [andb].
  change (next_line quote l) with l.
  change (next_col quote k) with (k + 1)%Z.
  rewrite scanString_loop_plain by exact Hp.
  rewrite append_nil_l. cbn [scanString_loop].
  change (Ascii.eqb quote quote) with true. cbv iota.
  change (next_line quote l) with l.
  change (next_col quote (k + 1 + Z.of_nat (String.length text)))
    with (k + 1 + Z.of_nat (String.length text) + 1)%Z.
  do 3 f_equal. lia.
Qed.

Lemma scanToken_String_witness :
  scanToken (mkLexer (String quote ("Hello world" +:+ String quote ";")) 1 5)
    = Some (makeToken String_ "Hello world" 1 5, mkLexer ";" 1 18).
Proof. apply (scanToken_String "Hello world" ";" 1 5). reflexivity. Defined.

(** Operators are matched longest first: the two-character operators
    are never split, and [=], [+], [-] stand alone only when the next
    character does not complete one. *)
Theorem scanToken_two_character_operators (r : string) (l k : Z) :
  (∀ op, In op ["=>"; "=="; "++"; "--"] →
     scanToken (mkLexer (op +:+ r) l k)
       = Some (makeToken Operator op l k, mkLexer r l (k + 1 + 1))) ∧
  (peek (mkLexer r l k) ≠ ">"%char → peek (mkLexer r l k) ≠ "="%char →
     scanToken (mkLexer (String "=" r) l k)
       = Some (makeToken Operator "=" l k, mkLexer r l (k + 1))) ∧
  (peek (mkLexer r l k) ≠ "+"%char →
     scanToken (mkLexer (String "+" r) l k)
       = Some (makeToken Operator "+" l k, mkLexer r l (k + 1))) ∧
  (peek (mkLexer r l k) ≠ "-"%char →
     scanToken (mkLexer (String "-" r) l k)
       = Some (makeToken Operator "-" l k, mkLexer r l (k + 1))).
Proof.
  split; [| split; [| split]].
  - intros op H. simpl in H.
    repeat (destruct H as [<- | H]; [vm_compute; reflexivity |]). contradiction.
  - destruct r as [| c r']; [intros; vm_compute; reflexivity |].
    cbn [peek rest]. intros H1 H2.
    apply Ascii.eqb_neq in H1, H2.
    unfold scanToken, bind, matchOperator.
    cbn [peek peekNext rest line_ col_ find kOperators starts_with].
    change (Ascii.eqb "=" "/") with false. cbn [andb].
    rewrite (Ascii.eqb_sym ">" c), (Ascii.eqb_sym "=" c), H1, H2.
    vm_compute. reflexivity.
  - destruct r as [| c r']; [intros; vm_compute; reflexivity |].
    cbn [peek rest]. intros H1. apply Ascii.eqb_neq in H1.
    unfold scanToken, bind, matchOperator.
    cbn [peek peekNext rest line_ col_ find kOperators starts_with].
    change (Ascii.eqb "+" "/") with false. cbn [andb].
    rewrite (Ascii.eqb_sym "+" c), H1.
    vm_compute. reflexivity.
  - destruct r as [| c r']; [intros; vm_compute; reflexivity |].
    cbn [peek rest]. intros H1. apply Ascii.eqb_neq in H1.
    unfold scanToken, bind, matchOperator.
    cbn [peek peekNext rest line_ col_ find kOperators starts_with].
    change (Ascii.eqb "-" "/") with false. cbn [andb].
    rewrite (Ascii.eqb_sym "-" c), H1.
    vm_compute. reflexivity.
Qed.

Lemma scanToken_two_character_operators_witness :
  scanToken (mkLexer ("=>" +:+ "y") 1 1)
    = Some (makeToken Operator "=>" 1 1, mkLexer "y" 1 (1 + 1 + 1)) ∧
  scanToken (mkLexer "=5" 1 1) = Some (makeToken Operator "=" 1 1, mkLexer "5" 1 (1 + 1)).
Proof.
  split.
  - apply (proj1 (scanToken_two_character_operators "y" 1 1) "=>"). simpl. auto.
  - apply (proj1 (proj2 (scanToken_two_character_operators "5" 1 1))); simpl; discriminate.
Defined.

End ScanTokenFacts.

(** ** Invariants of the token sequence *)

Section TokenInvariants.
Import Lex.

Lemma pos_lt_le_trans (p q r : Z * Z) : pos_lt p q → pos_le q r → pos_lt p r.
Proof. unfold pos_lt, pos_le. lia. Qed.

Lemma pos_lt_le (p q : Z * Z) : pos_lt p q → pos_le p q.
Proof. unfold pos_lt, pos_le. lia. Qed.

Lemma pos_le_trans (p q r : Z * Z) : pos_le p q → pos_le q r → pos_le p r.
Proof. unfold pos_le. lia. Qed.

Lemma pos_lt_next (c : ascii) (l k : Z) : pos_lt (l, k) (next_line c l, next_col c k).
Proof.
  unfold pos_lt, next_line, next_col. simpl. destruct (Ascii.eqb c newline); lia.
Qed.

Lemma pos_le_after (text : string) (l k : Z) :
  pos_le (l, k) (line_after text l, col_after text k).
Proof.
  revert l k. induction text as [| c r IH]; intros l k; simpl.
  - unfold pos_le. simpl. lia.
  - eapply pos_le_trans; [| apply IH].
    pose proof (pos_lt_next c l k). unfold pos_lt, pos_le in *. simpl in *. lia.
Qed.

Lemma count_string_In (w : string) (set : list string) :
  In w set → count_string w set = true.
Proof.
  intros H. unfold count_string. apply existsb_exists.
  exists w. split; [exact H | apply String.eqb_refl].
Qed.

Lemma not_empty_eqb (c : ascii) (r : string) :
  negb (String.eqb (String c r) EmptyString) = true.
Proof. reflexivity. Qed.

(** One turn of the loop on a character that is not white space: the
    token it makes is at the position of that character, is of the form
    its type promises and is not an end-of-file token, and the lexer has
    moved on. *)
Lemma scanToken_step (c : ascii) (r : string) (l k : Z) (tok : Token) (lx' : Lexer) :
  isspace c = false →
  scanToken (mkLexer (String c r) l k) = Some (tok, lx') →
  token_ok tok = true ∧ type tok ≠ EndOfFile ∧ token_pos tok = (l, k) ∧
  pos_lt (l, k) (lexer_pos lx').
Proof.
  intros Hsp. unfold scanToken. cbn [peek peekNext rest line_ col_].
  destruct (Ascii.eqb c "/" && _) eqn:Ecomment.
  { apply andb_prop in Ecomment as [E1 E2].
    destruct r as [| c' r']; [discriminate |].
    unfold scanComment, bind, advance. cbn [rest line_ col_].
    rewrite scanComment_loop_spec, append_nil_l. intros [= <- <-].
    unfold token_ok, token_pos, lexer_pos. cbn [type lexeme line column line_ col_].
    rewrite take_while_forall. repeat split; [discriminate |].
    eapply pos_lt_le_trans; [apply (pos_lt_next c) |].
    eapply pos_le_trans; [| apply pos_le_after].
    pose proof (pos_lt_next c' (next_line c l) (next_col c k)) as H.
    unfold pos_lt, pos_le in *. simpl in *. lia. }
  destruct (Ascii.eqb c quote) eqn:Equote.
  { unfold scanString, bind, advance. cbn [rest line_ col_].
    rewrite scanString_loop_spec. cbv zeta. rewrite !append_nil_l.
    pose proof (pos_le_after (take_while plain_char r) (next_line c l) (next_col c k)) as Hle.
    pose proof (pos_lt_next c l k) as Hlt.
    destruct (drop_while plain_char r) as [| d r'].
    - intros [= <- <-].
      unfold token_ok, token_pos, lexer_pos. cbn [type lexeme line column line_ col_].
      rewrite take_while_forall. repeat split; [discriminate |].
      eapply pos_lt_le_trans; eassumption.
    - intros [= <- <-].
      unfold token_ok, token_pos, lexer_pos. cbn [type lexeme line column line_ col_].
      repeat split.
      + destruct (Ascii.eqb d quote); apply take_while_forall.
      + destruct (Ascii.eqb d quote); discriminate.
      + eapply pos_lt_le_trans; [eassumption |].
        eapply pos_le_trans; [eassumption |].
        pose proof (pos_lt_next d (line_after (take_while plain_char r) (next_line c l))
                      (col_after (take_while plain_char r) (next_col c k))) as H.
        unfold pos_lt, pos_le in *. simpl in *. lia. }
  destruct (isdigit c) eqn:Edigit.
  { unfold scanNumber. cbn [rest line_ col_].
    rewrite scanNumber_loop_spec, append_nil_l.
    assert (negb (String.eqb (take_while isdigit (String c r)) EmptyString)
            && String_forall isdigit (take_while isdigit (String c r)) = true) as Hw.
    { rewrite take_while_forall. cbn [take_while]. now rewrite Edigit. }
    assert (pos_lt (l, k)
              (line_after (take_while isdigit (String c r)) l,
               col_after (take_while isdigit (String c r)) k)) as Hpos.
    { cbn [take_while]. rewrite Edigit. cbn [line_after col_after].
      eapply pos_lt_le_trans; [apply (pos_lt_next c) | apply pos_le_after]. }
    remember (take_while isdigit (String c r)) as w eqn:Ew.
    intros [= <- <-].
    unfold token_ok, token_pos, lexer_pos. cbn [type lexeme line column line_ col_].
    repeat split; [exact Hw | discriminate | exact Hpos]. }
  destruct (isalpha c || Ascii.eqb c "_" || Ascii.eqb c "#") eqn:Eident.
  { assert (is_identifier_char c = true) as Eic.
    { unfold is_identifier_char, isalnum.
      destruct (isalpha c); [reflexivity |]. simpl in Eident.
      rewrite Edigit. simpl. exact Eident. }
    unfold scanIdentifierOrKeyword. cbn [rest line_ col_].
    rewrite scanIdentifierOrKeyword_loop_spec, append_nil_l.
    assert (word_ok (take_while is_identifier_char (String c r)) = true) as Hw.
    { pose proof (take_while_forall is_identifier_char (String c r)) as Hf.
      cbn [take_while] in *. rewrite Eic in *. unfold word_ok, identifier_start.
      now rewrite Eident, Hf. }
    assert (pos_lt (l, k)
              (line_after (take_while is_identifier_char (String c r)) l,
               col_after (take_while is_identifier_char (String c r)) k)) as Hpos.
    { cbn [take_while]. rewrite Eic. cbn [line_after col_after].
      eapply pos_lt_le_trans; [apply (pos_lt_next c) | apply pos_le_after]. }
    remember (take_while is_identifier_char (String c r)) as w eqn:Ew.
    destruct (count_string w kKeywords) eqn:Ekw; intros [= <- <-];
      unfold token_ok, token_pos, lexer_pos; cbn [type lexeme line column line_ col_];
      rewrite Hw, Ekw; repeat split; try discriminate; exact Hpos. }
  unfold bind at 1. unfold matchOperator. cbn [rest].
  destruct (find _ kOperators) as [op |] eqn:Efind.
  { apply find_some in Efind as [Hin Hsw].
    destruct (advance_over_starts_with op (mkLexer (String c r) l k) Hsw)
      as (lx1 & Ha & Hlen).
    unfold bind. rewrite Ha. unfold ret. intros [= <- <-].
    unfold token_ok, token_pos, lexer_pos. cbn [type lexeme line column].
    rewrite (count_string_In _ _ Hin). repeat split; [discriminate |].
    destruct op as [| a op']; [apply kOperators_nonempty in Hin; simpl in Hin; lia |].
    cbn [advance_over] in Ha. unfold bind, advance in Ha. cbn [rest line_ col_] in Ha.
    eapply pos_lt_le_trans; [apply (pos_lt_next c) |].
    clear - Ha. revert Ha.
    generalize (next_line c l) (next_col c k) r.
    induction op' as [| b op' IH]; intros l0 k0 r0 Ha.
    - inversion Ha. unfold pos_le. simpl. lia.
    - cbn [advance_over] in Ha. unfold bind, advance in Ha. cbn [rest line_ col_] in Ha.
      destruct r0 as [| d r1]; [discriminate |].
      eapply pos_le_trans; [| apply (IH _ _ _ Ha)].
      pose proof (pos_lt_next d l0 k0) as H. unfold pos_lt, pos_le in *. simpl in *. lia. }
  pose proof (find_none _ _ Efind) as Hnone.
  assert (count_string (String c EmptyString) kOperators = false) as Hnop.
  { destruct (count_string (String c EmptyString) kOperators) eqn:E; [| reflexivity].
    unfold count_string in E. apply existsb_exists in E as (op & Hin & Heq).
    apply String.eqb_eq in Heq. subst op.
    specialize (Hnone _ Hin). cbn [starts_with] in Hnone.
    rewrite Ascii.eqb_refl in Hnone. discriminate. }
  unfold ret. cbv beta.
  destruct (count_char c kSymbols) eqn:Esym; unfold bind, advance, ret;
    cbn [rest line_ col_]; intros [= <- <-];
    unfold token_ok, token_pos, lexer_pos; cbn [type lexeme line column line_ col_].
  - rewrite Esym, Hnop. repeat split; [discriminate | apply pos_lt_next].
  - repeat split; [| discriminate | apply pos_lt_next].
    cbn [String_forall]. rewrite andb_true_r. unfold plain_char.
    rewrite Equote. cbn [negb andb].
    destruct (Ascii.eqb c newline) eqn:En; [| reflexivity].
    apply Ascii.eqb_eq in En. subst c. discriminate.
Qed.

(** What the loop of [tokenize] maintains: a property of the tokens made
    so far and the lexer, kept by skipping white space and by each
    token, holds at the end of the text, where the end-of-file token is
    added. *)
Lemma tokenize_loop_invariant (J : list Token → Lexer → Prop) :
  (∀ acc lx, J acc lx → J acc (skipWhitespace_loop (rest lx) (line_ lx) (col_ lx))) →
  (∀ acc c r l k tok lx',
     J acc (mkLexer (String c r) l k) → isspace c = false →
     scanToken (mkLexer (String c r) l k) = Some (tok, lx') → J (acc ++ [tok]) lx') →
  ∀ fuel lx acc ts,
    J acc lx → tokenize_loop fuel lx acc = Tokens ts →
    ∃ acc' l k, J acc' (mkLexer EmptyString l k) ∧
                ts = acc' ++ [makeToken EndOfFile EmptyString l k].
Proof.
  intros Hskip Hscan. induction fuel as [| fuel IH]; intros lx acc ts HJ.
  - destruct lx as [[| c r] l k]; simpl; [| discriminate].
    intros [= <-]. eauto.
  - cbn [tokenize_loop].
    destruct (isAtEnd lx) eqn:Eend.
    { destruct lx as [[| c r] l k]; [| discriminate]. intros [= <-]. eauto. }
    unfold skipWhitespace.
    specialize (Hskip _ _ HJ).
    rewrite skipWhitespace_loop_spec in *.
    destruct (drop_while isspace (rest lx)) as [| c r] eqn:Edrop.
    { cbn [isAtEnd rest line_ col_]. intros [= <-]. eauto. }
    cbn [isAtEnd rest].
    destruct (scanToken _) as [[tok lx2] |] eqn:Escan; [| discriminate].
    intros Hts. eapply IH; [| exact Hts].
    eapply Hscan; [exact Hskip | | exact Escan].
    eapply drop_while_head. exact Edrop.
Qed.

End TokenInvariants.

Section TokenSequenceFacts.
Import Lex.

(** The token sequence of every source text ends with an end-of-file
    token, and that is the only one in it. *)
Theorem tokenize_ends_with_EndOfFile (source : string) :
  ∃ body l k,
    tokenize source = Tokens (body ++ [makeToken EndOfFile EmptyString l k]) ∧
    Forall (λ t, type t ≠ EndOfFile) body.
Proof.
  destruct (tokenize_loop_total (String.length source) (Lexer_new source) [])
    as [ts Hts]; [simpl; lia |].
  destruct (tokenize_loop_invariant (λ acc _, Forall (λ t, type t ≠ EndOfFile) acc))
    with (fuel := String.length source) (lx := Lexer_new source)
         (acc := @nil Token) (ts := ts) as (body & l & k & Hbody & ->); auto.
  - intros acc c r l k tok lx' Hacc Hsp Hscan.
    apply Forall_app. split; [exact Hacc |]. apply Forall_singleton.
    apply (scanToken_step c r l k tok lx' Hsp Hscan).
  - exists body, l, k. split; [exact Hts | exact Hbody].
Qed.

(** Every token of every source text has the form of its type: a Number
    is a non-empty run of digits, an Identifier a word that is no
    keyword, a Keyword a word of the keyword set, an Operator one of
    [kOperators], a Symbol one character of [kSymbols] that is no
    operator (so never [*] or [/]), a String or Unknown token has
    neither quote nor newline in its text, and a Comment no newline. *)
Theorem tokenize_tokens_well_formed (source : string) :
  ∃ ts, tokenize source = Tokens ts ∧ Forall (λ t, token_ok t = true) ts.
Proof.
  destruct (tokenize_loop_total (String.length source) (Lexer_new source) [])
    as [ts Hts]; [simpl; lia |].
  exists ts. split; [exact Hts |].
  destruct (tokenize_loop_invariant (λ acc _, Forall (λ t, token_ok t = true) acc))
    with (fuel := String.length source) (lx := Lexer_new source)
         (acc := @nil Token) (ts := ts) as (body & l & k & Hbody & ->); auto.
  - intros acc c r l k tok lx' Hacc Hsp Hscan.
    apply Forall_app. split; [exact Hacc |]. apply Forall_singleton.
    apply (scanToken_step c r l k tok lx' Hsp Hscan).
  - apply Forall_app. split; [exact Hbody |]. apply Forall_singleton. reflexivity.
Qed.

(** Tokens come in source order: along the sequence the positions
    (line, then column) strictly increase, starting at or after line 1,
    column 1. *)
Theorem tokenize_positions_increase (source : string) :
  ∃ ts, tokenize source = Tokens ts ∧
        StronglySorted token_before ts ∧
        Forall (λ t, pos_le (1, 1)%Z (token_pos t)) ts.
Proof.
  destruct (tokenize_loop_total (String.length source) (Lexer_new source) [])
    as [ts Hts]; [simpl; lia |].
  exists ts. split; [exact Hts |].
  destruct (tokenize_loop_invariant
              (λ acc lx, StronglySorted token_before acc ∧
                         Forall (λ t, pos_lt (token_pos t) (lexer_pos lx)) acc ∧
                         Forall (λ t, pos_le (1, 1)%Z (token_pos t)) acc ∧
                         pos_le (1, 1)%Z (lexer_pos lx)))
    with (fuel := String.length source) (lx := Lexer_new source)
         (acc := @nil Token) (ts := ts)
    as (body & l & k & (Hsorted & Hbefore & Hfrom & Hpos) & ->); auto.
  - intros acc lx (Hs & Hb & Hf & Hp).
    rewrite skipWhitespace_loop_spec.
    pose proof (pos_le_after (take_while isspace (rest lx)) (line_ lx) (col_ lx)) as Hle.
    repeat split; auto.
    + eapply Forall_impl; [exact Hb |]. intros t Ht.
      eapply pos_lt_le_trans; [exact Ht | exact Hle].
    + eapply pos_le_trans; [exact Hp | exact Hle].
  - intros acc c r l k tok lx' (Hs & Hb & Hf & Hp) Hsp Hscan.
    destruct (scanToken_step c r l k tok lx' Hsp Hscan) as (_ & _ & Htp & Hlt).
    repeat split.
    + apply StronglySorted_app_2; [| exact Hs | apply SSorted_cons; constructor].
      intros t u Ht Hu. apply list_elem_of_singleton in Hu. subst u.
      unfold token_before. rewrite Htp.
      rewrite Forall_forall in Hb. apply (Hb t Ht).
    + apply Forall_app. split.
      * eapply Forall_impl; [exact Hb |]. intros t Ht.
        eapply pos_lt_le_trans; [exact Ht |]. apply pos_lt_le. exact Hlt.
      * apply Forall_singleton. now rewrite Htp.
    + apply Forall_app. split; [exact Hf |]. apply Forall_singleton. now rewrite Htp.
    + eapply pos_le_trans; [exact Hp |]. apply pos_lt_le. exact Hlt.
  - split; [constructor | split; [constructor | split; [constructor |]]].
    unfold pos_le. simpl. lia.
  - split.
    + apply StronglySorted_app_2; [| exact Hsorted | apply SSorted_cons; constructor].
      intros t u Ht Hu. apply list_elem_of_singleton in Hu. subst u.
      rewrite Forall_forall in Hbefore. apply (Hbefore t Ht).
    + apply Forall_app. split; [exact Hfrom |]. apply Forall_singleton. exact Hpos.
Qed.

Lemma forall_take_drop (p : ascii → bool) (s : string) :
  String_forall p s = true → take_while p s = s ∧ drop_while p s = EmptyString.
Proof.
  induction s as [| c r IH]; [auto |]. simpl. intros H.
  apply andb_prop in H as [Hc Hr]. rewrite Hc.
  destruct (IH Hr) as [-> ->]. auto.
Qed.

(** A source text of white space only, the empty text included, gives
    the end-of-file token alone, at the position behind the text. *)
Theorem tokenize_white_space (source : string) :
  String_forall isspace source = true →
  tokenize source
    = Tokens [makeToken EndOfFile EmptyString (line_after source 1) (col_after source 1)].
Proof.
  intros H. unfold tokenize, Lexer_new.
  destruct source as [| c r]; [reflexivity |].
  cbn [String.length tokenize_loop isAtEnd rest].
  unfold skipWhitespace. cbn [rest line_ col_].
  rewrite skipWhitespace_loop_spec.
  destruct (forall_take_drop isspace (String c r) H) as [-> ->].
  reflexivity.
Qed.

Lemma tokenize_white_space_witness :
  tokenize "  
 " = Tokens [makeToken EndOfFile EmptyString 2 2].
Proof. apply (tokenize_white_space "  
 "). reflexivity. Defined.

End TokenSequenceFacts.


(** ** Properties of the parser *)

Section ParserFacts.
Import Engine Parse.
Variable stoi : string → outcome Z.
Variable tokens_ : list Lex.Token.

Lemma peek_at (pos : nat) (t : Lex.Token) :
  tokens_ !! pos = Some t → peek tokens_ pos = POk t pos.
Proof. unfold peek. now intros ->. Qed.

Lemma advance_at (pos : nat) (t : Lex.Token) :
  tokens_ !! pos = Some t → advance tokens_ pos = POk t (S pos).
Proof. unfold advance. now intros ->. Qed.

Lemma match_at (pos : nat) (t : Lex.Token) (ty : Lex.TokenType) (lexeme : string) :
  tokens_ !! pos = Some t →
  match_ tokens_ ty lexeme pos
    = POk (matches t ty lexeme) (if matches t ty lexeme then S pos else pos).
Proof.
  intros H. unfold match_, bind, matches. rewrite (peek_at _ _ H).
  destruct (TokenType_eqb (Lex.type t) ty); [| reflexivity].
  destruct (String.eqb lexeme EmptyString); cbn [negb andb orb].
  - now rewrite (advance_at _ _ H).
  - destruct (String.eqb (Lex.lexeme t) lexeme); cbn [negb]; [| reflexivity].
    now rewrite (advance_at _ _ H).
Qed.

Lemma expect_at (pos : nat) (t : Lex.Token) (ty : Lex.TokenType) (lexeme : string) :
  tokens_ !! pos = Some t →
  expect tokens_ ty lexeme pos
    = if matches t ty lexeme then POk tt (S pos) else PThrow (parse_error t).
Proof.
  intros H. unfold expect, bind. rewrite (match_at _ _ _ _ H).
  destruct (matches t ty lexeme); [reflexivity |].
  now rewrite (peek_at _ _ H).
Qed.

Lemma matches_token_is (t : Lex.Token) (ty : Lex.TokenType) (lexeme : string) :
  token_is t ty lexeme = true → matches t ty lexeme = true.
Proof.
  unfold token_is, matches. intros H. apply andb_prop in H as [-> ->].
  now rewrite orb_true_r.
Qed.

(** A token of another type or with another lexeme does not match. *)
Lemma matches_other (t : Lex.Token) (ty ty' : Lex.TokenType) (lexeme lexeme' : string) :
  token_is t ty lexeme = true →
  TokenType_eqb ty ty' && String.eqb lexeme lexeme' = false →
  lexeme' ≠ EmptyString →
  matches t ty' lexeme' = false.
Proof.
  unfold token_is, matches. intros H Hne Hl.
  apply andb_prop in H as [Ht Hx].
  apply String.eqb_eq in Hx. subst lexeme.
  assert (Lex.type t = ty) as <- by (destruct (Lex.type t), ty; simpl in *; congruence).
  apply String.eqb_neq in Hl. rewrite Hl. cbn [orb].
  exact Hne.
Qed.

Lemma string_append_assoc (a b c : string) : (a +:+ b) +:+ c = a +:+ (b +:+ c).
Proof.
  induction a as [| x a IH]; [reflexivity |]. rewrite !append_cons. now f_equal.
Qed.

Lemma concat_empty_cons (a : string) (l : list string) :
  String.concat "" (a :: l) = a +:+ String.concat "" l.
Proof.
  destruct l as [| b l]; [simpl; now rewrite append_nil_r |].
  change (String.concat "" (a :: b :: l)) with (a +:+ "" +:+ String.concat "" (b :: l)).
  now rewrite append_nil_l.
Qed.

Lemma concat_cons_map (x : string) (xs : list string) :
  String.concat " " (x :: xs) = x +:+ String.concat "" (map (λ y, " " +:+ y) xs).
Proof.
  revert x. induction xs as [| y ys IH]; intros x.
  - simpl. now rewrite append_nil_r.
  - change (String.concat " " (x :: y :: ys)) with (x +:+ " " +:+ String.concat " " (y :: ys)).
    rewrite IH. cbn [map]. rewrite concat_empty_cons, string_append_assoc. reflexivity.
Qed.

End ParserFacts.

Section ParserStatementFacts.
Import Engine Parse.
Variable stoi : string → outcome Z.
Variable tokens_ : list Lex.Token.

Lemma tokens_at_cons (pos : nat) (c : Lex.Token) (cs : list Lex.Token) :
  tokens_at tokens_ pos (c :: cs) → tokens_ !! pos = Some c ∧ tokens_at tokens_ (S pos) cs.
Proof.
  intros H. split.
  - rewrite <- (Nat.add_0_r pos). now apply (H 0).
  - intros i d Hd. replace (S pos + i) with (pos + S i) by lia. now apply (H (S i)).
Qed.

(** The condition loop behind its first token: every further lexeme is
    appended behind a space, up to the stop token. *)
Lemma collect_condition_rest (stop : Lex.Token → bool) (cs : list Lex.Token) :
  ∀ fuel pos condition last,
    tokens_at tokens_ pos cs →
    Forall (λ c, stop c = false) cs →
    tokens_ !! (pos + length cs) = Some last → stop last = true →
    length cs < fuel →
    collect_condition tokens_ stop fuel false condition pos
      = POk (condition +:+ String.concat "" (map (λ c, " " +:+ Lex.lexeme c) cs))
            (pos + length cs).
Proof.
  induction cs as [| c cs IH]; intros fuel pos condition last Hat Hns Hlast Hstop Hfuel.
  - destruct fuel as [| fuel]; [simpl in Hfuel; lia |].
    cbn [length] in *. rewrite Nat.add_0_r in *.
    cbn [collect_condition]. unfold bind. rewrite (peek_at _ _ _ Hlast), Hstop.
    cbn [map String.concat]. now rewrite append_nil_r.
  - destruct fuel as [| fuel]; [simpl in Hfuel; lia |].
    apply tokens_at_cons in Hat as [Hc Hat].
    apply Forall_cons in Hns as [Hnc Hns].
    cbn [collect_condition]. unfold bind.
    rewrite (peek_at _ _ _ Hc), Hnc, (advance_at _ _ _ Hc).
    cbn [length] in *. replace (pos + S (length cs)) with (S pos + length cs) in * by lia.
    rewrite (IH fuel (S pos) _ last Hat Hns Hlast Hstop) by lia.
    cbn [map]. rewrite concat_empty_cons, !string_append_assoc. reflexivity.
Qed.

(** The whole condition loop: the lexemes up to the stop token, joined
    by single spaces. *)
Lemma collect_condition_joined (stop : Lex.Token → bool) (cs : list Lex.Token)
    (fuel pos : nat) (last : Lex.Token) :
  tokens_at tokens_ pos cs →
  Forall (λ c, stop c = false) cs →
  tokens_ !! (pos + length cs) = Some last → stop last = true →
  length cs < fuel →
  collect_condition tokens_ stop fuel true EmptyString pos
    = POk (String.concat " " (map Lex.lexeme cs)) (pos + length cs).
Proof.
  intros Hat Hns Hlast Hstop Hfuel.
  destruct cs as [| c cs].
  - destruct fuel as [| fuel]; [simpl in Hfuel; lia |].
    cbn [length] in *. rewrite Nat.add_0_r in *.
    cbn [collect_condition]. unfold bind. now rewrite (peek_at _ _ _ Hlast), Hstop.
  - destruct fuel as [| fuel]; [simpl in Hfuel; lia |].
    apply tokens_at_cons in Hat as [Hc Hat].
    apply Forall_cons in Hns as [Hnc Hns].
    cbn [collect_condition]. unfold bind.
    rewrite (peek_at _ _ _ Hc), Hnc, (advance_at _ _ _ Hc).
    cbn [length] in *. replace (pos + S (length cs)) with (S pos + length cs) in * by lia.
    rewrite (collect_condition_rest stop cs fuel (S pos) _ last Hat Hns Hlast Hstop) by lia.
    rewrite append_nil_l. cbn [map]. now rewrite concat_cons_map, map_map.
Qed.

(** Steps through the parser at a known token: a [match] that fails, a
    [match] that succeeds, an [expect] that succeeds. *)
Ltac miss Ht Ht' :=
  rewrite (match_at _ _ _ _ _ Ht);
  rewrite (matches_other _ _ _ _ _ Ht') by (reflexivity || discriminate);
  cbv beta iota delta [ret].
Ltac hit Ht Ht' :=
  rewrite (match_at _ _ _ _ _ Ht), (matches_token_is _ _ _ Ht');
  cbv beta iota delta [ret].
Ltac expected Ht Ht' :=
  rewrite (expect_at _ _ _ _ _ Ht), (matches_token_is _ _ _ Ht');
  cbv beta iota delta [ret].

(** [While => cond => stmt]: the condition is every token up to the next
    [=>], whatever those tokens are, their lexemes joined by single
    spaces; the body is the one statement, without terminator, behind
    that [=>]. *)
Theorem parseStatement_While (fuel pos pos' : nat) (kw arrow arrow2 : Lex.Token)
    (cs : list Lex.Token) (body : Statement) :
  tokens_ !! pos = Some kw → token_is kw Lex.Keyword "While" = true →
  tokens_ !! S pos = Some arrow → token_is arrow Lex.Operator "=>" = true →
  tokens_at tokens_ (S (S pos)) cs →
  Forall (λ c, stops_at_arrow c = false) cs →
  tokens_ !! (S (S pos) + length cs) = Some arrow2 →
  token_is arrow2 Lex.Operator "=>" = true →
  length cs < fuel →
  parseStatementWithoutSemicolon tokens_ (S (S (S pos) + length cs)) = POk body pos' →
  parseStatement stoi tokens_ fuel pos
    = POk (WhileStmt (String.concat " " (map Lex.lexeme cs)) [body]) pos'.
Proof.
  intros Hkw Hkw' Harrow Harrow' Hat Hns Ha2 Ha2' Hfuel Hbody.
  assert (stops_at_arrow arrow2 = true) as Hstop
    by (unfold stops_at_arrow; now rewrite Ha2').
  unfold parseStatement, match_both, bind.
  miss Hkw Hkw'. miss Hkw Hkw'. miss Hkw Hkw'. miss Hkw Hkw'.
  hit Hkw Hkw'. hit Harrow Harrow'.
  rewrite (collect_condition_joined stops_at_arrow cs fuel (S (S pos)) arrow2
             Hat Hns Ha2 Hstop Hfuel).
  expected Ha2 Ha2'.
  replace (S (S (S pos + length cs))) with (S (S (S pos) + length cs)) by lia.
  now rewrite Hbody.
Qed.

(** [If] or [While] without [=>] behind it is dropped: [match] has
    consumed the keyword when the test for [=>] fails, and an assignment
    behind it is parsed as if the keyword were not there. *)
Theorem parseStatement_keyword_dropped (fuel pos : nat)
    (kw var eq val semi : Lex.Token) :
  tokens_ !! pos = Some kw →
  token_is kw Lex.Keyword "If" = true ∨ token_is kw Lex.Keyword "While" = true →
  tokens_ !! S pos = Some var → Lex.type var = Lex.Identifier →
  tokens_ !! S (S pos) = Some eq → token_is eq Lex.Operator "=" = true →
  tokens_ !! S (S (S pos)) = Some val →
  tokens_ !! S (S (S (S pos))) = Some semi → token_is semi Lex.Symbol ";" = true →
  parseStatement stoi tokens_ fuel pos
    = POk (AssignmentStmt (Lex.lexeme var) (Lex.lexeme val)) (S (S (S (S (S pos))))).
Proof.
  intros Hkw Hkw' Hvar Hvt Heq Heq' Hval Hsemi Hsemi'.
  assert (∀ ty lx, ty ≠ Lex.Identifier → matches var ty lx = false) as Hv.
  { intros ty lx Hty. unfold matches. rewrite Hvt. now destruct ty. }
  assert (∀ lx, lx ≠ EmptyString → match_ tokens_ Lex.Keyword lx (S pos) = POk false (S pos))
    as Hmiss.
  { intros lx _. rewrite (match_at _ _ _ _ _ Hvar), Hv by discriminate. reflexivity. }
  assert (parseStatement stoi tokens_ fuel pos
          = assignment_or tokens_ true
              (increment_or tokens_ true (unknown_statement tokens_)) (S pos)) as ->.
  { unfold parseStatement, match_both, bind.
    destruct Hkw' as [Hkw' | Hkw'].
    - miss Hkw Hkw'. miss Hkw Hkw'. miss Hkw Hkw'. hit Hkw Hkw'.
      rewrite (match_at _ _ _ _ _ Hvar), Hv by discriminate.
      cbv beta iota delta [ret].
      repeat (rewrite Hmiss by discriminate; cbv beta iota delta [ret]).
      reflexivity.
    - miss Hkw Hkw'. miss Hkw Hkw'. miss Hkw Hkw'. miss Hkw Hkw'. hit Hkw Hkw'.
      rewrite (match_at _ _ _ _ _ Hvar), Hv by discriminate.
      cbv beta iota delta [ret].
      repeat (rewrite Hmiss by discriminate; cbv beta iota delta [ret]).
      reflexivity. }
  unfold assignment_or, bind.
  rewrite (peek_at _ _ _ Hvar), Hvt. cbn [TokenType_eqb].
  rewrite (advance_at _ _ _ Hvar). hit Heq Heq'.
  rewrite (advance_at _ _ _ Hval). expected Hsemi Hsemi'.
  reflexivity.
Qed.

(** A [Let] with only one token behind it makes the parser read
    [tokens_] beyond its end: the name is taken without a look at it,
    and the next read finds no token. The tokens of a source text that
    ends in [Let] are such a sequence, its last token being the
    end-of-file token. *)
Theorem parseStatement_Let_reads_past_end (fuel pos : nat) (kw name : Lex.Token) :
  tokens_ !! pos = Some kw → token_is kw Lex.Keyword "Let" = true →
  tokens_ !! S pos = Some name →
  length tokens_ = S (S pos) →
  parseStatement stoi tokens_ fuel pos = PFault ∧
  parseStatementWithoutSemicolon tokens_ pos = PFault.
Proof.
  intros Hkw Hkw' Hname Hlen.
  assert (tokens_ !! S (S pos) = None) as Hend by (apply lookup_ge_None; lia).
  assert (expect tokens_ Lex.Operator "=" (S (S pos)) = PFault) as Hexpect.
  { unfold expect, match_, bind, peek. now rewrite Hend. }
  split.
  - unfold parseStatement, bind. hit Hkw Hkw'.
    rewrite (advance_at _ _ _ Hname). cbv beta iota. now rewrite Hexpect.
  - unfold parseStatementWithoutSemicolon, bind. hit Hkw Hkw'.
    rewrite (advance_at _ _ _ Hname). cbv beta iota. now rewrite Hexpect.
Qed.

End ParserStatementFacts.

Lemma parseStatement_While_witness :
  Parse.parseStatement stoi_digits (tokens_of "While => y => y--;") 9 0
    = Parse.POk (Engine.WhileStmt "y" [Engine.IncrementStmt "y" false]) 6.
Proof.
  apply (parseStatement_While stoi_digits (tokens_of "While => y => y--;") 9 0 6
           (Lex.makeToken Lex.Keyword "While" 1 1)
           (Lex.makeToken Lex.Operator "=>" 1 7)
           (Lex.makeToken Lex.Operator "=>" 1 12)
           [Lex.makeToken Lex.Identifier "y" 1 10]);
    try (vm_compute; reflexivity).
  - intros [| [| i]] c H; simpl in H; try discriminate. now inversion H.
  - repeat constructor.
  - simpl. lia.
Defined.

Lemma parseStatement_keyword_dropped_witness :
  Parse.parseStatement stoi_digits (tokens_of "If x = 3;") 6 0
    = Parse.POk (Engine.AssignmentStmt "x" "3") 5.
Proof.
  apply (parseStatement_keyword_dropped stoi_digits (tokens_of "If x = 3;") 6 0
           (Lex.makeToken Lex.Keyword "If" 1 1)
           (Lex.makeToken Lex.Identifier "x" 1 4)
           (Lex.makeToken Lex.Operator "=" 1 6)
           (Lex.makeToken Lex.Number "3" 1 8)
           (Lex.makeToken Lex.Symbol ";" 1 9));
    try (vm_compute; reflexivity).
  left. reflexivity.
Defined.

Lemma parseStatement_Let_reads_past_end_witness :
  Parse.parseStatement stoi_digits (tokens_of "Let") 3 0 = Parse.PFault ∧
  Parse.parseStatementWithoutSemicolon (tokens_of "Let") 0 = Parse.PFault.
Proof.
  apply (parseStatement_Let_reads_past_end stoi_digits (tokens_of "Let") 3 0
           (Lex.makeToken Lex.Keyword "Let" 1 1)
           (Lex.makeToken Lex.EndOfFile EmptyString 1 4));
    vm_compute; reflexivity.
Defined.

Section ParserBlockFacts.
Import Engine Parse.
Variable stoi : string → outcome Z.
Variable tokens_ : list Lex.Token.

Lemma peek_inv (pos pos' : nat) (t : Lex.Token) :
  peek tokens_ pos = POk t pos' → pos' = pos ∧ tokens_ !! pos = Some t.
Proof.
  unfold peek. destruct (tokens_ !! pos); [| discriminate]. now intros [= -> ->].
Qed.

(** Case analysis on the outcome of the first step of a parser that
    returned. *)
Ltac first_step H :=
  match type of H with
  | match ?m with _ => _ end = POk _ _ =>
      let E := fresh "E" in destruct m eqn:E; try discriminate H
  end.

(** The section loop ends in front of [#END_BLOCK], [#EXECUTE_BLOCK] or
    an end-of-file token. *)
Lemma sections_loop_stop (fuel fuel0 : nat) :
  ∀ secs pos secs' pos',
    sections_loop stoi tokens_ fuel fuel0 secs pos = POk secs' pos' →
    ∃ t, tokens_ !! pos' = Some t ∧
         (ends_sections t = true ∨ Lex.type t = Lex.EndOfFile).
Proof.
  induction fuel as [| fuel IH]; intros secs pos secs' pos' H; [discriminate |].
  cbn [sections_loop] in H. unfold bind in H.
  first_step H. apply peek_inv in E as [-> Ht].
  destruct (ends_sections a) eqn:Eend.
  { inversion H; subst. eauto. }
  first_step H. first_step H. apply peek_inv in E0 as [-> Ht2].
  repeat match type of H with
         | (if ?b then _ else _) _ = POk _ _ => destruct b eqn:?
         end;
    try (first_step H; eapply IH; exact H).
  - inversion H; subst. exists a1. split; [exact Ht2 |]. right.
    destruct (Lex.type a1); simpl in *; congruence.
  - discriminate H.
Qed.

(** No output directive is read where no token is the Symbol [*]. *)
Lemma directives_loop_none (fuel pos pos' : nat) (outputs : list string) :
  Forall (λ t, token_is t Lex.Symbol "*" = false) tokens_ →
  directives_loop tokens_ fuel [] pos = POk outputs pos' → outputs = [].
Proof.
  intros Hno H. destruct fuel as [| fuel]; [discriminate |].
  cbn [directives_loop] in H. unfold bind in H.
  first_step H. apply peek_inv in E as [-> Ht].
  rewrite Forall_forall in Hno.
  rewrite (Hno a) in H by (eapply list_elem_of_lookup_2; exact Ht).
  now inversion H.
Qed.

(** What [parseBlock] returns when it returns: the sections it read and,
    behind them, the [ExecuteBlockStmt] of an [#EXECUTE_BLOCK]
    directive. *)
Lemma parseBlock_end_POk (fuel : nat) (blockId : Z) (secs : list ASTNode)
    (pos pos' : nat) (t : Lex.Token) (program : ProgramBlock) :
  tokens_ !! pos = Some t →
  ends_sections t = true ∨ Lex.type t = Lex.EndOfFile →
  parseBlock_end stoi tokens_ fuel blockId secs pos = POk program pos' →
  ∃ id outs p1 p2,
    program = mkProgramBlock blockId (secs ++ [StatementNode (ExecuteBlockStmt id outs)]) ∧
    directives_loop tokens_ fuel [] p1 = POk outs p2.
Proof.
  intros Ht Hstop H. unfold parseBlock_end, bind in H.
  rewrite (peek_at _ _ _ Ht) in H.
  assert (matches t Lex.Symbol ";" = false) as Hsemi.
  { unfold matches. destruct Hstop as [Hs | Hs].
    - unfold ends_sections in Hs. apply andb_prop in Hs as [Hs _].
      destruct (Lex.type t); simpl in *; congruence.
    - now rewrite Hs. }
  destruct (token_is t Lex.Keyword "#END_BLOCK") eqn:Eend.
  { rewrite (expect_at _ _ _ _ _ Ht), Hsemi in H. discriminate H. }
  cbv beta iota delta [ret] in H.
  rewrite (match_at _ _ _ _ _ Ht) in H.
  destruct (matches t Lex.Keyword "#EXECUTE_BLOCK") eqn:Eexec.
  - cbv beta iota in H.
    do 5 first_step H. inversion H; subst. clear H.
    do 5 first_step E. inversion E; subst. eauto 6.
  - exfalso. cbv beta iota delta [ret] in H.
    rewrite (peek_at _ _ _ Ht) in H.
    assert (token_is t Lex.Symbol ";" = false) as Hsemi'.
    { unfold token_is. unfold matches in Hsemi. cbn [String.eqb orb] in Hsemi.
      apply andb_false_iff in Hsemi as [-> | Hs]; [reflexivity |].
      apply andb_false_iff. right. exact Hs. }
    rewrite Hsemi' in H. cbv beta iota delta [ret] in H.
    rewrite (expect_at _ _ _ _ _ Ht) in H.
    assert (matches t Lex.Keyword "#END_BLOCK" = false) as Hend.
    { unfold matches, token_is in *. cbn [String.eqb orb] in *. exact Eend. }
    rewrite Hend in H. discriminate H.
Qed.

Lemma parseBlock_POk (fuel pos pos' : nat) (program : ProgramBlock) :
  parseBlock stoi tokens_ fuel pos = POk program pos' →
  ∃ secs id outs p1 p2,
    sections program = secs ++ [StatementNode (ExecuteBlockStmt id outs)] ∧
    directives_loop tokens_ fuel [] p1 = POk outs p2.
Proof.
  intros H. unfold parseBlock, bind in H.
  do 6 first_step H.
  destruct (sections_loop_stop _ _ _ _ _ _ E4) as (t & Ht & Hstop).
  destruct (parseBlock_end_POk _ _ _ _ _ _ _ Ht Hstop H) as (id & outs & p1 & p2 & -> & Hd).
  exists a4, id, outs, p1, p2. auto.
Qed.

(** The parser accepts a block only with an [#EXECUTE_BLOCK] directive:
    the last section of every program it returns is the
    [ExecuteBlockStmt] of that directive. A block that goes from its
    sections to [#END_BLOCK] is rejected. *)
Theorem parseBlock_requires_execute_block (fuel pos pos' : nat) (program : ProgramBlock) :
  parseBlock stoi tokens_ fuel pos = POk program pos' →
  ∃ secs id outs,
    sections program = secs ++ [StatementNode (ExecuteBlockStmt id outs)].
Proof.
  intros H. destruct (parseBlock_POk _ _ _ _ H) as (secs & id & outs & _ & _ & Hs & _).
  eauto.
Qed.

End ParserBlockFacts.

Section LexerThenParser.
Import Engine Parse.
Variable stoi : string → outcome Z.

Lemma token_ok_no_star (t : Lex.Token) :
  token_ok t = true → token_is t Lex.Symbol "*" = false.
Proof.
  destruct t as [ty w l k]. unfold token_ok, token_is.
  cbn [Lex.type Lex.lexeme].
  destruct ty; try reflexivity. cbn [TokenType_eqb andb].
  destruct (String.eqb_spec w "*") as [-> | _]; [| reflexivity].
  vm_compute. intros H. exact (eq_sym H).
Qed.

(** No token of a source text is the Symbol [*]: the lexer makes [*] an
    Operator. *)
Lemma tokens_of_no_star (source : string) :
  Forall (λ t, token_is t Lex.Symbol "*" = false) (tokens_of source).
Proof.
  unfold tokens_of, Lex.tokenize.
  destruct (Lex.tokenize_loop _ _ _) as [ts | |] eqn:Hts; try constructor.
  destruct (tokenize_loop_invariant
              (λ acc _, Forall (λ t, token_is t Lex.Symbol "*" = false) acc))
    with (fuel := String.length source) (lx := Lex.Lexer_new source)
         (acc := @nil Lex.Token) (ts := ts) as (body & l & k & Hbody & ->); auto.
  - intros acc c r l k tok lx' Hacc Hsp Hscan.
    apply Forall_app. split; [exact Hacc |]. apply Forall_singleton.
    apply token_ok_no_star. apply (scanToken_step c r l k tok lx' Hsp Hscan).
  - apply Forall_app. split; [exact Hbody |]. apply Forall_singleton. reflexivity.
Qed.

(** Lexer and parser together, as [main] runs them: whatever the source
    text, the program the parser returns for its tokens ends with an
    [ExecuteBlockStmt] that has no outputs. The parser reads an output
    directive behind a Symbol [*] and the lexer makes every [*] an
    Operator, so the directives of a source text are never read; a
    directive behind [=>] makes the parse fail at
    [expect(Keyword, "#END_BLOCK")]. *)
Theorem parseProgram_of_source_reads_no_directive (source : string)
    (program : ProgramBlock) (pos' : nat) :
  parseProgram stoi (tokens_of source) = POk program pos' →
  ∃ secs id, sections program = secs ++ [StatementNode (ExecuteBlockStmt id [])].
Proof.
  intros H. unfold parseProgram in H.
  destruct (parseBlock_POk _ _ _ _ _ _ H) as (secs & id & outs & p1 & p2 & Hs & Hd).
  apply (directives_loop_none _ _ _ _ _ (tokens_of_no_star source)) in Hd as ->.
  eauto.
Qed.

End LexerThenParser.

Lemma parseBlock_requires_execute_block_witness :
  ∃ secs id outs,
    Engine.sections (Engine.mkProgramBlock 1 [Engine.StatementNode (Engine.ExecuteBlockStmt 2 [])])
    = secs ++ [Engine.StatementNode (Engine.ExecuteBlockStmt id outs)].
Proof.
  apply (parseBlock_requires_execute_block stoi_digits
           (tokens_of "#START_BLOCK(1); #EXECUTE_BLOCK(2) => ; #END_BLOCK;") 13 0 13).
  vm_compute. reflexivity.
Defined.

Lemma parseProgram_of_source_reads_no_directive_witness :
  ∃ secs id,
    Engine.sections
      (Engine.mkProgramBlock 1
         [Engine.DataBlock "d" 1 [Engine.LetStmt "x" "5"];
          Engine.StatementNode (Engine.ExecuteBlockStmt 1 [])])
    = secs ++ [Engine.StatementNode (Engine.ExecuteBlockStmt id [])].
Proof.
  apply (parseProgram_of_source_reads_no_directive stoi_digits
           "#START_BLOCK(1); DATA [ d [ 1 ] { Let x = 5; } ; ] #EXECUTE_BLOCK(1) => ; #END_BLOCK;"
           _ 28).
  vm_compute. reflexivity.
Defined.

(** ** Termination of the parser *)

Section ParserTermination.
Import Engine Parse.
Variable stoi : string → outcome Z.
Variable tokens_ : list Lex.Token.

Lemma consuming_forward_at {A : Type} (p : P A) (pos : nat) :
  consuming_at p pos → forward_at p pos.
Proof. intros [H1 H2]. split; [exact H1 |]. intros a pos' H. specialize (H2 _ _ H). lia. Qed.

Lemma consuming_forward {A : Type} (p : P A) : consuming p → forward p.
Proof. intros H pos. apply consuming_forward_at, H. Qed.

Lemma forward_at_bind {A B : Type} (m : P A) (k : A → P B) (pos : nat) :
  forward_at m pos →
  (∀ a pos', m pos = POk a pos' → forward_at (k a) pos') →
  forward_at (bind m k) pos.
Proof.
  intros [Hm1 Hm2] Hk. unfold forward_at, bind.
  destruct (m pos) as [a p1 | e | |] eqn:E; try (split; [discriminate | discriminate]).
  - destruct (Hk a p1 eq_refl) as [Hk1 Hk2]. split; [exact Hk1 |].
    intros b pos' H. specialize (Hk2 _ _ H). specialize (Hm2 _ _ eq_refl). lia.
  - contradiction.
Qed.

Lemma consuming_at_bind_l {A B : Type} (m : P A) (k : A → P B) (pos : nat) :
  consuming_at m pos →
  (∀ a pos', m pos = POk a pos' → forward_at (k a) pos') →
  consuming_at (bind m k) pos.
Proof.
  intros [Hm1 Hm2] Hk. unfold consuming_at, bind.
  destruct (m pos) as [a p1 | e | |] eqn:E; try (split; [discriminate | discriminate]).
  - destruct (Hk a p1 eq_refl) as [Hk1 Hk2]. split; [exact Hk1 |].
    intros b pos' H. specialize (Hk2 _ _ H). specialize (Hm2 _ _ eq_refl). lia.
  - contradiction.
Qed.

Lemma consuming_at_bind_r {A B : Type} (m : P A) (k : A → P B) (pos : nat) :
  forward_at m pos →
  (∀ a pos', m pos = POk a pos' → consuming_at (k a) pos') →
  consuming_at (bind m k) pos.
Proof.
  intros [Hm1 Hm2] Hk. unfold consuming_at, bind.
  destruct (m pos) as [a p1 | e | |] eqn:E; try (split; [discriminate | discriminate]).
  - destruct (Hk a p1 eq_refl) as [Hk1 Hk2]. split; [exact Hk1 |].
    intros b pos' H. specialize (Hk2 _ _ H). specialize (Hm2 _ _ eq_refl). lia.
  - contradiction.
Qed.

Lemma forward_bind {A B : Type} (m : P A) (k : A → P B) :
  forward m → (∀ a, forward (k a)) → forward (bind m k).
Proof. intros Hm Hk pos. apply forward_at_bind; [apply Hm |]. intros a pos' _. apply Hk. Qed.

Lemma consuming_bind_l {A B : Type} (m : P A) (k : A → P B) :
  consuming m → (∀ a, forward (k a)) → consuming (bind m k).
Proof. intros Hm Hk pos. apply consuming_at_bind_l; [apply Hm |]. intros a pos' _. apply Hk. Qed.

Lemma consuming_bind_r {A B : Type} (m : P A) (k : A → P B) :
  forward m → (∀ a, consuming (k a)) → consuming (bind m k).
Proof. intros Hm Hk pos. apply consuming_at_bind_r; [apply Hm |]. intros a pos' _. apply Hk. Qed.

Lemma forward_ret {A : Type} (a : A) : forward (ret a).
Proof. intros pos. split; [discriminate |]. now intros b pos' [= _ <-]. Qed.

Lemma consuming_throw {A : Type} (e : exception) : consuming (@throw A e).
Proof. intros pos. split; discriminate. Qed.

Lemma forward_peek : forward (peek tokens_).
Proof.
  intros pos. unfold forward_at, peek. destruct (tokens_ !! pos); split; try discriminate.
  now intros b pos' [= _ <-].
Qed.

Lemma consuming_advance : consuming (advance tokens_).
Proof.
  intros pos. unfold consuming_at, advance. destruct (tokens_ !! pos); split; try discriminate.
  intros b pos' [= _ <-]. lia.
Qed.

(** [match] consumes one token where it answers [true] and none where it
    answers [false]. *)
Lemma match_cases (ty : Lex.TokenType) (lexeme : string) (pos : nat) :
  (∃ t, tokens_ !! pos = Some t ∧ match_ tokens_ ty lexeme pos = POk true (S pos))
  ∨ match_ tokens_ ty lexeme pos = POk false pos
  ∨ match_ tokens_ ty lexeme pos = PFault.
Proof.
  destruct (tokens_ !! pos) as [t |] eqn:E.
  - rewrite (match_at _ _ _ _ _ E). destruct (matches t ty lexeme); eauto.
  - right. right. unfold match_, bind, peek. now rewrite E.
Qed.

Lemma forward_match (ty : Lex.TokenType) (lexeme : string) :
  forward (match_ tokens_ ty lexeme).
Proof.
  intros pos. unfold forward_at.
  destruct (match_cases ty lexeme pos) as [(t & _ & ->) | [-> | ->]];
    (split; [discriminate |]); intros b pos' [= _ <-]; lia.
Qed.

Lemma consuming_expect (ty : Lex.TokenType) (lexeme : string) :
  consuming (expect tokens_ ty lexeme).
Proof.
  intros pos. unfold consuming_at, expect, bind.
  destruct (match_cases ty lexeme pos) as [(t & _ & ->) | [-> | ->]].
  - split; [discriminate |]. intros b pos' [= _ <-]. lia.
  - unfold peek, throw. destruct (tokens_ !! pos); split; discriminate.
  - split; discriminate.
Qed.

Lemma consuming_advance_stoi : consuming (advance_stoi stoi tokens_).
Proof.
  unfold advance_stoi. apply consuming_bind_l; [apply consuming_advance |].
  intros t. destruct (stoi _); [apply forward_ret | apply consuming_forward, consuming_throw].
Qed.

Lemma consuming_match_if {A : Type} (ty : Lex.TokenType) (lexeme : string) (yes no : P A) :
  forward yes → consuming no →
  consuming (bind (match_ tokens_ ty lexeme) (λ b : bool, if b then yes else no)).
Proof.
  intros Hyes Hno pos. unfold consuming_at, bind.
  destruct (match_cases ty lexeme pos) as [(t & _ & ->) | [-> | ->]].
  - destruct (Hyes (S pos)) as [H1 H2]. split; [exact H1 |].
    intros b pos' H. specialize (H2 _ _ H). lia.
  - apply Hno.
  - split; discriminate.
Qed.

Lemma consuming_match_both_if {A : Type} (ty1 ty2 : Lex.TokenType)
    (lexeme1 lexeme2 : string) (yes no : P A) :
  forward yes → consuming no →
  consuming (bind (match_both tokens_ ty1 lexeme1 ty2 lexeme2)
               (λ b : bool, if b then yes else no)).
Proof.
  intros Hyes Hno pos. unfold consuming_at, match_both, bind.
  destruct (match_cases ty1 lexeme1 pos) as [(t & _ & ->) | [-> | ->]].
  - destruct (match_cases ty2 lexeme2 (S pos)) as [(t' & _ & ->) | [-> | ->]].
    + destruct (Hyes (S (S pos))) as [H1 H2]. split; [exact H1 |].
      intros b pos' H. specialize (H2 _ _ H). lia.
    + destruct (consuming_forward _ Hno (S pos)) as [H1 H2]. split; [exact H1 |].
      intros b pos' H. specialize (H2 _ _ H). lia.
    + split; discriminate.
  - apply Hno.
  - split; discriminate.
Qed.

Lemma forward_at_of {A : Type} (p : P A) (pos : nat) : forward p → forward_at p pos.
Proof. intros H. apply H. Qed.

Lemma match_false_inv (ty : Lex.TokenType) (lexeme : string) (pos pos' : nat) :
  match_ tokens_ ty lexeme pos = POk false pos' → pos' = pos.
Proof.
  destruct (match_cases ty lexeme pos) as [(t & _ & ->) | [-> | ->]]; congruence.
Qed.

Lemma consuming_unknown_statement : consuming (unknown_statement tokens_).
Proof.
  unfold unknown_statement. apply consuming_bind_r; [apply forward_peek |].
  intros t. apply consuming_throw.
Qed.

(** Parsers built from the members above, the loops apart. *)
Lemma forward_match_both (ty1 ty2 : Lex.TokenType) (lexeme1 lexeme2 : string) :
  forward (match_both tokens_ ty1 lexeme1 ty2 lexeme2).
Proof.
  unfold match_both. apply forward_bind; [apply forward_match |].
  intros [|]; [apply forward_match | apply forward_ret].
Qed.

Ltac forward_step :=
  match goal with
  | |- forward (ret _) => apply forward_ret
  | |- forward (throw _) => apply consuming_forward, consuming_throw
  | |- forward (peek _) => apply forward_peek
  | |- forward (advance _) => apply consuming_forward, consuming_advance
  | |- forward (match_ _ _ _) => apply forward_match
  | |- forward (match_both _ _ _ _ _) => apply forward_match_both
  | |- forward (expect _ _ _) => apply consuming_forward, consuming_expect
  | |- forward (advance_stoi _ _) => apply consuming_forward, consuming_advance_stoi
  | |- forward (bind _ _) => apply forward_bind; [| intros ?]
  | |- forward (match ?x with _ => _ end) => destruct x
  end.

Ltac forward_tac := repeat forward_step.

(** The backtracking blocks: where the block does not return, [pos_] is
    set back to [tempPos] and the code behind the block runs from
    there. *)
Lemma consuming_assignment_or (semicolon : bool) (otherwise : P Statement) :
  consuming otherwise → consuming (assignment_or tokens_ semicolon otherwise).
Proof.
  intros Ho pos. unfold assignment_or.
  apply consuming_at_bind_r; [apply forward_peek |].
  intros t p0 Hp. apply peek_inv in Hp as [-> Ht].
  destruct (TokenType_eqb _ _); [| apply Ho].
  apply consuming_at_bind_l; [apply consuming_advance |].
  intros a p1 Ha. rewrite (advance_at _ _ _ Ht) in Ha. inversion Ha; subst. clear Ha.
  apply forward_at_bind; [apply forward_match |].
  intros [|] p2 Hm.
  - apply forward_at_of. forward_tac.
  - apply match_false_inv in Hm as ->.
    destruct (Ho pos) as [H1 H2]. split; [exact H1 |].
    intros b pos' H. specialize (H2 _ _ H). lia.
Qed.

Lemma consuming_increment_or (semicolon : bool) (otherwise : P Statement) :
  consuming otherwise → consuming (increment_or tokens_ semicolon otherwise).
Proof.
  intros Ho pos. unfold increment_or.
  apply consuming_at_bind_r; [apply forward_peek |].
  intros t p0 Hp. apply peek_inv in Hp as [-> Ht].
  destruct (TokenType_eqb _ _); [| apply Ho].
  apply consuming_at_bind_l; [apply consuming_advance |].
  intros a p1 Ha. rewrite (advance_at _ _ _ Ht) in Ha. inversion Ha; subst. clear Ha.
  apply forward_at_bind; [apply forward_match |].
  intros [|] p2 Hm.
  - apply forward_at_of. forward_tac.
  - apply match_false_inv in Hm as ->.
    apply forward_at_bind; [apply forward_match |].
    intros [|] p3 Hm.
    + apply forward_at_of. forward_tac.
    + apply match_false_inv in Hm as ->.
      destruct (Ho pos) as [H1 H2]. split; [exact H1 |].
      intros b pos' H. specialize (H2 _ _ H). lia.
Qed.

Lemma consuming_parseStatementWithoutSemicolon :
  consuming (parseStatementWithoutSemicolon tokens_).
Proof.
  unfold parseStatementWithoutSemicolon.
  do 2 (apply consuming_match_if; [forward_tac |]).
  apply consuming_assignment_or, consuming_increment_or, consuming_unknown_statement.
Qed.

(** The loops: each turn consumes a token or ends the loop, so a loop
    that starts at [pos] with more fuel than there are tokens from [pos]
    on never runs out. *)
Lemma forward_collect_condition (stop : Lex.Token → bool) (fuel : nat) :
  ∀ first condition pos,
    length tokens_ - pos < fuel →
    forward_at (collect_condition tokens_ stop fuel first condition) pos.
Proof.
  induction fuel as [| fuel IH]; intros first condition pos Hfuel; [lia |].
  cbn [collect_condition].
  apply forward_at_bind; [apply forward_peek |].
  intros t p0 Hp. apply peek_inv in Hp as [-> Ht].
  destruct (stop t); [apply forward_ret |].
  apply forward_at_bind; [apply consuming_forward_at, consuming_advance |].
  intros a p1 Ha. rewrite (advance_at _ _ _ Ht) in Ha. inversion Ha; subst. clear Ha.
  apply IH. apply lookup_lt_Some in Ht. lia.
Qed.

Lemma forward_body_loop (fuel : nat) :
  ∀ body pos,
    length tokens_ - pos < fuel → forward_at (body_loop tokens_ fuel body) pos.
Proof.
  induction fuel as [| fuel IH]; intros body pos Hfuel; [lia |].
  cbn [body_loop].
  apply forward_at_bind; [apply forward_peek |].
  intros t p0 Hp. apply peek_inv in Hp as [-> Ht].
  destruct (_ && _); [| apply forward_ret].
  apply forward_at_bind;
    [apply consuming_forward_at, consuming_parseStatementWithoutSemicolon |].
  intros stmt p1 Hs.
  destruct (consuming_parseStatementWithoutSemicolon pos) as [_ H2].
  specialize (H2 _ _ Hs). apply IH. apply lookup_lt_Some in Ht. lia.
Qed.

Section EnoughFuel.
Variable fuel0 : nat.
Hypothesis enough : length tokens_ < fuel0.

Lemma forward_collect_condition_full (stop : Lex.Token → bool)
    (first : bool) (condition : string) :
  forward (collect_condition tokens_ stop fuel0 first condition).
Proof. intros pos. apply forward_collect_condition. lia. Qed.

Lemma forward_body_loop_full (body : list Statement) :
  forward (body_loop tokens_ fuel0 body).
Proof. intros pos. apply forward_body_loop. lia. Qed.

Ltac forward_loops :=
  repeat first
    [ apply forward_collect_condition_full
    | apply forward_body_loop_full
    | apply consuming_forward, consuming_parseStatementWithoutSemicolon
    | forward_step ].

Lemma consuming_parseStatement : consuming (parseStatement stoi tokens_ fuel0).
Proof.
  unfold parseStatement.
  repeat (first [apply consuming_match_if | apply consuming_match_both_if];
          [forward_loops |]).
  apply consuming_assignment_or, consuming_increment_or, consuming_unknown_statement.
Qed.

Lemma forward_statements_loop (fuel : nat) :
  ∀ stmts pos,
    length tokens_ - pos < fuel →
    forward_at (statements_loop stoi tokens_ fuel fuel0 stmts) pos.
Proof.
  induction fuel as [| fuel IH]; intros stmts pos Hfuel; [lia |].
  cbn [statements_loop].
  apply forward_at_bind; [apply forward_match |].
  intros [|] p0 Hm; [apply forward_ret |].
  apply match_false_inv in Hm as ->.
  apply forward_at_bind; [apply forward_peek |].
  intros t p0 Hp. apply peek_inv in Hp as [-> Ht].
  apply lookup_lt_Some in Ht as Hlt.
  destruct (token_is _ _ _).
  - apply forward_at_bind; [apply consuming_forward_at, consuming_advance |].
    intros a p1 Ha. rewrite (advance_at _ _ _ Ht) in Ha. inversion Ha; subst.
    apply IH. lia.
  - apply forward_at_bind; [apply consuming_forward_at, consuming_parseStatement |].
    intros stmt p1 Hs. destruct (consuming_parseStatement pos) as [_ H2].
    specialize (H2 _ _ Hs). apply IH. lia.
Qed.

Lemma forward_statements_loop_full (stmts : list Statement) :
  forward (statements_loop stoi tokens_ fuel0 fuel0 stmts).
Proof. intros pos. apply forward_statements_loop. lia. Qed.

Ltac consuming_section :=
  apply consuming_bind_l; [apply consuming_expect |]; intros ?;
  repeat first [apply forward_statements_loop_full | forward_step].

Lemma consuming_parseData : consuming (parseData stoi tokens_ fuel0).
Proof. unfold parseData. consuming_section. Qed.

Lemma consuming_parseOperation : consuming (parseOperation stoi tokens_ fuel0).
Proof. unfold parseOperation. consuming_section. Qed.

Lemma consuming_parseFunction : consuming (parseFunction stoi tokens_ fuel0).
Proof. unfold parseFunction. consuming_section. Qed.

Lemma consuming_parseSystemCall : consuming (parseSystemCall stoi tokens_ fuel0).
Proof. unfold parseSystemCall. consuming_section. Qed.

Lemma forward_skip_comments (fuel : nat) :
  ∀ pos, length tokens_ - pos < fuel → forward_at (skip_comments tokens_ fuel) pos.
Proof.
  induction fuel as [| fuel IH]; intros pos Hfuel; [lia |].
  cbn [skip_comments].
  apply forward_at_bind; [apply forward_peek |].
  intros t p0 Hp. apply peek_inv in Hp as [-> Ht].
  apply lookup_lt_Some in Ht as Hlt.
  destruct (_ || _); [| apply forward_ret].
  apply forward_at_bind; [apply consuming_forward_at, consuming_advance |].
  intros a p1 Ha. rewrite (advance_at _ _ _ Ht) in Ha. inversion Ha; subst.
  apply forward_at_bind; [apply forward_match |].
  intros [|] p2 Hm; [apply forward_ret |].
  apply match_false_inv in Hm as ->. apply IH. lia.
Qed.

Lemma forward_sections_loop (fuel : nat) :
  ∀ secs pos,
    length tokens_ - pos < fuel →
    forward_at (sections_loop stoi tokens_ fuel fuel0 secs) pos.
Proof.
  induction fuel as [| fuel IH]; intros secs pos Hfuel; [lia |].
  cbn [sections_loop].
  apply forward_at_bind; [apply forward_peek |].
  intros t p0 Hp. apply peek_inv in Hp as [-> Ht].
  apply lookup_lt_Some in Ht as Hlt.
  destruct (ends_sections t); [apply forward_ret |].
  apply forward_at_bind; [apply forward_skip_comments; lia |].
  intros [] p1 Hskip.
  destruct (forward_skip_comments fuel0 pos ltac:(lia)) as [_ Hp1].
  specialize (Hp1 _ _ Hskip).
  apply forward_at_bind; [apply forward_peek |].
  intros t1 p2 Hp. apply peek_inv in Hp as [-> Ht1].
  apply lookup_lt_Some in Ht1 as Hlt1.
  repeat match goal with
         | |- forward_at (if ?b then _ else _) _ => destruct b
         end;
    try (apply forward_at_bind;
         [ apply consuming_forward_at;
           first [ apply consuming_parseData | apply consuming_parseOperation
                 | apply consuming_parseFunction | apply consuming_parseSystemCall ]
         | intros section p2 Hs; apply IH ]).
  - destruct (consuming_parseData p1) as [_ H2]. specialize (H2 _ _ Hs). lia.
  - destruct (consuming_parseOperation p1) as [_ H2]. specialize (H2 _ _ Hs). lia.
  - destruct (consuming_parseFunction p1) as [_ H2]. specialize (H2 _ _ Hs). lia.
  - destruct (consuming_parseSystemCall p1) as [_ H2]. specialize (H2 _ _ Hs). lia.
  - apply forward_ret.
  - apply consuming_forward_at, consuming_throw.
Qed.

Lemma forward_parse_directive : forward (parse_directive tokens_).
Proof. unfold parse_directive. forward_tac. Qed.

Lemma forward_directives_loop (fuel : nat) :
  ∀ outputs pos,
    length tokens_ - pos < fuel →
    forward_at (directives_loop tokens_ fuel outputs) pos.
Proof.
  induction fuel as [| fuel IH]; intros outputs pos Hfuel; [lia |].
  cbn [directives_loop].
  apply forward_at_bind; [apply forward_peek |].
  intros t p0 Hp. apply peek_inv in Hp as [-> Ht].
  apply lookup_lt_Some in Ht as Hlt.
  destruct (token_is t Lex.Symbol "*") eqn:Estar; [| apply forward_ret].
  apply forward_at_bind; [apply forward_match |].
  intros b p1 Hm.
  rewrite (match_at _ _ _ _ _ Ht), (matches_token_is _ _ _ Estar) in Hm.
  inversion Hm; subst.
  apply forward_at_bind; [apply forward_parse_directive |].
  intros d p2 Hd. destruct (forward_parse_directive (S pos)) as [_ H2].
  specialize (H2 _ _ Hd). apply IH. lia.
Qed.

Lemma forward_parseBlock : forward (parseBlock stoi tokens_ fuel0).
Proof.
  unfold parseBlock, parseBlock_end.
  repeat first
    [ intros pos; apply forward_sections_loop; lia
    | intros pos; apply forward_directives_loop; lia
    | forward_step ].
Qed.

End EnoughFuel.

(** The parser ends on every token sequence: [parseProgram] returns a
    program, throws, or reads [tokens_] beyond its end. Every turn of
    every loop of the parser consumes a token or leaves the loop, and
    the backtracking blocks of [parseStatement] go back no further than
    the start of the statement. *)
Theorem parseProgram_terminates : parseProgram stoi tokens_ ≠ PNoFuel.
Proof.
  unfold parseProgram.
  apply (forward_parseBlock (S (length tokens_)) ltac:(lia) 0).
Qed.

End ParserTermination.
